(** * drawDB AI assistant: response parser, suggestion applier, context builder

    A shallow embedding of [src/utils/aiHelpers.js], [src/utils/aiActions.js]
    and of [handleApplySuggestion] of the chat panel, with the theorems that
    settle the specification's claims about them, and further properties
    of the same code and of the functions around it.

    Texts are sequences of 8-bit code units (the Latin-1 range of
    JavaScript's UTF-16 code units); JavaScript numbers are integers. *)

From Stdlib Require Import Ascii String List Bool Arith NArith ZArith Lia
  DecimalString DecimalNat Permutation.
Import ListNotations.
Open Scope string_scope.
Open Scope list_scope.

Set Implicit Arguments.

(* ================================================================== *)
(** * Characters and the string methods the code calls *)
(* ================================================================== *)

Module Js.

Definition code (c : ascii) : N := N_of_ascii c.

Definition in_range (lo hi : N) (c : ascii) : bool :=
  (lo <=? code c)%N && (code c <=? hi)%N.

(** [String.prototype.toLowerCase] on one code unit: A-Z and the Latin-1
    capitals (all of 192..222 but the multiplication sign 215). *)
Definition lower_char (c : ascii) : ascii :=
  if in_range 65 90 c || (in_range 192 222 c && negb (code c =? 215)%N)
  then ascii_of_N (code c + 32) else c.

(** [Canonicalize] of a case-insensitive, non-unicode regular expression:
    simple upper-casing that stays a single code unit and never maps a
    non-ASCII unit into ASCII. *)
Definition canon_char (c : ascii) : ascii :=
  if in_range 97 122 c || (in_range 224 254 c && negb (code c =? 247)%N)
  then ascii_of_N (code c - 32) else c.

(** WhiteSpace and LineTerminator: what [\s] matches and [trim] strips. *)
Definition is_space (c : ascii) : bool :=
  in_range 9 13 c || (code c =? 32)%N || (code c =? 160)%N.

(** The word characters of [\b]. *)
Definition is_word_char (c : ascii) : bool :=
  in_range 97 122 c || in_range 65 90 c || in_range 48 57 c || (code c =? 95)%N.

Definition chars (s : string) : list ascii := list_ascii_of_string s.
Definition str (l : list ascii) : string := string_of_list_ascii l.

Definition toLowerCase (s : string) : string := str (map lower_char (chars s)).

Fixpoint drop_space (l : list ascii) : list ascii :=
  match l with
  | c :: l' => if is_space c then drop_space l' else l
  | [] => []
  end.

Definition trim (s : string) : string :=
  str (rev (drop_space (rev (drop_space (chars s))))).

Fixpoint starts_with (p l : list ascii) : bool :=
  match p, l with
  | [], _ => true
  | a :: p', b :: l' => Ascii.eqb a b && starts_with p' l'
  | _ :: _, [] => false
  end.

(** [s.indexOf(p)]: the first index at which [p] occurs, [None] for -1. *)
Fixpoint index_from (i : nat) (p l : list ascii) : option nat :=
  if starts_with p l then Some i
  else match l with
       | [] => None
       | _ :: l' => index_from (S i) p l'
       end.

Definition indexOf (s p : string) : option nat := index_from 0 (chars p) (chars s).

Definition includes (s p : string) : bool :=
  match indexOf s p with Some _ => true | None => false end.

(** [s.substring(a, b)] for [0 <= a], [b <= s.length]; JavaScript swaps the
    bounds when [a > b]. *)
Definition substring (s : string) (a b : nat) : string :=
  let lo := Nat.min a b in
  let hi := Nat.max a b in
  str (firstn (hi - lo) (skipn lo (chars s))).

Definition strlen (s : string) : nat := List.length (chars s).

(** [arr.includes(x)] on an array of strings. *)
Definition arr_includes (arr : list string) (x : string) : bool :=
  existsb (String.eqb x) arr.

End Js.

(* ================================================================== *)
(** * Regular expressions: a backtracking matcher

    The matcher follows the continuation semantics of the language
    definition: alternatives are tried left to right, a greedy star tries
    one more iteration before it tries to stop, a lazy star the other way
    round, and an iteration that consumes nothing is rejected. *)
(* ================================================================== *)

Module RegExp.

Inductive regex : Type :=
| Eps
| Chr (c : ascii)
| Cls (negated : bool) (ranges : list (N * N))
| Seq (r1 r2 : regex)
| Alt (r1 r2 : regex)
| Star (greedy : bool) (r : regex)
| WordB.

(** A position in the subject: the code units already passed, last one
    first, and those still ahead. *)
Record cursor : Type := Cursor { before : list ascii; after : list ascii }.

Definition remaining (c : cursor) : nat := List.length (after c).

Definition in_ranges (rs : list (N * N)) (x : ascii) : bool :=
  existsb (fun r => Js.in_range (fst r) (snd r) x) rs.

(** The other code unit with the same [Canonicalize], if there is one. *)
Definition swap_case (x : ascii) : ascii :=
  if Ascii.eqb (Js.lower_char x) x then Js.canon_char x else Js.lower_char x.

Section Matcher.

(** The [i] flag. *)
Variable ignoreCase : bool.

Definition chr_match (a x : ascii) : bool :=
  if ignoreCase then Ascii.eqb (Js.canon_char a) (Js.canon_char x)
  else Ascii.eqb a x.

Definition cls_match (negated : bool) (rs : list (N * N)) (x : ascii) : bool :=
  xorb negated
       (in_ranges rs x || (ignoreCase && in_ranges rs (swap_case x))).

Definition prev_is_word (c : cursor) : bool :=
  match before c with x :: _ => Js.is_word_char x | [] => false end.

Definition next_is_word (c : cursor) : bool :=
  match after c with x :: _ => Js.is_word_char x | [] => false end.

Definition cont : Type := cursor -> option cursor.

Definition step_char (ok : ascii -> bool) (k : cont) (c : cursor) : option cursor :=
  match after c with
  | x :: rest => if ok x then k (Cursor (x :: before c) rest) else None
  | [] => None
  end.

(** The loop of a star; [n] bounds the iterations by the code units left,
    which is all an iteration that must consume something can use. *)
Fixpoint star_loop (greedy : bool) (m : cont -> cont) (k : cont)
         (n : nat) (c : cursor) : option cursor :=
  match n with
  | O => k c
  | S n' =>
      let again c' :=
        if (remaining c' <? remaining c)%nat then star_loop greedy m k n' c' else None in
      if greedy then
        match m again c with
        | Some e => Some e
        | None => k c
        end
      else
        match k c with
        | Some e => Some e
        | None => m again c
        end
  end.

Fixpoint rmatch (r : regex) (k : cont) (c : cursor) {struct r} : option cursor :=
  match r with
  | Eps => k c
  | Chr a => step_char (chr_match a) k c
  | Cls neg rs => step_char (cls_match neg rs) k c
  | Seq r1 r2 => rmatch r1 (rmatch r2 k) c
  | Alt r1 r2 =>
      match rmatch r1 k c with
      | Some e => Some e
      | None => rmatch r2 k c
      end
  | Star g r1 => star_loop g (rmatch r1) k (remaining c) c
  | WordB => if xorb (prev_is_word c) (next_is_word c) then k c else None
  end.

(** A match attempt anchored at [c]: the end of the match. *)
Definition match_at (r : regex) (c : cursor) : option cursor := rmatch r Some c.

(** The leftmost match at or after a position: its start and its end. *)
Fixpoint search (r : regex) (bef aft : list ascii) : option (cursor * cursor) :=
  match match_at r (Cursor bef aft) with
  | Some e => Some (Cursor bef aft, e)
  | None =>
      match aft with
      | [] => None
      | x :: rest => search r (x :: bef) rest
      end
  end.

(** The text between the start and the end of a match. *)
Definition matched (s e : cursor) : list ascii :=
  firstn (remaining s - remaining e) (after s).

(** [subject.match(r)] for a regex with the [g] flag: every match, left to
    right, each search starting where the last match ended (one unit
    further after an empty match).  The empty list stands for [null]. *)
Fixpoint match_all_from (fuel : nat) (r : regex) (c : cursor) : list (list ascii) :=
  match fuel with
  | O => []
  | S fuel' =>
      match search r (before c) (after c) with
      | None => []
      | Some (s, e) =>
          matched s e ::
            (if (remaining e <? remaining s)%nat then match_all_from fuel' r e
             else match after e with
                  | [] => []
                  | x :: rest => match_all_from fuel' r (Cursor (x :: before e) rest)
                  end)
      end
  end.

Definition match_all (r : regex) (subject : string) : list string :=
  let l := Js.chars subject in
  map Js.str (match_all_from (S (List.length l)) r (Cursor [] l)).

(** [subject.replace(r, by)] for a regex without the [g] flag and a
    replacement text without [$]: only the leftmost match is replaced. *)
Definition replace (r : regex) (subject by_ : string) : string :=
  let l := Js.chars subject in
  match search r [] l with
  | None => subject
  | Some (s, e) => Js.str (rev (before s) ++ Js.chars by_ ++ after e)
  end.

(** [r.test(subject)] on a fresh regex object. *)
Definition test (r : regex) (subject : string) : bool :=
  match search r [] (Js.chars subject) with Some _ => true | None => false end.

(** [subject.split(r)] for a regex without capture groups: [seg] holds the
    units since the last separator, last one first; the separator is
    tried at each position in turn, and a match that would end where the
    last separator ended is passed over. *)
Fixpoint split_loop (n : nat) (r : regex) (seg : list ascii) (c : cursor)
  : list (list ascii) :=
  match after c with
  | [] => [rev seg]
  | x :: rest =>
      match n with
      | O => [rev seg ++ after c]
      | S n' =>
          match match_at r c with
          | None => split_loop n' r (x :: seg) (Cursor (x :: before c) rest)
          | Some e =>
              if (remaining e <? remaining c)%nat then rev seg :: split_loop n' r [] e
              else match seg with
                   | [] => split_loop n' r [x] (Cursor (x :: before c) rest)
                   | _ :: _ =>
                       rev seg :: split_loop n' r [x] (Cursor (x :: before c) rest)
                   end
          end
      end
  end.

Definition split_chars (r : regex) (l : list ascii) : list (list ascii) :=
  match l with
  | [] => match match_at r (Cursor [] []) with Some _ => [] | None => [[]] end
  | _ :: _ => split_loop (List.length l) r [] (Cursor [] l)
  end.

Definition split (r : regex) (subject : string) : list string :=
  map Js.str (split_chars r (Js.chars subject)).

End Matcher.

(** ** Pattern syntax *)

Fixpoint lit_chars (l : list ascii) : regex :=
  match l with
  | [] => Eps
  | [a] => Chr a
  | a :: l' => Seq (Chr a) (lit_chars l')
  end.

(** A run of ordinary pattern characters. *)
Definition Lit (s : string) : regex := lit_chars (Js.chars s).

(** [r1|r2|...], leftmost first. *)
Fixpoint alts (r : regex) (rs : list regex) : regex :=
  match rs with
  | [] => r
  | r' :: rs' => Alt r (alts r' rs')
  end.

(** [r1 r2 ...] *)
Fixpoint seqs (rs : list regex) : regex :=
  match rs with
  | [] => Eps
  | [r] => r
  | r :: rs' => Seq r (seqs rs')
  end.

Definition Many (r : regex) : regex := Star true r.          (* r*  *)
Definition Lazy (r : regex) : regex := Star false r.         (* r*? *)
Definition Plus (r : regex) : regex := Seq r (Star true r).  (* r+  *)
Definition TwoOrMore (r : regex) : regex := Seq r (Seq r (Star true r)). (* r{2,} *)

Definition Dot : regex := Cls true [(10, 10); (13, 13)]%N.              (* .  *)
Definition Space : regex := Cls false [(9, 13); (32, 32); (160, 160)]%N. (* \s *)
Definition AnyUnit : regex := Cls false [(0, 255)]%N.                    (* [\s\S] *)
Definition Letter : regex := Cls false [(97, 122); (65, 90)]%N.          (* [a-zA-Z] *)
Definition IdentStart : regex := Cls false [(97, 122); (65, 90); (95, 95)]%N.
Definition IdentRest : regex := Cls false [(97, 122); (65, 90); (48, 57); (95, 95)]%N.

End RegExp.


(* ================================================================== *)
(** * JavaScript values, exceptions, and the host functions *)
(* ================================================================== *)

#[local] Unset Elimination Schemes.

(** A value as [JSON.parse] builds it or as an object literal of the code
    does.  An object is its list of properties in insertion order. *)
Inductive JsValue : Type :=
| JUndefined
| JNull
| JBool (b : bool)
| JNum (n : Z)
| JStr (s : string)
| JArr (items : list JsValue)
| JObj (props : list (string * JsValue)).

#[local] Set Elimination Schemes.

Inductive JsError : Type :=
| TypeError
| SyntaxError
| Error (message : string).

(** The completion of an expression that may throw. *)
Inductive Result (A : Type) : Type :=
| Ok (a : A)
| Throw (e : JsError).
Arguments Ok {A} a.
Arguments Throw {A} e.

(** [v.key] for the property names the code reads ([name], [fields],
    [tables], [position], ...): none of them is a property of a string, a
    number, a boolean or an array, so only an object can hold one, and
    reading a property of [null] or [undefined] throws. *)
Definition getProp (v : JsValue) (key : string) : Result JsValue :=
  match v with
  | JUndefined | JNull => Throw TypeError
  | JObj props =>
      Ok (match find (fun p => String.eqb (fst p) key) props with
          | Some p => snd p
          | None => JUndefined
          end)
  | _ => Ok JUndefined
  end.

(** [ToBoolean]. *)
Definition truthy (v : JsValue) : bool :=
  match v with
  | JUndefined | JNull => false
  | JBool b => b
  | JNum n => negb (n =? 0)%Z
  | JStr s => negb (String.eqb s "")
  | JArr _ | JObj _ => true
  end.

(** [a || b] *)
Definition js_or (a b : JsValue) : JsValue := if truthy a then a else b.

(** [a === b].  Objects and arrays are compared by identity; the values
    compared in this code sit at different places of a parsed text or of
    the diagram, so two of them are never the same object. *)
Definition strict_eq (a b : JsValue) : bool :=
  match a, b with
  | JUndefined, JUndefined => true
  | JNull, JNull => true
  | JBool x, JBool y => Bool.eqb x y
  | JNum x, JNum y => (x =? y)%Z
  | JStr x, JStr y => String.eqb x y
  | _, _ => false
  end.

(** [Array.isArray(v)] *)
Definition isArray (v : JsValue) : bool :=
  match v with JArr _ => true | _ => false end.

(** The elements [...v] spreads when [v] is known to be an array. *)
Definition elements (v : JsValue) : list JsValue :=
  match v with JArr l => l | _ => [] end.

(** What the code takes from its environment: [JSON.parse] ([None] when
    it throws a SyntaxError) and [nanoid], whose [n]-th call returns
    [nanoid n]. *)
Class Host : Type := {
  JSON_parse : string -> option JsValue;
  nanoid : nat -> string
}.

(* ================================================================== *)
(** * A reading of [JSON.parse]

    Objects, arrays, strings with the two-character escapes, integers and
    the three literals.  It is the host of the worked scenarios; the
    general theorems hold for every host. *)
(* ================================================================== *)

Module Json.

Definition is_ws (c : ascii) : bool :=
  (Js.code c =? 32)%N || (Js.code c =? 9)%N || (Js.code c =? 10)%N || (Js.code c =? 13)%N.

Fixpoint skip_ws (l : list ascii) : list ascii :=
  match l with
  | c :: l' => if is_ws c then skip_ws l' else l
  | [] => []
  end.

Definition is_digit (c : ascii) : bool := Js.in_range 48 57 c.

Definition unescape (c : ascii) : option ascii :=
  match c with
  | "034"%char => Some "034"%char
  | "\"%char => Some "\"%char
  | "/"%char => Some "/"%char
  | "b"%char => Some (ascii_of_N 8)
  | "f"%char => Some (ascii_of_N 12)
  | "n"%char => Some (ascii_of_N 10)
  | "r"%char => Some (ascii_of_N 13)
  | "t"%char => Some (ascii_of_N 9)
  | _ => None
  end.

(** The text of a string after its opening quote. *)
Fixpoint string_body (l acc : list ascii) : option (string * list ascii) :=
  match l with
  | [] => None
  | "034"%char :: rest => Some (Js.str (rev acc), rest)
  | "\"%char :: c :: rest =>
      match unescape c with
      | Some x => string_body rest (x :: acc)
      | None => None
      end
  | c :: rest =>
      if (Js.code c <? 32)%N then None else string_body rest (c :: acc)
  end.

Fixpoint digits (l : list ascii) (acc : Z) : Z * list ascii :=
  match l with
  | c :: rest =>
      if is_digit c then digits rest (10 * acc + Z.of_N (Js.code c - 48))%Z
      else (acc, l)
  | [] => (acc, [])
  end.

Definition starts_number_tail (l : list ascii) : bool :=
  match l with
  | c :: _ => is_digit c || Ascii.eqb c "."%char || Ascii.eqb c "e"%char || Ascii.eqb c "E"%char
  | [] => false
  end.

(** An integer: no leading zero, no fraction, no exponent. *)
Definition unsigned_int (l : list ascii) : option (Z * list ascii) :=
  match l with
  | "0"%char :: rest => if starts_number_tail rest then None else Some (0%Z, rest)
  | c :: _ =>
      if is_digit c then
        let (n, rest) := digits l 0%Z in
        if starts_number_tail rest then None else Some (n, rest)
      else None
  | [] => None
  end.

Definition number (l : list ascii) : option (JsValue * list ascii) :=
  match l with
  | "-"%char :: rest =>
      match unsigned_int rest with
      | Some (n, rest') => Some (JNum (- n)%Z, rest')
      | None => None
      end
  | _ =>
      match unsigned_int l with
      | Some (n, rest') => Some (JNum n, rest')
      | None => None
      end
  end.

(** A later member of the same name replaces the earlier one's value. *)
Fixpoint set_prop (k : string) (v : JsValue) (props : list (string * JsValue))
  : list (string * JsValue) :=
  match props with
  | [] => [(k, v)]
  | (k', v') :: rest =>
      if String.eqb k' k then (k', v) :: rest else (k', v') :: set_prop k v rest
  end.

Fixpoint value (fuel : nat) (l : list ascii) {struct fuel} : option (JsValue * list ascii) :=
  match fuel with
  | O => None
  | S fuel' =>
      match skip_ws l with
      | "{"%char :: rest =>
          match skip_ws rest with
          | "}"%char :: rest' => Some (JObj [], rest')
          | _ => members fuel' rest []
          end
      | "["%char :: rest =>
          match skip_ws rest with
          | "]"%char :: rest' => Some (JArr [], rest')
          | _ => items fuel' rest []
          end
      | "034"%char :: rest =>
          match string_body rest [] with
          | Some (s, rest') => Some (JStr s, rest')
          | None => None
          end
      | "t"%char :: "r"%char :: "u"%char :: "e"%char :: rest => Some (JBool true, rest)
      | "f"%char :: "a"%char :: "l"%char :: "s"%char :: "e"%char :: rest =>
          Some (JBool false, rest)
      | "n"%char :: "u"%char :: "l"%char :: "l"%char :: rest => Some (JNull, rest)
      | l' => number l'
      end
  end
with members (fuel : nat) (l : list ascii) (acc : list (string * JsValue)) {struct fuel}
  : option (JsValue * list ascii) :=
  match fuel with
  | O => None
  | S fuel' =>
      match skip_ws l with
      | "034"%char :: rest =>
          match string_body rest [] with
          | Some (k, rest1) =>
              match skip_ws rest1 with
              | ":"%char :: rest2 =>
                  match value fuel' rest2 with
                  | Some (v, rest3) =>
                      match skip_ws rest3 with
                      | ","%char :: rest4 => members fuel' rest4 (set_prop k v acc)
                      | "}"%char :: rest4 => Some (JObj (set_prop k v acc), rest4)
                      | _ => None
                      end
                  | None => None
                  end
              | _ => None
              end
          | None => None
          end
      | _ => None
      end
  end
with items (fuel : nat) (l : list ascii) (acc : list JsValue) {struct fuel}
  : option (JsValue * list ascii) :=
  match fuel with
  | O => None
  | S fuel' =>
      match value fuel' l with
      | Some (v, rest) =>
          match skip_ws rest with
          | ","%char :: rest' => items fuel' rest' (acc ++ [v])
          | "]"%char :: rest' => Some (JArr (acc ++ [v]), rest')
          | _ => None
          end
      | None => None
      end
  end.

Definition parse (text : string) : option JsValue :=
  let l := Js.chars text in
  match value (2 * List.length l + 2) l with
  | Some (v, rest) => match skip_ws rest with [] => Some v | _ :: _ => None end
  | None => None
  end.

End Json.

(* ================================================================== *)
(** * The response parser ([src/utils/aiHelpers.js]) *)
(* ================================================================== *)

Import RegExp.

Definition cat (a b : string) : string := String.append a b.
Infix "^^" := cat (at level 60, right associativity).

Definition nl : string := String (ascii_of_N 10) "".

(** The object [parseAIResponse] fills in. *)
Record Suggestions : Type := {
  tables : list JsValue;
  relationships : list JsValue;
  notes : list JsValue;
  optimizations : list JsValue;
  sqlQueries : list string;
  general : list JsValue
}.

Definition noSuggestions : Suggestions :=
  {| tables := []; relationships := []; notes := []; optimizations := [];
     sqlQueries := []; general := [] |}.

Definition push_tables (l : list JsValue) (s : Suggestions) : Suggestions :=
  {| tables := tables s ++ l; relationships := relationships s; notes := notes s;
     optimizations := optimizations s; sqlQueries := sqlQueries s; general := general s |}.

Definition push_relationships (l : list JsValue) (s : Suggestions) : Suggestions :=
  {| tables := tables s; relationships := relationships s ++ l; notes := notes s;
     optimizations := optimizations s; sqlQueries := sqlQueries s; general := general s |}.

Definition push_notes (l : list JsValue) (s : Suggestions) : Suggestions :=
  {| tables := tables s; relationships := relationships s; notes := notes s ++ l;
     optimizations := optimizations s; sqlQueries := sqlQueries s; general := general s |}.

Definition set_sqlQueries (l : list string) (s : Suggestions) : Suggestions :=
  {| tables := tables s; relationships := relationships s; notes := notes s;
     optimizations := optimizations s; sqlQueries := l; general := general s |}.

(** What running the parser leaves behind: the errors written with
    [console.error] and the value returned or the exception thrown. *)
Record Run (A : Type) : Type := {
  console : list JsError;
  result : Result A
}.

(** ** The patterns *)

(** [(?:to|->|references|with)] *)
Definition linkWord : regex :=
  alts (Lit "to") [Lit "->"; Lit "references"; Lit "with"].

(** The group holding an identifier: a letter or underscore, then any
    number of letters, digits and underscores. *)
Definition ident : regex := Seq IdentStart (Many IdentRest).

(** The same with at least two units after the first ([{2,}]). *)
Definition longIdent : regex := Seq IdentStart (TwoOrMore IdentRest).

(** [/```json\n([\s\S]*?)\n```/g] *)
Definition jsonFence : regex :=
  seqs [Lit ("```json" ^^ nl); Lazy AnyUnit; Lit (nl ^^ "```")].
Definition jsonOpen : regex := Lit ("```json" ^^ nl).
Definition fenceClose : regex := Lit (nl ^^ "```").

(** [/```sql\n([\s\S]*?)\n```/g] *)
Definition sqlFence : regex :=
  seqs [Lit ("```sql" ^^ nl); Lazy AnyUnit; Lit (nl ^^ "```")].
Definition sqlOpen : regex := Lit ("```sql" ^^ nl).

Definition tablePatterns : list regex :=
  [ seqs [ alts (Lit "CREATE TABLE")
                [ Lit "Add table"; Lit "Table:";
                  seqs [Lit "suggest"; Many Dot; Lit "table"];
                  seqs [Lit "recommend"; Many Dot; Lit "table"];
                  seqs [Lit "consider"; Many Dot; Lit "table"] ];
           Many Space; ident ];
    seqs [ alts (Lit "missing") [Lit "add"; Lit "create"; Lit "suggest"];
           Many Dot; Lit "table"; Plus Space; ident ];
    seqs [ alts (Lit "you should") [Lit "I recommend"; Lit "consider adding"];
           Many Dot; Lit "table"; Plus Space; ident ] ].

(** The pattern whose match is cut off the front of a table match. *)
Definition tablePrefix : regex :=
  seqs [ alts (Lit "CREATE TABLE")
              [ Lit "Add table"; Lit "Table:";
                seqs [Lit "suggest"; Many Dot; Lit "table"];
                seqs [Lit "recommend"; Many Dot; Lit "table"];
                seqs [Lit "consider"; Many Dot; Lit "table"];
                Lit "missing"; Lit "add"; Lit "create"; Lit "suggest";
                Lit "you should"; Lit "I recommend"; Lit "consider adding" ];
         Many Dot; Lit "table"; Many Space ].

Definition relPatterns : list regex :=
  [ seqs [ alts (Lit "relationship")
                [Lit "foreign key"; Lit "FK"; Lit "connection"; Lit "link"];
           Many Space; longIdent; Many Space; linkWord; Many Space; longIdent ];
    seqs [ alts (Lit "suggest") [Lit "recommend"; Lit "consider"];
           Many Dot; Lit "relationship"; Many Dot;
           longIdent; Many Space; linkWord; Many Space; longIdent ];
    seqs [ alts (Lit "you should") [Lit "I recommend"; Lit "consider adding"];
           Many Dot; Lit "relationship"; Many Dot;
           longIdent; Many Space; linkWord; Many Space; longIdent ] ].

(** [/\s*(?:to|->|references|with)\s*/i] *)
Definition relSeparator : regex := seqs [Many Space; linkWord; Many Space].

Definition relPrefix : regex :=
  seqs [ alts (Lit "relationship")
              [ Lit "foreign key"; Lit "FK"; Lit "connection"; Lit "link";
                Lit "suggest"; Lit "recommend"; Lit "consider";
                Lit "you should"; Lit "I recommend"; Lit "consider adding" ];
         Many Dot; Lit "relationship"; Many Space ].

Definition excludeWords : list string :=
  [ "the"; "and"; "or"; "but"; "for"; "nor"; "yet"; "so"; "a"; "an"; "in"; "on";
    "at"; "to"; "for"; "of"; "with"; "by"; "linked"; "connected"; "related" ].

(** [(?:add|create|insert|include)] *)
Definition noteVerb : regex := alts (Lit "add") [Lit "create"; Lit "insert"; Lit "include"].

(** [(?:about|for|regarding)] *)
Definition noteAbout : regex := alts (Lit "about") [Lit "for"; Lit "regarding"].

Definition notePatterns : list regex :=
  [ seqs [ noteVerb; Many Dot; Lit "note"; Many Dot;
           alts (Lit "about") [Lit "for"; Lit "regarding"; Lit "documenting"];
           Many Space; Plus Dot ];
    seqs [ noteVerb; Many Dot; Lit "document"; Many Dot; noteAbout; Many Space; Plus Dot ];
    seqs [ noteVerb; Many Dot; Lit "spec"; Many Dot; noteAbout; Many Space; Plus Dot ];
    seqs [ noteVerb; Many Dot; Lit "specification"; Many Dot; noteAbout; Many Space;
           Plus Dot ] ].

Definition notePrefix : regex :=
  seqs [ noteVerb; Many Dot;
         alts (Lit "note") [Lit "document"; Lit "spec"; Lit "specification"];
         Many Dot; noteAbout; Many Space ].

(** ** The objects the heuristics build *)

Definition defaultFields : JsValue :=
  JArr [ JObj [("name", JStr "id"); ("type", JStr "INTEGER"); ("primaryKey", JBool true)];
         JObj [("name", JStr "created_at"); ("type", JStr "TIMESTAMP")];
         JObj [("name", JStr "updated_at"); ("type", JStr "TIMESTAMP")] ].

Definition tableObject (name comment : string) : JsValue :=
  JObj [("name", JStr name); ("fields", defaultFields); ("comment", JStr comment)].

Definition relObject (fromTable toTable fromField : string) : JsValue :=
  JObj [ ("fromTable", JStr fromTable); ("toTable", JStr toTable);
         ("fromField", JStr fromField); ("toField", JStr "id");
         ("cardinality", JStr "one_to_many"); ("constraint", JStr "No action") ].

Definition noteObject (content : string) : JsValue :=
  JObj [ ("content", JStr content);
         ("position", JObj [("x", JNum 100); ("y", JNum 100)]) ].

(** ** The stages of [parseAIResponse] *)

Fixpoint mapResult {A B : Type} (f : A -> Result B) (l : list A) : Result (list B) :=
  match l with
  | [] => Ok []
  | a :: l' =>
      match f a with
      | Throw e => Throw e
      | Ok b =>
          match mapResult f l' with
          | Throw e => Throw e
          | Ok bs => Ok (b :: bs)
          end
      end
  end.

(** [arr.filter(x => x !== null)] where [None] stands for [null]. *)
Fixpoint dropNull {A : Type} (l : list (option A)) : list A :=
  match l with
  | [] => []
  | Some a :: l' => a :: dropNull l'
  | None :: l' => dropNull l'
  end.

Section Parser.

Context {host : Host}.

(** [if (parsed.key && Array.isArray(parsed.key))] *)
Definition isListed (v : JsValue) : bool := truthy v && isArray v.

(** [match.replace(/```json\n/, '').replace(/\n```/, '')] *)
Definition jsonContent (block : string) : string :=
  replace false fenceClose (replace false jsonOpen block "") "".

(** The body of the [try] for one fenced JSON block: the suggestions as
    they stand when the block is done, and the exception caught, if any. *)
Definition mergeJsonBlock (block : string) (s : Suggestions)
  : Suggestions * option JsError :=
  match JSON_parse (jsonContent block) with
  | None => (s, Some SyntaxError)
  | Some parsed =>
      match getProp parsed "tables" with
      | Throw e => (s, Some e)
      | Ok t =>
          let s1 := if isListed t then push_tables (elements t) s else s in
          match getProp parsed "relationships" with
          | Throw e => (s1, Some e)
          | Ok r =>
              let s2 := if isListed r then push_relationships (elements r) s1 else s1 in
              match getProp parsed "notes" with
              | Throw e => (s2, Some e)
              | Ok n => (if isListed n then push_notes (elements n) s2 else s2, None)
              end
          end
      end
  end.

Fixpoint mergeJsonBlocks (blocks : list string) (s : Suggestions) (log : list JsError)
  : Suggestions * list JsError :=
  match blocks with
  | [] => (s, log)
  | b :: bs =>
      let (s', caught) := mergeJsonBlock b s in
      mergeJsonBlocks bs s' (match caught with Some e => log ++ [e] | None => log end)
  end.

(** Fenced JSON blocks. *)
Definition jsonStage (response : string) (s : Suggestions) : Suggestions * list JsError :=
  mergeJsonBlocks (match_all false jsonFence response) s [].

(** Fenced SQL blocks. *)
Definition sqlStage (response : string) (s : Suggestions) : Suggestions :=
  match match_all false sqlFence response with
  | [] => s
  | sqlMatches =>
      set_sqlQueries
        (map (fun m => replace false fenceClose (replace false sqlOpen m "") "") sqlMatches) s
  end.

Definition basicTable (m : string) : JsValue :=
  let tableName := Js.trim (replace true tablePrefix m "") in
  tableObject tableName ("AI-suggested table: " ^^ tableName).

(** Table-name heuristics. *)
Definition tableStage (response : string) (s : Suggestions) : Suggestions :=
  fold_left
    (fun s pattern => push_tables (map basicTable (match_all true pattern response)) s)
    tablePatterns s.

(** The callback mapped over the matches of a relationship pattern;
    [Ok None] is its [return null]. *)
Definition basicRel (m : string) : Result (option JsValue) :=
  let parts := split true relSeparator m in
  match nth_error parts 0 with
  | None => Throw TypeError
  | Some part0 =>
      let fromTable := Js.trim (replace true relPrefix part0 "") in
      let toTable := option_map Js.trim (nth_error parts 1) in
      if Js.arr_includes excludeWords (Js.toLowerCase fromTable) then Ok None
      else
        match toTable with
        | None => Throw TypeError
        | Some toTable =>
            if Js.arr_includes excludeWords (Js.toLowerCase toTable) then Ok None
            else if (Js.strlen fromTable <? 2)%nat || (Js.strlen toTable <? 2)%nat
                    || negb (test false Letter fromTable)
                    || negb (test false Letter toTable)
            then Ok None
            else Ok (Some (relObject fromTable toTable (Js.toLowerCase fromTable ^^ "_id")))
        end
  end.

Fixpoint relPatternsLoop (patterns : list regex) (response : string) (s : Suggestions)
  : Result Suggestions :=
  match patterns with
  | [] => Ok s
  | pattern :: rest =>
      match mapResult basicRel (match_all true pattern response) with
      | Throw e => Throw e
      | Ok rels => relPatternsLoop rest response (push_relationships (dropNull rels) s)
      end
  end.

(** Relationship-name heuristics. *)
Definition relStage (response : string) (s : Suggestions) : Result Suggestions :=
  relPatternsLoop relPatterns response s.

Definition noteSuggestion (m : string) : JsValue :=
  noteObject (Js.trim (replace true notePrefix m "")).

(** Note heuristics. *)
Definition noteStage (response : string) (s : Suggestions) : Suggestions :=
  fold_left
    (fun s pattern => push_notes (map noteSuggestion (match_all true pattern response)) s)
    notePatterns s.

(** ** [extractGeneralSuggestions] *)

Record GeneralSuggestions : Type := {
  g_tables : list JsValue;
  g_relationships : list JsValue;
  g_notes : list JsValue
}.

Definition commonTableNames : list string :=
  [ "users"; "user"; "customers"; "customer"; "orders"; "order"; "products"; "product";
    "categories"; "category"; "posts"; "post"; "comments"; "comment"; "tags"; "tag";
    "sessions"; "session"; "logs"; "log"; "audit"; "audits"; "settings"; "setting";
    "profiles"; "profile"; "addresses"; "address"; "payments"; "payment";
    "inventory"; "stock"; "suppliers"; "supplier"; "employees"; "employee" ].

Definition relationshipKeywords : list string :=
  [ "belongs to"; "has many"; "has one"; "many to many"; "one to many"; "one to one";
    "foreign key"; "reference"; "relates to"; "connected to"; "linked to" ].

Definition noteKeywords : list string :=
  [ "spec"; "specification"; "document"; "documentation"; "note"; "notes";
    "comment"; "comments"; "description"; "explanation"; "details" ].

(** [new RegExp(`\\b${tableName}\\b`, 'gi')] *)
Definition wholeWord (tableName : string) : regex := seqs [WordB; Lit tableName; WordB].

(** [t.name === tableName] for [t] one of the objects pushed below. *)
Definition hasName (tableName : string) (t : JsValue) : bool :=
  match getProp t "name" with
  | Ok v => strict_eq v (JStr tableName)
  | Throw _ => false
  end.

Definition generalTables (response : string) : list JsValue :=
  fold_left
    (fun acc tableName =>
       if test true (wholeWord tableName) response then
         if existsb (hasName tableName) acc then acc
         else acc ++ [tableObject tableName
                        ("AI-suggested table based on analysis: " ^^ tableName)]
       else acc)
    commonTableNames [].

Definition generalRelationships (response : string) : list JsValue :=
  fold_left
    (fun acc keyword =>
       if Js.includes (Js.toLowerCase response) keyword then
         match Js.indexOf (Js.toLowerCase response) keyword with
         | None => acc
         | Some keywordIndex =>
             let beforeContext :=
               Js.substring response (keywordIndex - 100) keywordIndex in
             let afterContext :=
               Js.substring response keywordIndex
                            (Nat.min (Js.strlen response) (keywordIndex + 100)) in
             fold_left
               (fun acc tableName =>
                  if Js.includes (Js.toLowerCase beforeContext) tableName
                     || Js.includes (Js.toLowerCase afterContext) tableName
                  then acc ++ [relObject "table1" tableName "table1_id"]
                  else acc)
               commonTableNames acc
         end
       else acc)
    relationshipKeywords [].

Definition generalNotes (response : string) : list JsValue :=
  fold_left
    (fun acc keyword =>
       if Js.includes (Js.toLowerCase response) keyword then
         match Js.indexOf (Js.toLowerCase response) keyword with
         | None => acc
         | Some keywordIndex =>
             let beforeContext :=
               Js.substring response (keywordIndex - 50) keywordIndex in
             let afterContext :=
               Js.substring response keywordIndex
                            (Nat.min (Js.strlen response) (keywordIndex + 100)) in
             let noteContent :=
               Js.trim ("Documentation: " ^^ Js.trim beforeContext ^^ " "
                          ^^ Js.trim afterContext) in
             if (20 <? Js.strlen noteContent)%nat then acc ++ [noteObject noteContent]
             else acc
         end
       else acc)
    noteKeywords [].

Definition extractGeneralSuggestions (response : string) : GeneralSuggestions :=
  {| g_tables := generalTables response;
     g_relationships := generalRelationships response;
     g_notes := generalNotes response |}.

(** ** [parseAIResponse] *)

(** The test that guards the call of [extractGeneralSuggestions]. *)
Definition nothingFound (s : Suggestions) : bool :=
  (List.length (tables s) =? 0)%nat
  && (List.length (relationships s) =? 0)%nat
  && (List.length (notes s) =? 0)%nat.

Definition withGeneral (response : string) (s : Suggestions) : Suggestions :=
  if nothingFound s then
    let generalSuggestions := extractGeneralSuggestions response in
    push_relationships (g_relationships generalSuggestions)
                       (push_tables (g_tables generalSuggestions) s)
  else s.

(** The suggestions as they stand before the test for the fallback. *)
Definition beforeFallback (response : string) : Result Suggestions :=
  let s1 := fst (jsonStage response noSuggestions) in
  match relStage response (tableStage response (sqlStage response s1)) with
  | Throw e => Throw e
  | Ok s4 => Ok (noteStage response s4)
  end.

Definition parseAIResponse (response : string) : Run Suggestions :=
  {| console := snd (jsonStage response noSuggestions);
     result :=
       match beforeFallback response with
       | Throw e => Throw e
       | Ok s5 => Ok (withGeneral response s5)
       end |}.

End Parser.

(** The host of the worked scenarios: the reading of [JSON.parse] above
    and identifiers [id0], [id1], ... *)
Definition decimal (n : nat) : string := NilEmpty.string_of_uint (Nat.to_uint n).

Definition scenarioHost : Host :=
  {| JSON_parse := Json.parse; nanoid := fun n => "id" ^^ decimal n |}.

(* ================================================================== *)
(** * The diagram and its store *)
(* ================================================================== *)

(** A field and a table as the chat panel builds them.  A property that
    an object does not have reads as [JUndefined]. *)
Record Field : Type := {
  f_id : string;
  f_name : JsValue;
  f_type : JsValue;
  f_default : JsValue;
  f_check : string;
  f_primary : JsValue;
  f_unique : JsValue;
  f_notNull : JsValue;
  f_increment : JsValue;
  f_comment : JsValue
}.

Record Table : Type := {
  t_id : string;
  t_name : JsValue;
  t_x : Z;
  t_y : Z;
  t_locked : bool;
  t_fields : list Field;
  t_comment : JsValue;
  t_indices : list JsValue;
  t_color : string;
  t_position : JsValue
}.

Record Relationship : Type := {
  r_id : string;
  r_name : JsValue;
  r_startTableId : string;
  r_endTableId : string;
  r_startFieldId : string;
  r_endFieldId : string;
  r_cardinality : JsValue;
  r_constraint : JsValue;
  r_color : string
}.

Record Note : Type := {
  n_id : string;
  n_content : JsValue;
  n_x : JsValue;
  n_y : JsValue;
  n_width : Z;
  n_height : Z;
  n_color : string;
  n_position : JsValue
}.

Record Area : Type := {
  a_name : JsValue;
  a_color : JsValue;
  a_position : JsValue
}.

Inductive Action : Type := ADD | EDIT.
Inductive ObjectType : Type := TABLE | RELATIONSHIP | NOTE.

Record HistoryEntry : Type := {
  h_action : Action;
  h_element : ObjectType
}.

(** The lines the panel collects in [errors]: a template literal is kept
    as its template and the values it interpolates. *)
Inductive ErrorLine : Type :=
| FailedToAddTable (name : JsValue) (error : JsError)
| TablesNotFound (fromTable toTable : JsValue)
| FieldsNotFound (fromTable toTable : JsValue)
| FailedToAddRelationship (fromTable toTable : JsValue) (error : JsError)
| FailedToAddNote (error : JsError).

(** The messages the panel posts with [addMessage] (all of role "ai"). *)
Inductive PanelMessage : Type :=
| Applied (count : nat)
| NotApplied (errors : list ErrorLine)
| GeneralAdviceHint
| NothingActionable.

(** What the hooks of the panel hold. *)
Record Store : Type := {
  s_tables : list Table;
  s_relationships : list Relationship;
  s_notes : list Note;
  undoStack : list HistoryEntry;
  redoStack : list HistoryEntry;
  messages : list PanelMessage;
  errorState : option string
}.

(** A forward operation the store records itself: one undo entry, and the
    redo stack is cleared. *)
Definition recordChange (element : ObjectType) (d : Store) : Store :=
  {| s_tables := s_tables d; s_relationships := s_relationships d; s_notes := s_notes d;
     undoStack := undoStack d ++ [{| h_action := ADD; h_element := element |}];
     redoStack := [];
     messages := messages d; errorState := errorState d |}.

(** Modelled from the spec: the diagram store's [addTable(table,
    skipHistory?)], which is not among the sources.  A call is one logical
    diagram change, the table joins the diagram; with [skipHistory] set the
    store records no history for it. *)
Definition addTable (table : Table) (skipHistory : bool) (d : Store) : Store :=
  let d' :=
    {| s_tables := s_tables d ++ [table]; s_relationships := s_relationships d;
       s_notes := s_notes d; undoStack := undoStack d; redoStack := redoStack d;
       messages := messages d; errorState := errorState d |} in
  if skipHistory then d' else recordChange TABLE d'.

(** Modelled from the spec: the diagram store's
    [addRelationship(relationship, skipHistory?)], which is not among the
    sources; as [addTable]. *)
Definition addRelationship (rel : Relationship) (skipHistory : bool) (d : Store) : Store :=
  let d' :=
    {| s_tables := s_tables d; s_relationships := s_relationships d ++ [rel];
       s_notes := s_notes d; undoStack := undoStack d; redoStack := redoStack d;
       messages := messages d; errorState := errorState d |} in
  if skipHistory then d' else recordChange RELATIONSHIP d'.

(** Modelled from the spec: the note store's [addNote(note, skipHistory?)],
    which is not among the sources; as [addTable]. *)
Definition addNote (note : Note) (skipHistory : bool) (d : Store) : Store :=
  let d' :=
    {| s_tables := s_tables d; s_relationships := s_relationships d;
       s_notes := s_notes d ++ [note]; undoStack := undoStack d; redoStack := redoStack d;
       messages := messages d; errorState := errorState d |} in
  if skipHistory then d' else recordChange NOTE d'.

(** [addMessage] of [src/context/AIContext.jsx], without the identifier
    and the timestamp it stamps on the message. *)
Definition addMessage (m : PanelMessage) (d : Store) : Store :=
  {| s_tables := s_tables d; s_relationships := s_relationships d; s_notes := s_notes d;
     undoStack := undoStack d; redoStack := redoStack d;
     messages := messages d ++ [m]; errorState := errorState d |}.

Definition setErrorState (e : string) (d : Store) : Store :=
  {| s_tables := s_tables d; s_relationships := s_relationships d; s_notes := s_notes d;
     undoStack := undoStack d; redoStack := redoStack d;
     messages := messages d; errorState := Some e |}.

(* ================================================================== *)
(** * The context builder ([buildDiagramContext]) *)
(* ================================================================== *)

Record DiagramState : Type := {
  ds_tables : list Table;
  ds_relationships : list Relationship;
  ds_database : JsValue;
  ds_areas : list Area;
  ds_notes : list Note;
  ds_types : JsValue;
  ds_enums : JsValue
}.

Record ContextField : Type := {
  cf_name : JsValue;
  cf_type : JsValue;
  cf_primaryKey : JsValue;
  cf_notNull : JsValue;
  cf_unique : JsValue;
  cf_increment : JsValue;
  cf_comment : JsValue;
  cf_default : JsValue
}.

Record ContextTable : Type := {
  ct_name : JsValue;
  ct_fields : list ContextField;
  ct_comment : JsValue;
  ct_position : JsValue
}.

Record ContextRelationship : Type := {
  cr_fromTable : JsValue;
  cr_toTable : JsValue;
  cr_fromField : string;
  cr_toField : string;
  cr_cardinality : JsValue;
  cr_constraint : JsValue;
  cr_name : JsValue
}.

Record ContextNote : Type := {
  cn_content : JsValue;
  cn_position : JsValue
}.

Record DiagramContext : Type := {
  dc_database : JsValue;
  dc_tables : list ContextTable;
  dc_relationships : list ContextRelationship;
  dc_areas : list Area;
  dc_notes : list ContextNote;
  dc_types : JsValue;
  dc_enums : JsValue
}.

Definition contextField (field : Field) : ContextField :=
  {| cf_name := f_name field;
     cf_type := f_type field;
     cf_primaryKey := js_or (f_primary field) (JBool false);
     cf_notNull := js_or (f_notNull field) (JBool false);
     cf_unique := js_or (f_unique field) (JBool false);
     cf_increment := js_or (f_increment field) (JBool false);
     cf_comment := js_or (f_comment field) (JStr "");
     cf_default := js_or (f_default field) (JStr "") |}.

(** [table.fields] is an array here, hence truthy: [table.fields || []] is
    the array itself. *)
Definition contextTable (table : Table) : ContextTable :=
  {| ct_name := t_name table;
     ct_fields := map contextField (t_fields table);
     ct_comment := js_or (t_comment table) (JStr "");
     ct_position := t_position table |}.

(** [tables.find(t => t.id === id)?.name || 'unknown'] *)
Definition tableNameOf (tables : list Table) (id : string) : JsValue :=
  match find (fun t => String.eqb (t_id t) id) tables with
  | Some t => js_or (t_name t) (JStr "unknown")
  | None => JStr "unknown"
  end.

Definition contextRelationship (tables : list Table) (rel : Relationship)
  : ContextRelationship :=
  {| cr_fromTable := tableNameOf tables (r_startTableId rel);
     cr_toTable := tableNameOf tables (r_endTableId rel);
     cr_fromField := r_startFieldId rel;
     cr_toField := r_endFieldId rel;
     cr_cardinality := r_cardinality rel;
     cr_constraint := js_or (r_constraint rel) (JStr "No action");
     cr_name := js_or (r_name rel) (JStr ("rel_" ^^ r_id rel)) |}.

Definition buildDiagramContext (diagramState : DiagramState) : DiagramContext :=
  {| dc_database := ds_database diagramState;
     dc_tables := map contextTable (ds_tables diagramState);
     dc_relationships :=
       map (contextRelationship (ds_tables diagramState)) (ds_relationships diagramState);
     dc_areas :=
       map (fun area => {| a_name := a_name area; a_color := a_color area;
                           a_position := a_position area |})
           (ds_areas diagramState);
     dc_notes :=
       map (fun note => {| cn_content := n_content note; cn_position := n_position note |})
           (ds_notes diagramState);
     dc_types := js_or (ds_types diagramState) (JArr []);
     dc_enums := js_or (ds_enums diagramState) (JArr []) |}.

(** The reading of "field references resolved to human-readable names"
    that the specification gives for the context: the name of the field
    with that identifier in the table with that identifier, ["unknown"]
    when there is none. *)
Definition spec_fieldNameOf (tables : list Table) (tableId fieldId : string) : JsValue :=
  match find (fun t => String.eqb (t_id t) tableId) tables with
  | Some t =>
      match find (fun f => String.eqb (f_id f) fieldId) (t_fields t) with
      | Some f => js_or (f_name f) (JStr "unknown")
      | None => JStr "unknown"
      end
  | None => JStr "unknown"
  end.

(* ================================================================== *)
(** * The suggestion applier of the chat panel ([handleApplySuggestion]) *)
(* ================================================================== *)

(** The variables of one run of the handler, with the store it acts on
    and the number of identifiers [nanoid] has handed out. *)
Record Panel : Type := {
  store : Store;
  nextId : nat;
  appliedCount : nat;
  errors : list ErrorLine;
  addedTables : list Table
}.

(** A statement either completes or throws; what it did to the variables
    and the store before it threw stays done. *)
Inductive Outcome (A : Type) : Type :=
| Done (a : A) (p : Panel)
| Raised (e : JsError) (p : Panel).
Arguments Done {A} a p.
Arguments Raised {A} e p.

Definition M (A : Type) : Type := Panel -> Outcome A.

Definition ret {A : Type} (a : A) : M A := fun p => Done a p.

Definition bind {A B : Type} (m : M A) (k : A -> M B) : M B :=
  fun p => match m p with
           | Done a p' => k a p'
           | Raised e p' => Raised e p'
           end.

Notation "x <- m ;; k" := (bind m (fun x => k))
  (at level 61, m at next level, right associativity).
Notation "m ;;; k" := (bind m (fun _ => k))
  (at level 61, right associativity).

Definition lift {A : Type} (r : Result A) : M A :=
  fun p => match r with Ok a => Done a p | Throw e => Raised e p end.

(** [try { m } catch (error) { handler error }] *)
Definition tryCatch {A : Type} (m : M A) (handler : JsError -> M A) : M A :=
  fun p => match m p with
           | Done a p' => Done a p'
           | Raised e p' => handler e p'
           end.

Definition gets {A : Type} (f : Panel -> A) : M A := fun p => Done (f p) p.

Definition onStore (f : Store -> Store) : M unit :=
  fun p => Done tt {| store := f (store p); nextId := nextId p;
                      appliedCount := appliedCount p; errors := errors p;
                      addedTables := addedTables p |}.

(** [errors.push(line)] *)
Definition pushError (line : ErrorLine) : M unit :=
  fun p => Done tt {| store := store p; nextId := nextId p;
                      appliedCount := appliedCount p; errors := errors p ++ [line];
                      addedTables := addedTables p |}.

(** [addedTables.push(table)] *)
Definition pushAdded (table : Table) : M unit :=
  fun p => Done tt {| store := store p; nextId := nextId p;
                      appliedCount := appliedCount p; errors := errors p;
                      addedTables := addedTables p ++ [table] |}.

(** [appliedCount++] *)
Definition countApplied : M unit :=
  fun p => Done tt {| store := store p; nextId := nextId p;
                      appliedCount := S (appliedCount p); errors := errors p;
                      addedTables := addedTables p |}.

(** [for (const x of l) { body x }] *)
Fixpoint forEach {A : Type} (body : A -> M unit) (l : list A) : M unit :=
  match l with
  | [] => ret tt
  | a :: l' => body a ;;; forEach body l'
  end.

(** [l.map(f)] for a callback that may throw. *)
Fixpoint mapM {A B : Type} (f : A -> M B) (l : list A) : M (list B) :=
  match l with
  | [] => ret []
  | a :: l' => b <- f a ;; bs <- mapM f l' ;; ret (b :: bs)
  end.

(** [l.find(test)] for a callback that may throw. *)
Fixpoint findM {A : Type} (test : A -> M bool) (l : list A) : M (option A) :=
  match l with
  | [] => ret None
  | a :: l' => b <- test a ;; if b then ret (Some a) else findM test l'
  end.

(** [v.map(...)]: only an array has the method. *)
Definition asArray (v : JsValue) : Result (list JsValue) :=
  match v with
  | JArr l => Ok l
  | _ => Throw TypeError
  end.

(** [v.substring(...)]: only a string has the method. *)
Definition asString (v : JsValue) : Result string :=
  match v with
  | JStr s => Ok s
  | _ => Throw TypeError
  end.

(** [v?.key] *)
Definition getOptional (v : JsValue) (key : string) : Result JsValue :=
  match v with
  | JUndefined | JNull => Ok JUndefined
  | _ => getProp v key
  end.

(** [a || b || c] over fields found or not: a field object is truthy. *)
Definition orElse {A : Type} (a b : option A) : option A :=
  match a with Some _ => a | None => b end.

Section Applier.

Context {host : Host}.

(** [nanoid()] *)
Definition freshId : M string :=
  fun p => Done (nanoid (nextId p))
                {| store := store p; nextId := S (nextId p);
                   appliedCount := appliedCount p; errors := errors p;
                   addedTables := addedTables p |}.

(** The callback of [tableData.fields.map]. *)
Definition newField (field : JsValue) : M Field :=
  id <- freshId ;;
  name <- lift (getProp field "name") ;;
  type <- lift (getProp field "type") ;;
  defaultValue <- lift (getProp field "defaultValue") ;;
  primaryKey <- lift (getProp field "primaryKey") ;;
  unique <- lift (getProp field "unique") ;;
  notNull <- lift (getProp field "notNull") ;;
  increment <- lift (getProp field "increment") ;;
  comment <- lift (getProp field "comment") ;;
  ret {| f_id := id; f_name := name; f_type := type;
         f_default := js_or defaultValue (JStr "");
         f_check := "";
         f_primary := js_or primaryKey (JBool false);
         f_unique := js_or unique (JBool false);
         f_notNull := js_or notNull (JBool false);
         f_increment := js_or increment (JBool false);
         f_comment := js_or comment (JStr "") |}.

(** [t => t.name === tableData.name] and its like. *)
Definition namedBy {A : Type} (name : A -> JsValue) (data : JsValue) (key : string)
  : A -> M bool :=
  fun t => v <- lift (getProp data key) ;; ret (strict_eq (name t) v).

(** The body of the [try] for one table suggestion; [tables] is the
    array the panel was rendered with. *)
Definition addSuggestedTable (tables : list Table) (tableData : JsValue) : M unit :=
  existingTable <- findM (namedBy t_name tableData "name") tables ;;
  match existingTable with
  | Some _ => ret tt
  | None =>
      tableId <- freshId ;;
      name <- lift (getProp tableData "name") ;;
      count <- gets appliedCount ;;
      fieldsValue <- lift (getProp tableData "fields") ;;
      fieldList <- lift (asArray fieldsValue) ;;
      fields <- mapM newField fieldList ;;
      comment <- lift (getProp tableData "comment") ;;
      let newTable :=
        {| t_id := tableId; t_name := name;
           t_x := 100 + Z.of_nat count * 300; t_y := 100;
           t_locked := false; t_fields := fields;
           t_comment := js_or comment (JStr "");
           t_indices := []; t_color := "#ffffff";
           t_position := JUndefined |} in
      onStore (addTable newTable true) ;;;
      pushAdded newTable ;;;
      countApplied
  end.

Definition tableItem (tables : list Table) (tableData : JsValue) : M unit :=
  tryCatch (addSuggestedTable tables tableData)
           (fun error =>
              name <- lift (getProp tableData "name") ;;
              pushError (FailedToAddTable name error)).

(** [fields.find(f => f.name === relData.key) || fields.find(f => f.primary)
    || fields[0]] *)
Definition pickField (fields : list Field) (relData : JsValue) (key : string)
  : M (option Field) :=
  byName <- findM (namedBy f_name relData key) fields ;;
  ret (orElse byName
         (orElse (find (fun f => truthy (f_primary f)) fields) (hd_error fields))).

(** The body of the [try] for one relationship suggestion. *)
Definition addSuggestedRelationship (tables : list Table) (relData : JsValue) : M unit :=
  added <- gets addedTables ;;
  let allTables := tables ++ added in
  sourceTable <- findM (namedBy t_name relData "fromTable") allTables ;;
  targetTable <- findM (namedBy t_name relData "toTable") allTables ;;
  match sourceTable, targetTable with
  | Some sourceTable, Some targetTable =>
      sourceField <- pickField (t_fields sourceTable) relData "fromField" ;;
      targetField <- pickField (t_fields targetTable) relData "toField" ;;
      match sourceField, targetField with
      | Some sourceField, Some targetField =>
          relationshipId <- freshId ;;
          cardinality <- lift (getProp relData "cardinality") ;;
          constraint <- lift (getProp relData "constraint") ;;
          let newRelationship :=
            {| r_id := relationshipId;
               r_name := JStr ("rel_" ^^ relationshipId);
               r_startTableId := t_id sourceTable;
               r_endTableId := t_id targetTable;
               r_startFieldId := f_id sourceField;
               r_endFieldId := f_id targetField;
               r_cardinality := js_or cardinality (JStr "one_to_many");
               r_constraint := js_or constraint (JStr "No action");
               r_color := "#000000" |} in
          onStore (addRelationship newRelationship true) ;;;
          countApplied
      | _, _ =>
          fromTable <- lift (getProp relData "fromTable") ;;
          toTable <- lift (getProp relData "toTable") ;;
          pushError (FieldsNotFound fromTable toTable)
      end
  | _, _ =>
      fromTable <- lift (getProp relData "fromTable") ;;
      toTable <- lift (getProp relData "toTable") ;;
      pushError (TablesNotFound fromTable toTable)
  end.

Definition relationshipItem (tables : list Table) (relData : JsValue) : M unit :=
  tryCatch (addSuggestedRelationship tables relData)
           (fun error =>
              fromTable <- lift (getProp relData "fromTable") ;;
              toTable <- lift (getProp relData "toTable") ;;
              pushError (FailedToAddRelationship fromTable toTable error)).

(** [noteData.position?.x || fallback] *)
Definition coordinate (noteData : JsValue) (axis : string) (fallback : Z) : M JsValue :=
  position <- lift (getProp noteData "position") ;;
  v <- lift (getOptional position axis) ;;
  ret (js_or v (JNum fallback)).

(** The body of the [try] for one note suggestion; the text of the
    closing [console.log] is cut with [substring], a method of strings. *)
Definition addSuggestedNote (noteData : JsValue) : M unit :=
  noteId <- freshId ;;
  content <- lift (getProp noteData "content") ;;
  count <- gets appliedCount ;;
  x <- coordinate noteData "x" (100 + Z.of_nat count * 200) ;;
  y <- coordinate noteData "y" (100 + Z.of_nat count * 100) ;;
  let newNote :=
    {| n_id := noteId; n_content := content; n_x := x; n_y := y;
       n_width := 200; n_height := 100; n_color := "#ffffcc";
       n_position := JUndefined |} in
  onStore (addNote newNote true) ;;;
  _ <- lift (asString content) ;;
  countApplied.

Definition noteItem (noteData : JsValue) : M unit :=
  tryCatch (addSuggestedNote noteData)
           (fun error => pushError (FailedToAddNote error)).

Definition hasGeneralAdvice (content : string) : bool :=
  let lower := Js.toLowerCase content in
  Js.includes lower "suggest" || Js.includes lower "recommend"
  || Js.includes lower "consider" || Js.includes lower "improve"
  || Js.includes lower "add" || Js.includes lower "missing"
  || Js.includes lower "note" || Js.includes lower "document"
  || Js.includes lower "spec".

(** "Show results". *)
Definition showResults (content : string) : M unit :=
  count <- gets appliedCount ;;
  errs <- gets errors ;;
  (if (0 <? count)%nat then onStore (addMessage (Applied count)) else ret tt) ;;;
  (if (0 <? List.length errs)%nat then onStore (addMessage (NotApplied errs)) else ret tt) ;;;
  (if (count =? 0)%nat && (List.length errs =? 0)%nat then
     onStore (addMessage (if hasGeneralAdvice content then GeneralAdviceHint
                          else NothingActionable))
   else ret tt).

(** The three loops, in the order of the code; [rendered] is the [tables]
    array of the panel. *)
Definition applyAll (rendered : list Table) (suggestions : Suggestions) : M unit :=
  forEach (tableItem rendered) (tables suggestions) ;;;
  forEach (relationshipItem rendered) (relationships suggestions) ;;;
  forEach noteItem (notes suggestions).

(** The body of the outer [try]. *)
Definition applySuggestions (tables : list Table) (content : string) : M unit :=
  suggestions <- lift (result (parseAIResponse content)) ;;
  applyAll tables suggestions ;;;
  showResults content.

(** The panel as the handler finds it: the store, [idsUsed] identifiers
    handed out so far, and fresh local variables. *)
Definition enter (d : Store) (idsUsed : nat) : Panel :=
  {| store := d; nextId := idsUsed; appliedCount := 0; errors := []; addedTables := [] |}.

(** [handleApplySuggestion(content)], run on the store [d] of a panel
    rendered with the tables of [d]. *)
Definition handleApplySuggestion (content : string) (d : Store) (idsUsed : nat) : Panel :=
  match tryCatch (applySuggestions (s_tables d) content)
                 (fun _ => onStore (setErrorState
                                      "Failed to apply suggestion. Please try again."))
                 (enter d idsUsed) with
  | Done _ p => p
  | Raised _ p => p
  end.

End Applier.

(* ================================================================== *)
(** * [applyTableSuggestion] of [src/utils/aiActions.js]

    The function receives its collaborators as arguments; so does the
    embedding, over any type of state they act on. *)
(* ================================================================== *)

(** The table object [applyTableSuggestion] builds. *)
Record ActionField : Type := {
  af_name : JsValue;
  af_type : JsValue;
  af_primaryKey : JsValue;
  af_notNull : JsValue;
  af_unique : JsValue;
  af_comment : JsValue
}.

Record ActionTable : Type := {
  at_name : JsValue;
  at_fields : list ActionField;
  at_comment : JsValue;
  at_position : JsValue
}.

(** The entry it pushes on the undo stack; [message] is what [t] returned. *)
Record ActionEntry : Type := {
  ae_action : Action;
  ae_element : ObjectType;
  ae_message : string;
  ae_data : ActionTable
}.

Inductive ApplyResult : Type :=
| Success (table : ActionTable)
| Failure (message : JsError).

Section AiActions.

Variable State : Type.

(** The callbacks of the second argument. *)
Variable addTableCb : ActionTable -> State -> State.
Variable setUndoStack : (list ActionEntry -> list ActionEntry) -> State -> State.
Variable setRedoStack : list ActionEntry -> State -> State.
Variable t : string -> JsValue -> string.

Definition actionField (field : JsValue) : Result ActionField :=
  match getProp field "name" with
  | Throw e => Throw e
  | Ok name =>
      match getProp field "type", getProp field "primaryKey", getProp field "notNull",
            getProp field "unique", getProp field "comment" with
      | Ok type, Ok primaryKey, Ok notNull, Ok unique, Ok comment =>
          Ok {| af_name := name; af_type := type;
                af_primaryKey := js_or primaryKey (JBool false);
                af_notNull := js_or notNull (JBool false);
                af_unique := js_or unique (JBool false);
                af_comment := js_or comment (JStr "") |}
      | _, _, _, _, _ => Throw TypeError
      end
  end.

(** The table object of the [try], or the exception thrown on the way. *)
Definition actionTable (tableData : JsValue) : Result ActionTable :=
  match getProp tableData "name", getProp tableData "fields" with
  | Ok name, Ok fields =>
      if negb (truthy name) || negb (truthy fields) || negb (isArray fields)
      then Throw (Error "Invalid table data provided")
      else
        match mapResult actionField (elements fields),
              getProp tableData "comment", getProp tableData "position" with
        | Ok fs, Ok comment, Ok position =>
            Ok {| at_name := name; at_fields := fs;
                  at_comment := js_or comment (JStr "");
                  at_position :=
                    js_or position (JObj [("x", JNum 100); ("y", JNum 100)]) |}
        | Throw e, _, _ => Throw e
        | _, _, _ => Throw TypeError
        end
  | _, _ => Throw TypeError
  end.

Definition applyTableSuggestion (tableData : JsValue) (st : State) : ApplyResult * State :=
  match actionTable tableData with
  | Throw e => (Failure e, st)
  | Ok newTable =>
      let st1 := addTableCb newTable st in
      let st2 :=
        setUndoStack
          (fun prev =>
             prev ++ [{| ae_action := ADD; ae_element := TABLE;
                         ae_message := t "ai_applied_table_suggestion" (at_name newTable);
                         ae_data := newTable |}])
          st1 in
      (Success newTable, setRedoStack [] st2)
  end.

End AiActions.

(* ================================================================== *)
(** * What a pattern matches, stated without the matcher *)
(* ================================================================== *)

(** Patterns without [\b]: whether they match a text does not depend on
    what surrounds it. *)
Fixpoint boundary_free (r : regex) : bool :=
  match r with
  | Eps | Chr _ | Cls _ _ => true
  | Seq r1 r2 | Alt r1 r2 => boundary_free r1 && boundary_free r2
  | Star _ r1 => boundary_free r1
  | WordB => false
  end.

(** [Lang ic r u]: the text [u] is one the pattern [r] can match, with
    ([ic]) or without the [i] flag. *)
Inductive Lang (ic : bool) : regex -> list ascii -> Prop :=
| Lang_Eps : Lang ic Eps []
| Lang_Chr : forall a x, chr_match ic a x = true -> Lang ic (Chr a) [x]
| Lang_Cls : forall neg rs x, cls_match ic neg rs x = true -> Lang ic (Cls neg rs) [x]
| Lang_Seq : forall r1 r2 u v,
    Lang ic r1 u -> Lang ic r2 v -> Lang ic (Seq r1 r2) (u ++ v)
| Lang_AltL : forall r1 r2 u, Lang ic r1 u -> Lang ic (Alt r1 r2) u
| Lang_AltR : forall r1 r2 u, Lang ic r2 u -> Lang ic (Alt r1 r2) u
| Lang_StarNil : forall g r, Lang ic (Star g r) []
| Lang_StarCons : forall g r u v,
    Lang ic r u -> Lang ic (Star g r) v -> Lang ic (Star g r) (u ++ v).

(** The cursor reached from [c] by passing over [u]. *)
Definition advance (c : cursor) (u rest : list ascii) : cursor :=
  Cursor (rev u ++ before c) rest.

(** A text holds a link word ([to], [->], [references], [with]) between
    two other pieces. *)
Definition has_link_word (u : list ascii) : Prop :=
  exists a w b, u = a ++ w ++ b /\ Lang true linkWord w.

(** A pattern without [\b] all of whose matches hold a link word. *)
Definition links (pattern : regex) : Prop :=
  boundary_free pattern = true /\ forall u, Lang true pattern u -> has_link_word u.

(* ================================================================== *)
(** * Notions and inputs the claims are stated with *)
(* ================================================================== *)

(** What a parsed block contributes in the words of the specification:
    its [tables], [relationships] and [notes] arrays, "if present and
    array-typed". *)
Definition spec_listed (parsed : JsValue) (key : string) : list JsValue :=
  match getProp parsed key with
  | Ok (JArr l) => l
  | _ => []
  end.

Definition spec_contribution (parsed : JsValue) : Suggestions :=
  {| tables := spec_listed parsed "tables";
     relationships := spec_listed parsed "relationships";
     notes := spec_listed parsed "notes";
     optimizations := []; sqlQueries := []; general := [] |}.

(** [null] and [undefined]. *)
Definition nullish (v : JsValue) : bool :=
  match v with JUndefined | JNull => true | _ => false end.

(** The stages after the fenced JSON blocks and before the fallback. *)
Definition laterStages (response : string) (s : Suggestions) : Result Suggestions :=
  match relStage response (tableStage response (sqlStage response s)) with
  | Throw e => Throw e
  | Ok s4 => Ok (noteStage response s4)
  end.

(** Stages 3 to 5 (table, relationship and note heuristics) on their own. *)
Definition heuristicStages (response : string) : Result Suggestions :=
  match relStage response (tableStage response noSuggestions) with
  | Throw e => Throw e
  | Ok s => Ok (noteStage response s)
  end.

(** The trigger of the fallback in the words of the specification:
    stages 3 to 5 together produced nothing. *)
Definition spec_fallbackTrigger (response : string) : bool :=
  match heuristicStages response with
  | Ok s => nothingFound s
  | Throw _ => false
  end.

(** Whether a run of [parseAIResponse] calls [extractGeneralSuggestions]. *)
Definition fallbackRuns {host : Host} (response : string) : bool :=
  match beforeFallback response with
  | Ok s => nothingFound s
  | Throw _ => false
  end.


(** A JSON text written with an apostrophe for each double quote. *)
Definition dq (s : string) : string :=
  Js.str (map (fun c => if Ascii.eqb c "'"%char then "034"%char else c) (Js.chars s)).

(** A fenced JSON block. *)
Definition fenced (body : string) : string := "```json" ^^ nl ^^ body ^^ nl ^^ "```".

Definition emptyStore : Store :=
  {| s_tables := []; s_relationships := []; s_notes := [];
     undoStack := []; redoStack := []; messages := []; errorState := None |}.

(** The orders scenario. *)
Definition ordersText : string := "I recommend adding table orders".

Definition ordersSuggestion : JsValue :=
  tableObject "orders" "AI-suggested table: orders".

(** A malformed block, whose text reads like a request for a table, and a
    well-formed block after it. *)
Definition twoBlocksText : string :=
  fenced "add table users {" ^^ nl ^^ fenced (dq "{'tables':[{'name':'foo'}]}").

(** A block that brings a table, in a text that names one of the entity
    nouns of the fallback. *)
Definition blockAndNounText : string :=
  fenced (dq "{'tables':[{'name':'foo'}]}") ^^ " users".



(** The same panel with one more line in [errors]. *)
Definition withError (line : ErrorLine) (p : Panel) : Panel :=
  {| store := store p; nextId := nextId p; appliedCount := appliedCount p;
     errors := errors p ++ [line]; addedTables := addedTables p |}.

(** The panel a statement leaves, completed or not. *)
Definition panelOf {A : Type} (o : Outcome A) : Panel :=
  match o with Done _ p => p | Raised _ p => p end.

(** The undo and redo stacks of a store. *)
Definition history (d : Store) : list HistoryEntry * list HistoryEntry :=
  (undoStack d, redoStack d).

(** A statement that leaves both stacks as they were. *)
Definition keepsHistory {A : Type} (m : M A) : Prop :=
  forall p, history (store (panelOf (m p))) = history (store p).

(** [value] is what the table reference [id] resolves to among [tables]:
    ["unknown"] when no table has the identifier, else the name of the
    first table that has it, or ["unknown"] when that name is falsy. *)
Definition resolves (tables : list Table) (id : string) (value : JsValue) : Prop :=
  ((forall t, In t tables -> t_id t <> id) -> value = JStr "unknown")
  /\ (forall pre t post,
        tables = pre ++ t :: post -> t_id t = id ->
        (forall t', In t' pre -> t_id t' <> id) ->
        value = js_or (t_name t) (JStr "unknown")).

(** A field and a table with the given identifier and name, the other
    properties as the panel sets them by default. *)
Definition plainField (id name : string) : Field :=
  {| f_id := id; f_name := JStr name; f_type := JStr "INTEGER"; f_default := JStr "";
     f_check := ""; f_primary := JBool false; f_unique := JBool false;
     f_notNull := JBool false; f_increment := JBool false; f_comment := JStr "" |}.

Definition plainTable (id name : string) (fields : list Field) : Table :=
  {| t_id := id; t_name := JStr name; t_x := 100; t_y := 100; t_locked := false;
     t_fields := fields; t_comment := JStr ""; t_indices := []; t_color := "#ffffff";
     t_position := JUndefined |}.

Definition usersTable : Table := plainTable "t1" "users" [plainField "f1" "id"].
Definition postsTable : Table := plainTable "t2" "posts" [plainField "f2" "user_id"].

(** posts.user_id refers to users.id. *)
Definition postsToUsers : Relationship :=
  {| r_id := "r1"; r_name := JStr "posts_users";
     r_startTableId := "t2"; r_endTableId := "t1";
     r_startFieldId := "f2"; r_endFieldId := "f1";
     r_cardinality := JStr "many_to_one"; r_constraint := JStr "Cascade";
     r_color := "#000000" |}.

Definition blogDiagram : DiagramState :=
  {| ds_tables := [usersTable; postsTable];
     ds_relationships := [postsToUsers];
     ds_database := JStr "generic";
     ds_areas := []; ds_notes := [];
     ds_types := JArr []; ds_enums := JArr [] |}.


(* ================================================================== *)
(** * The steps of a run of the handler *)
(* ================================================================== *)

(** The same panel after [nanoid] has handed out identifiers up to [n]. *)
Definition withIds (n : nat) (p : Panel) : Panel :=
  {| store := store p; nextId := n; appliedCount := appliedCount p;
     errors := errors p; addedTables := addedTables p |}.

(** The panel after a table has been added and counted. *)
Definition withTable (t : Table) (p : Panel) : Panel :=
  {| store := addTable t true (store p); nextId := nextId p;
     appliedCount := S (appliedCount p); errors := errors p;
     addedTables := addedTables p ++ [t] |}.

(** The panel after a relationship has been added and counted. *)
Definition withRelationship (r : Relationship) (p : Panel) : Panel :=
  {| store := addRelationship r true (store p); nextId := nextId p;
     appliedCount := S (appliedCount p); errors := errors p;
     addedTables := addedTables p |}.

(** The panel after a note has been added, not yet counted. *)
Definition withNote (n : Note) (p : Panel) : Panel :=
  {| store := addNote n true (store p); nextId := nextId p;
     appliedCount := appliedCount p; errors := errors p;
     addedTables := addedTables p |}.

(** The panel after [appliedCount++]. *)
Definition counted (p : Panel) : Panel :=
  {| store := store p; nextId := nextId p; appliedCount := S (appliedCount p);
     errors := errors p; addedTables := addedTables p |}.

(** The panel after the store has been changed by [f]. *)
Definition withStore (f : Store -> Store) (p : Panel) : Panel :=
  {| store := f (store p); nextId := nextId p; appliedCount := appliedCount p;
     errors := errors p; addedTables := addedTables p |}.

(** The panel after the outer [catch]. *)
Definition aborted (p : Panel) : Panel :=
  withStore (setErrorState "Failed to apply suggestion. Please try again.") p.

(** The table, the relationship and the note of the object literals of
    the handler. *)
Definition builtTable (id : string) (name : JsValue) (count : nat) (fields : list Field)
           (comment : JsValue) : Table :=
  {| t_id := id; t_name := name;
     t_x := 100 + Z.of_nat count * 300; t_y := 100;
     t_locked := false; t_fields := fields;
     t_comment := js_or comment (JStr "");
     t_indices := []; t_color := "#ffffff";
     t_position := JUndefined |}.

(** [fields.find(f => f.name === v) || fields.find(f => f.primary) || fields[0]] *)
Definition chosenField (fields : list Field) (v : JsValue) : option Field :=
  orElse (find (fun f => strict_eq (f_name f) v) fields)
         (orElse (find (fun f => truthy (f_primary f)) fields) (hd_error fields)).

Definition builtRelationship (id : string) (sourceTable targetTable : Table)
           (sourceField targetField : Field) (cardinality constraint : JsValue)
  : Relationship :=
  {| r_id := id;
     r_name := JStr ("rel_" ^^ id);
     r_startTableId := t_id sourceTable;
     r_endTableId := t_id targetTable;
     r_startFieldId := f_id sourceField;
     r_endFieldId := f_id targetField;
     r_cardinality := js_or cardinality (JStr "one_to_many");
     r_constraint := js_or constraint (JStr "No action");
     r_color := "#000000" |}.

(** [position?.axis] as a value. *)
Definition optionalValue (position : JsValue) (axis : string) : JsValue :=
  match getOptional position axis with Ok v => v | Throw _ => JUndefined end.

Definition builtNote (id : string) (content position : JsValue) (count : nat) : Note :=
  {| n_id := id; n_content := content;
     n_x := js_or (optionalValue position "x") (JNum (100 + Z.of_nat count * 200));
     n_y := js_or (optionalValue position "y") (JNum (100 + Z.of_nat count * 100));
     n_width := 200; n_height := 100; n_color := "#ffffcc";
     n_position := JUndefined |}.

(** What the bookkeeping of a panel adds up to: changes applied and
    errors collected. *)
Definition accounted (p : Panel) : nat := (appliedCount p + List.length (errors p))%nat.

Section Steps.

Context {host : Host}.

(** [t] is the table the handler builds for the suggestion [tableData]
    in the panel [p] rendered with [tables]. *)
Record newTableFor (tables : list Table) (tableData : JsValue) (p : Panel) (t : Table)
  : Prop := {
  nt_name : getProp tableData "name" = Ok (t_name t);
  nt_unseen : forall existing, In existing tables ->
                               strict_eq (t_name existing) (t_name t) = false;
  nt_id : t_id t = nanoid (nextId p);
  nt_field_ids :
    map f_id (t_fields t) = map nanoid (seq (S (nextId p)) (List.length (t_fields t)));
  nt_x : t_x t = (100 + Z.of_nat (appliedCount p) * 300)%Z;
  nt_y : t_y t = 100%Z
}.

(** [r] is the relationship the handler builds for the suggestion
    [relData] in the panel [p]: it joins a field of a table named
    [relData.fromTable] to a field of a table named [relData.toTable],
    both tables among the rendered ones and those added so far. *)
Record newRelationshipFor (tables : list Table) (relData : JsValue) (p : Panel)
       (r : Relationship) : Prop := {
  nr_id : r_id r = nanoid (nextId p);
  nr_ends :
    exists sourceTable targetTable sourceField targetField fromTable toTable,
      In sourceTable (tables ++ addedTables p)
      /\ In targetTable (tables ++ addedTables p)
      /\ getProp relData "fromTable" = Ok fromTable
      /\ getProp relData "toTable" = Ok toTable
      /\ strict_eq (t_name sourceTable) fromTable = true
      /\ strict_eq (t_name targetTable) toTable = true
      /\ In sourceField (t_fields sourceTable)
      /\ In targetField (t_fields targetTable)
      /\ r_startTableId r = t_id sourceTable
      /\ r_endTableId r = t_id targetTable
      /\ r_startFieldId r = f_id sourceField
      /\ r_endFieldId r = f_id targetField
}.

(** [n] is the note the handler builds for the suggestion [noteData] in
    the panel [p]. *)
Record newNoteFor (noteData : JsValue) (p : Panel) (n : Note) : Prop := {
  nn_id : n_id n = nanoid (nextId p);
  nn_content : getProp noteData "content" = Ok (n_content n)
}.

(** What one statement of the handler can do to the panel. *)
Inductive step (tables : list Table) : Panel -> Panel -> Prop :=
| step_ids : forall p n, (nextId p <= n)%nat -> step tables p (withIds n p)
| step_error : forall p line, step tables p (withError line p)
| step_table : forall p tableData t,
    newTableFor tables tableData p t ->
    step tables p (withTable t (withIds (S (nextId p) + List.length (t_fields t)) p))
| step_relationship : forall p relData r,
    newRelationshipFor tables relData p r ->
    step tables p (withRelationship r (withIds (S (nextId p)) p))
| step_note : forall p noteData n,
    newNoteFor noteData p n ->
    step tables p (withNote n (withIds (S (nextId p)) p))
| step_counted : forall p, step tables p (counted p).

(** A run: any number of steps. *)
Inductive run (tables : list Table) : Panel -> Panel -> Prop :=
| run_stop : forall p, run tables p p
| run_step : forall p q r, step tables p q -> run tables q r -> run tables p r.

End Steps.

(** A note suggestion whose [content] is a string. *)
Definition hasStringContent (noteData : JsValue) : bool :=
  match getProp noteData "content" with
  | Ok (JStr _) => true
  | _ => false
  end.

(** The added tables stand in a row: the [i]-th at [x = 100 + 300 i],
    all at [y = 100]. *)
Definition inARow (added : list Table) : Prop :=
  forall i t, nth_error added i = Some t ->
              t_x t = (100 + Z.of_nat i * 300)%Z /\ t_y t = 100%Z.

(** A text whose one fenced JSON block holds a [null] relationship. *)
Definition nullRelationshipText : string := fenced (dq "{'relationships':[null]}").

(** [r] joins a field of a table of [tables] to a field of a table of
    [tables]. *)
Definition joinsFieldsOf (tables : list Table) (r : Relationship) : Prop :=
  exists sourceTable targetTable sourceField targetField,
    In sourceTable tables
    /\ In targetTable tables
    /\ In sourceField (t_fields sourceTable)
    /\ In targetField (t_fields targetTable)
    /\ r_startTableId r = t_id sourceTable
    /\ r_endTableId r = t_id targetTable
    /\ r_startFieldId r = f_id sourceField
    /\ r_endFieldId r = f_id targetField.

(** The identifiers a table carries: its own and those of its fields. *)
Definition tableIds (t : Table) : list string := t_id t :: map f_id (t_fields t).

(** The messages "show results" posts for [count] applied suggestions
    and the error lines [errs]. *)
Definition resultMessages (content : string) (count : nat) (errs : list ErrorLine)
  : list PanelMessage :=
  (if (0 <? count)%nat then [Applied count] else [])
  ++ (if (0 <? List.length errs)%nat then [NotApplied errs] else [])
  ++ (if (count =? 0)%nat && (List.length errs =? 0)%nat
      then [if hasGeneralAdvice content then GeneralAdviceHint else NothingActionable]
      else []).

(* ================================================================== *)
(** * Notions for the properties of the parser *)
(* ================================================================== *)

Section BlockNotions.

Context {host : Host}.

(** What one fenced JSON block brings under [key]: the array its text
    parses to holds there, nothing when the text does not parse, parses
    to [null], or holds no array there. *)
Definition blockListed (key : string) (block : string) : list JsValue :=
  match JSON_parse (jsonContent block) with
  | Some parsed => spec_listed parsed key
  | None => []
  end.

(** What is logged for one fenced JSON block. *)
Definition blockError (block : string) : list JsError :=
  match JSON_parse (jsonContent block) with
  | None => [SyntaxError]
  | Some parsed => if nullish parsed then [TypeError] else []
  end.

End BlockNotions.

(** The table suggestion of the fallback for an entity noun. *)
Definition nounTable (tableName : string) : JsValue :=
  tableObject tableName ("AI-suggested table based on analysis: " ^^ tableName).

(** A relationship suggestion as the relationship heuristics let it
    through. *)
Definition plausibleRelationship (rel : JsValue) : Prop :=
  exists fromTable toTable,
    rel = relObject fromTable toTable (Js.toLowerCase fromTable ^^ "_id")
    /\ (2 <= Js.strlen fromTable)%nat /\ (2 <= Js.strlen toTable)%nat
    /\ Js.arr_includes excludeWords (Js.toLowerCase fromTable) = false
    /\ Js.arr_includes excludeWords (Js.toLowerCase toTable) = false
    /\ test false Letter fromTable = true
    /\ test false Letter toTable = true.

(** A text in which the fallback finds a noun. *)
Definition customersText : string := "We keep customers in a spreadsheet".

(* ================================================================== *)
(** * Notions for the properties of the heuristics *)
(* ================================================================== *)

(** A text holds the word of [word], in whatever case, between two other
    pieces. *)
Definition mentions (word : string) (u : list ascii) : Prop :=
  exists a w b, u = a ++ w ++ b /\ Lang true (Lit word) w.

(** The code units of a cursor's subject, in order. *)
Definition subject_of (c : cursor) : list ascii := rev (before c) ++ after c.

(* ================================================================== *)
(** * [validateSchema] of [src/utils/aiHelpers.js] *)
(* ================================================================== *)

(** [typeof v === 'string'] *)
Definition isString (v : JsValue) : bool :=
  match v with JStr _ => true | _ => false end.

(** [!v || typeof v !== 'string'] *)
Definition notAText (v : JsValue) : bool := negb (truthy v) || negb (isString v).

(** The object [validateSchema] returns. *)
Record Validation : Type := {
  isValid : bool;
  v_errors : list string
}.

(** The callback of [schema.fields.forEach]: [errors] after the field at
    [index] has been looked at. *)
Definition checkField (errors : list string) (index : nat) (field : JsValue)
  : Result (list string) :=
  match getProp field "name" with
  | Throw e => Throw e
  | Ok name =>
      let errors1 :=
        if notAText name
        then errors ++ ["Field " ^^ decimal (index + 1) ^^ " must have a name"]
        else errors in
      match getProp field "type" with
      | Throw e => Throw e
      | Ok type =>
          Ok (if notAText type
              then errors1 ++ ["Field " ^^ decimal (index + 1) ^^ " must have a type"]
              else errors1)
      end
  end.

Fixpoint checkFields (errors : list string) (index : nat) (fields : list JsValue)
  : Result (list string) :=
  match fields with
  | [] => Ok errors
  | field :: rest =>
      match checkField errors index field with
      | Throw e => Throw e
      | Ok errors' => checkFields errors' (S index) rest
      end
  end.

Definition validateSchema (schema : JsValue) : Result Validation :=
  match getProp schema "name" with
  | Throw e => Throw e
  | Ok name =>
      let errors1 := if notAText name then ["Table name is required"] else [] in
      match getProp schema "fields" with
      | Throw e => Throw e
      | Ok fields =>
          match (if negb (truthy fields) || negb (isArray fields)
                 then Ok (errors1 ++ ["Table must have fields"])
                 else checkFields errors1 0 (elements fields)) with
          | Throw e => Throw e
          | Ok errors =>
              Ok {| isValid := (List.length errors =? 0)%nat; v_errors := errors |}
          end
      end
  end.

(** A schema [validateSchema] has nothing to say against. *)
Definition validates (schema : JsValue) : Prop :=
  validateSchema schema = Ok {| isValid := true; v_errors := [] |}.

(* ================================================================== *)
(** * [generateDefaultFields] of [src/utils/aiActions.js] *)
(* ================================================================== *)

(** [a.splice(1, 0, ...items)] on an array that is not empty. *)
Definition splice_after_first {A : Type} (a items : list A) : list A :=
  match a with
  | [] => items
  | x :: rest => x :: items ++ rest
  end.

Definition baseFields : list JsValue :=
  [ JObj [("name", JStr "id"); ("type", JStr "INTEGER"); ("primaryKey", JBool true)];
    JObj [("name", JStr "created_at"); ("type", JStr "TIMESTAMP")];
    JObj [("name", JStr "updated_at"); ("type", JStr "TIMESTAMP")] ].

Definition generateDefaultFields (entityName : string) : list JsValue :=
  let entityLower := Js.toLowerCase entityName in
  if Js.includes entityLower "user" || Js.includes entityLower "customer" then
    splice_after_first baseFields
      [ JObj [("name", JStr "name"); ("type", JStr "VARCHAR(255)"); ("notNull", JBool true)];
        JObj [("name", JStr "email"); ("type", JStr "VARCHAR(255)"); ("unique", JBool true)];
        JObj [("name", JStr "password_hash"); ("type", JStr "VARCHAR(255)")] ]
  else if Js.includes entityLower "post" || Js.includes entityLower "article" then
    splice_after_first baseFields
      [ JObj [("name", JStr "title"); ("type", JStr "VARCHAR(255)"); ("notNull", JBool true)];
        JObj [("name", JStr "content"); ("type", JStr "TEXT")];
        JObj [("name", JStr "author_id"); ("type", JStr "INTEGER")] ]
  else if Js.includes entityLower "product" then
    splice_after_first baseFields
      [ JObj [("name", JStr "name"); ("type", JStr "VARCHAR(255)"); ("notNull", JBool true)];
        JObj [("name", JStr "description"); ("type", JStr "TEXT")];
        JObj [("name", JStr "price"); ("type", JStr "DECIMAL(10,2)")];
        JObj [("name", JStr "stock_quantity"); ("type", JStr "INTEGER")] ]
  else baseFields.

(** The table data [generateFromDescription] makes of an entity. *)
Definition entityTable (entityName description : string) : JsValue :=
  JObj [ ("name", JStr entityName);
         ("fields", JArr (generateDefaultFields entityName));
         ("comment", JStr ("Generated from: " ^^ description)) ].

(** A table suggestion the parser could not name. *)
Definition namelessText : string := "add table mytable".

(** A field with a name and a type that are texts, neither empty. *)
Definition wellFormedField (field : JsValue) : Prop :=
  exists name type,
    getProp field "name" = Ok (JStr name) /\ name <> ""
    /\ getProp field "type" = Ok (JStr type) /\ type <> "".

(** An editor state the callbacks of [aiActions.js] can act on: the
    tables and the two stacks. *)
Record Editor : Type := {
  e_tables : list ActionTable;
  e_undo : list ActionEntry;
  e_redo : list ActionEntry
}.

Definition editorAddTable (table : ActionTable) (e : Editor) : Editor :=
  {| e_tables := e_tables e ++ [table]; e_undo := e_undo e; e_redo := e_redo e |}.

Definition editorSetUndoStack (f : list ActionEntry -> list ActionEntry) (e : Editor)
  : Editor :=
  {| e_tables := e_tables e; e_undo := f (e_undo e); e_redo := e_redo e |}.

Definition editorSetRedoStack (v : list ActionEntry) (e : Editor) : Editor :=
  {| e_tables := e_tables e; e_undo := e_undo e; e_redo := v |}.

(** A translation function that answers with the key it was asked for. *)
Definition keyOnly (key : string) (_ : JsValue) : string := key.

Definition emptyEditor : Editor := {| e_tables := []; e_undo := []; e_redo := [] |}.

(** The table object [applyTableSuggestion] builds for the orders
    suggestion. *)
Definition plainActionField (name type : string) (primaryKey : bool) : ActionField :=
  {| af_name := JStr name; af_type := JStr type; af_primaryKey := JBool primaryKey;
     af_notNull := JBool false; af_unique := JBool false; af_comment := JStr "" |}.

Definition ordersActionTable : ActionTable :=
  {| at_name := JStr "orders";
     at_fields := [ plainActionField "id" "INTEGER" true;
                    plainActionField "created_at" "TIMESTAMP" false;
                    plainActionField "updated_at" "TIMESTAMP" false ];
     at_comment := JStr "AI-suggested table: orders";
     at_position := JObj [("x", JNum 100); ("y", JNum 100)] |}.

(* ================================================================== *)
(** * [parseNaturalLanguageDescription] of [src/utils/aiHelpers.js] *)
(* ================================================================== *)






(** A table object named by an identifier. *)
Definition namedByIdentifier (t : JsValue) : Prop :=
  exists name, getProp t "name" = Ok (JStr name) /\ Lang true ident (Js.chars name).

(* ================================================================== *)
(** * Matches with capture groups *)
(* ================================================================== *)

(** The loop [while ((match = r.exec(subject)) !== null)] for a regex
    with the [g] flag: the start and the end of every match, each search
    starting where the last match ended.  The regexes looped over here
    match no empty text; an empty match, after which the loop of the
    source would find the same match again, ends the list. *)
Fixpoint exec_from (ic : bool) (fuel : nat) (r : regex) (c : cursor)
  : list (cursor * cursor) :=
  match fuel with
  | O => []
  | S fuel' =>
      match search ic r (before c) (after c) with
      | None => []
      | Some (s, e) =>
          (s, e) :: (if (remaining e <? remaining s)%nat then exec_from ic fuel' r e
                     else [])
      end
  end.

Definition exec_all (ic : bool) (r : regex) (subject : string) : list (cursor * cursor) :=
  let l := Js.chars subject in
  exec_from ic (S (List.length l)) r (Cursor [] l).

(** Where the piece [first] of a pattern [first rest] ends in the match
    the matcher finds at [c]: the first end of [first], in the order the
    matcher tries them, from which [rest] matches. *)
Definition first_piece (ic : bool) (first rest : regex) (c : cursor) : option cursor :=
  rmatch ic first
         (fun c1 => match match_at ic rest c1 with Some _ => Some c1 | None => None end)
         c.

(** [o] and then [g]: where [g] goes on from where [o] stopped. *)
Definition andThen (o : option cursor) (g : cont) : option cursor :=
  match o with Some c => g c | None => None end.

(** The text between two positions of a subject. *)
Definition text_between (s e : cursor) : string := Js.str (matched s e).

(* ================================================================== *)
(** * [extractTableDefinitions] of [src/utils/aiHelpers.js] *)
(* ================================================================== *)

(** [CREATE TABLE], white space, the group of the name, optional white
    space, an opening parenthesis, the lazy group of the fields, and a
    closing parenthesis; flags [gi]. *)
Definition createTableHead : regex := seqs [Lit "CREATE TABLE"; Plus Space].
Definition createTableOpen : regex := seqs [Many Space; Lit "("].
Definition createTableRegex : regex :=
  seqs [createTableHead; ident; createTableOpen; Lazy AnyUnit; Lit ")"].

(** [match[1]] and [match[2]] of a match that starts at [s]. *)
Definition createTableGroups (s : cursor) : option (string * string) :=
  match first_piece true createTableHead
                    (seqs [ident; createTableOpen; Lazy AnyUnit; Lit ")"]) s with
  | None => None
  | Some c1 =>
      match first_piece true ident (seqs [createTableOpen; Lazy AnyUnit; Lit ")"]) c1 with
      | None => None
      | Some c2 =>
          match first_piece true createTableOpen (seqs [Lazy AnyUnit; Lit ")"]) c2 with
          | None => None
          | Some c3 =>
              match first_piece true (Lazy AnyUnit) (Lit ")") c3 with
              | None => None
              | Some c4 => Some (text_between c1 c2, text_between c3 c4)
              end
          end
      end
  end.

(** The callback of [fieldLines.forEach]: the field pushed for a line,
    if any. *)
Definition fieldOfLine (line : string) : list JsValue :=
  if negb (String.eqb line "") && negb (Js.includes line "PRIMARY KEY")
     && negb (Js.includes line "FOREIGN KEY")
  then
    match split false (Plus Space) line with
    | name :: type :: _ =>
        [JObj [ ("name", JStr name); ("type", JStr type);
                ("primaryKey", JBool (Js.includes line "PRIMARY KEY"));
                ("notNull", JBool (Js.includes line "NOT NULL")) ]]
    | _ => []
    end
  else [].

Definition fieldsOfText (fieldsText : string) : list JsValue :=
  flat_map fieldOfLine (map Js.trim (split false (Lit ",") fieldsText)).

Definition extractTableDefinitions (response : string) : list JsValue :=
  flat_map
    (fun m =>
       match createTableGroups (fst m) with
       | Some (tableName, fieldsText) =>
           [JObj [ ("name", JStr tableName);
                   ("fields", JArr (fieldsOfText fieldsText));
                   ("comment", JStr "Generated from AI response") ]]
       | None => []
       end)
    (exec_all true createTableRegex response).

(* ================================================================== *)
(** * [extractEntities] of [src/utils/aiActions.js] *)
(* ================================================================== *)

(** [(?:create|add|make)\s+(?:a\s+)?(?:table|entity)\s+] *)
Definition entityHead : regex :=
  seqs [ alts (Lit "create") [Lit "add"; Lit "make"]; Plus Space;
         Alt (Seq (Lit "a") (Plus Space)) Eps;
         alts (Lit "table") [Lit "entity"]; Plus Space ].

(** [\s+(?:table|entity)] *)
Definition entityTail : regex := seqs [Plus Space; alts (Lit "table") [Lit "entity"]].

Definition entityNouns : regex :=
  alts (Lit "user")
       [ Lit "users"; Lit "post"; Lit "posts"; Lit "comment"; Lit "comments";
         Lit "product"; Lit "products"; Lit "order"; Lit "orders";
         Lit "customer"; Lit "customers" ].

(** The three patterns, each with what [match[1]] is for a match from
    [s] to [e]: [None] where the pattern has no group. *)
Definition entityPatterns : list (regex * (cursor -> cursor -> option string)) :=
  [ (seqs [entityHead; ident],
     fun s e => option_map (fun c1 => text_between c1 e)
                           (first_piece true entityHead ident s));
    (seqs [ident; entityTail],
     fun s _ => option_map (fun c2 => text_between s c2)
                           (first_piece true ident entityTail s));
    (entityNouns, fun _ _ => None) ].

(** [match[1] || match[0]] *)
Definition groupOrMatch (group : option string) (whole : string) : string :=
  match group with
  | Some g => if String.eqb g "" then whole else g
  | None => whole
  end.

(** The entity pushed for a name. *)
Definition entityObject (entityName : string) : JsValue :=
  JObj [ ("name", JStr entityName);
         ("fields", JArr (generateDefaultFields entityName)) ].

Definition extractEntities (description : string) : list JsValue :=
  fold_left
    (fun entities pattern =>
       fold_left
         (fun entities m =>
            let entityName :=
              groupOrMatch (snd pattern (fst m) (snd m))
                           (text_between (fst m) (snd m)) in
            if existsb (hasName entityName) entities then entities
            else entities ++ [entityObject entityName])
         (exec_all true (fst pattern) description) entities)
    entityPatterns [].

(** The name of an object that has one. *)
Definition nameOf (t : JsValue) : JsValue :=
  match getProp t "name" with Ok v => v | Throw _ => JUndefined end.

(** A field object that is not a primary key. *)
Definition notPrimary (field : JsValue) : Prop :=
  getProp field "primaryKey" = Ok (JBool false).

(** What [extractEntities] keeps true of the entities it collects. *)
Definition entitiesInOrder (entities : list JsValue) : Prop :=
  NoDup (map nameOf entities)
  /\ Forall (fun entity => exists entityName,
                 entity = entityObject entityName /\ entityName <> "") entities.

(* ================================================================== *)
(** * [applyRelationshipSuggestion] and [extractRelationships] of
      [src/utils/aiActions.js] *)
(* ================================================================== *)

(** The relationship object [applyRelationshipSuggestion] builds. *)
Record ActionRelationship : Type := {
  ar_fromTable : JsValue;
  ar_toTable : JsValue;
  ar_fromField : JsValue;
  ar_toField : JsValue;
  ar_cardinality : JsValue;
  ar_constraint : JsValue
}.

(** The entry it pushes on the undo stack; [message] is what [t]
    returned. *)
Record RelationshipEntry : Type := {
  re_action : Action;
  re_element : ObjectType;
  re_message : string;
  re_data : ActionRelationship
}.

Inductive RelationshipResult : Type :=
| RelSuccess (relationship : ActionRelationship)
| RelFailure (message : JsError).

(** The relationship object of the [try], or the exception thrown on the
    way. *)
Definition actionRelationship (relData : JsValue) : Result ActionRelationship :=
  match getProp relData "fromTable", getProp relData "toTable",
        getProp relData "fromField", getProp relData "toField" with
  | Ok fromTable, Ok toTable, Ok fromField, Ok toField =>
      if negb (truthy fromTable) || negb (truthy toTable)
         || negb (truthy fromField) || negb (truthy toField)
      then Throw (Error "Invalid relationship data provided")
      else
        match getProp relData "cardinality", getProp relData "constraint" with
        | Ok cardinality, Ok constraint =>
            Ok {| ar_fromTable := fromTable; ar_toTable := toTable;
                  ar_fromField := fromField; ar_toField := toField;
                  ar_cardinality := js_or cardinality (JStr "one_to_many");
                  ar_constraint := js_or constraint (JStr "No action") |}
        | _, _ => Throw TypeError
        end
  | _, _, _, _ => Throw TypeError
  end.

Section RelationshipActions.

Variable State : Type.

(** The callbacks of the second argument; [t] is given the two table
    names of its options. *)
Variable addRelationshipCb : ActionRelationship -> State -> State.
Variable setUndoStack :
  (list RelationshipEntry -> list RelationshipEntry) -> State -> State.
Variable setRedoStack : list RelationshipEntry -> State -> State.
Variable t : string -> JsValue -> JsValue -> string.

Definition applyRelationshipSuggestion (relData : JsValue) (st : State)
  : RelationshipResult * State :=
  match actionRelationship relData with
  | Throw e => (RelFailure e, st)
  | Ok newRelationship =>
      let st1 := addRelationshipCb newRelationship st in
      let st2 :=
        setUndoStack
          (fun prev =>
             prev ++ [{| re_action := ADD; re_element := RELATIONSHIP;
                         re_message :=
                           t "ai_applied_relationship_suggestion"
                             (ar_fromTable newRelationship) (ar_toTable newRelationship);
                         re_data := newRelationship |}])
          st1 in
      (RelSuccess newRelationship, setRedoStack [] st2)
  end.

End RelationshipActions.

(** [\s+(?:has|belongs to|references|links to)\s+] and
    [\s+(?:->|->>|<-|<<-)\s+] *)
Definition relationVerb : regex :=
  seqs [ Plus Space;
         alts (Lit "has") [Lit "belongs to"; Lit "references"; Lit "links to"];
         Plus Space ].

Definition relationArrow : regex :=
  seqs [Plus Space; alts (Lit "->") [Lit "->>"; Lit "<-"; Lit "<<-"]; Plus Space].

(** The middle pieces of the two patterns, each between the two groups
    holding an identifier. *)
Definition relationPatterns : list regex := [relationVerb; relationArrow].

(** [match[1]] and [match[2]] of a match of [ident middle ident] from
    [s] to [e]. *)
Definition relationGroups (middle : regex) (s e : cursor) : option (string * string) :=
  match first_piece true ident (seqs [middle; ident]) s with
  | None => None
  | Some c1 =>
      match first_piece true middle ident c1 with
      | None => None
      | Some c2 => Some (text_between s c1, text_between c2 e)
      end
  end.

(** The relationship pushed for two names. *)
Definition relationObject (fromTable toTable : string) : JsValue :=
  JObj [ ("fromTable", JStr fromTable); ("toTable", JStr toTable);
         ("fromField", JStr (Js.toLowerCase fromTable ^^ "_id"));
         ("toField", JStr "id");
         ("cardinality", JStr "one_to_many") ].

(** [entities] holds the objects [extractEntities] returned. *)
Definition extractRelationships (description : string) (entities : list JsValue)
  : list JsValue :=
  fold_left
    (fun relationships middle =>
       fold_left
         (fun relationships m =>
            match relationGroups middle (fst m) (snd m) with
            | Some (fromTable, toTable) =>
                if existsb (hasName fromTable) entities
                   && existsb (hasName toTable) entities
                then relationships ++ [relationObject fromTable toTable]
                else relationships
            | None => relationships
            end)
         (exec_all true (seqs [ident; middle; ident]) description) relationships)
    relationPatterns [].

(** A relationship between two of the entities that
    [applyRelationshipSuggestion] takes. *)
Definition joinsEntities (entities : list JsValue) (rel : JsValue) : Prop :=
  exists fromTable toTable,
    rel = relationObject fromTable toTable
    /\ existsb (hasName fromTable) entities = true
    /\ existsb (hasName toTable) entities = true
    /\ exists relationship, actionRelationship rel = Ok relationship.

(* ================================================================== *)
(** * The chat message: [hasActionableContent] and [extractCodeBlocks] *)
(* ================================================================== *)

(** [String.prototype.toUpperCase] on one code unit: a-z and the Latin-1
    small letters (224..254 but the division sign 247) lose 32, the sharp
    s (223) becomes [SS].  The two units whose capital lies outside the
    range, 181 and 255, stand for their capitals: like these, they are
    units of no keyword of the code. *)
Definition upper_units (c : ascii) : list ascii :=
  if (Js.code c =? 223)%N then ["S"%char; "S"%char]
  else if Js.in_range 97 122 c || (Js.in_range 224 254 c && negb (Js.code c =? 247)%N)
       then [ascii_of_N (Js.code c - 32)]
       else [c].

Definition toUpperCase (s : string) : string :=
  Js.str (flat_map upper_units (Js.chars s)).

Definition actionKeywords : list string :=
  ["CREATE TABLE"; "ADD TABLE"; "FOREIGN KEY"; "suggest"; "recommend"; "add"; "create"].

(** Whether the message shows the button that applies its suggestions. *)
Definition hasActionableContent (content : string) : bool :=
  existsb (fun keyword => Js.includes (toUpperCase content) keyword) actionKeywords.

(** A part of a message: text, or a block of code with its language. *)
Inductive Part : Type :=
| TextPart (content : string)
| CodePart (language content : string).

(** [\w] *)
Definition WordUnit : regex := Cls false [(97, 122); (65, 90); (48, 57); (95, 95)]%N.

(** Three backquotes, an optional group of word units, a line feed, the
    lazy group of the code, and three backquotes; flag [g]. *)
Definition codeTag : regex := Alt (Plus WordUnit) Eps.
Definition codeRegex : regex :=
  seqs [Lit "```"; codeTag; Lit nl; Lazy AnyUnit; Lit "```"].

(** [match[1]] (empty when the group took no part) and [match[2]] of a
    match that starts at [s]. *)
Definition codeGroups (s : cursor) : option (string * string) :=
  match first_piece false (Lit "```") (seqs [codeTag; Lit nl; Lazy AnyUnit; Lit "```"]) s with
  | None => None
  | Some c1 =>
      match first_piece false codeTag (seqs [Lit nl; Lazy AnyUnit; Lit "```"]) c1 with
      | None => None
      | Some c2 =>
          match first_piece false (Lit nl) (seqs [Lazy AnyUnit; Lit "```"]) c2 with
          | None => None
          | Some c3 =>
              match first_piece false (Lazy AnyUnit) (Lit "```") c3 with
              | None => None
              | Some c4 => Some (text_between c1 c2, text_between c3 c4)
              end
          end
      end
  end.

(** [match[1] || 'text'] *)
Definition languageOf (tag : string) : string :=
  if String.eqb tag "" then "text" else tag.

(** The body of the loop for the match from [s] to [e]: the parts so far
    and [lastIndex], as the position [last]. *)
Definition codeStep (state : list Part * cursor) (m : cursor * cursor)
  : list Part * cursor :=
  let (parts, last) := state in
  let parts1 :=
    if (remaining (fst m) <? remaining last)%nat
    then parts ++ [TextPart (text_between last (fst m))]
    else parts in
  let parts2 :=
    match codeGroups (fst m) with
    | Some (tag, code) => parts1 ++ [CodePart (languageOf tag) code]
    | None => parts1
    end in
  (parts2, snd m).

Definition extractCodeBlocks (content : string) : list Part :=
  let (parts, last) :=
    fold_left codeStep (exec_all false codeRegex content)
              ([], Cursor [] (Js.chars content)) in
  if (0 <? remaining last)%nat then parts ++ [TextPart (Js.str (after last))]
  else parts.

(** The piece of a message a part shows: a text that is not empty, or a
    fenced block with its tag, if any. *)
Definition shows (part : Part) (piece : string) : Prop :=
  match part with
  | TextPart content => piece = content /\ content <> ""
  | CodePart language code =>
      exists tag, piece = "```" ^^ tag ^^ nl ^^ code ^^ "```"
                  /\ language = languageOf tag
  end.

(** The pieces one after the other. *)
Definition joined (pieces : list string) : string := fold_right cat "" pieces.

(** The parts so far show pieces that, with what lies after [last], make
    up the content. *)
Definition partsCover (content : string) (state : list Part * cursor) : Prop :=
  exists pieces,
    Forall2 shows (fst state) pieces
    /\ Js.chars (joined pieces) ++ after (snd state) = Js.chars content.

(* ================================================================== *)
(** * [applySchemaOptimization] of [src/utils/aiActions.js] *)
(* ================================================================== *)

(** A table of the editor: an object, by its properties.  The array the
    function copies holds the same objects as the array it was given;
    what it does to one, it does to the other, so one list stands for
    both. *)
Definition Obj : Type := list (string * JsValue).

(** [t.key] *)
Definition objProp (t : Obj) (key : string) : JsValue :=
  match find (fun p => String.eqb (fst p) key) t with
  | Some p => snd p
  | None => JUndefined
  end.

(** The entry pushed on the undo stack; [message] is what [t] returned
    for the count, [data] holds the optimizations. *)
Record OptimizationEntry : Type := {
  oe_action : Action;
  oe_element : ObjectType;
  oe_message : string;
  oe_data : list JsValue
}.

Inductive OptimizationResult : Type :=
| OptSuccess (changesApplied : nat)
| OptFailure (message : JsError).

(** [updatedTables.findIndex(t => t.name === tableName)], [None] for -1. *)
Fixpoint findIndexByName (tableName : JsValue) (tables : list Obj) : option nat :=
  match tables with
  | [] => None
  | t :: rest =>
      if strict_eq (objProp t "name") tableName then Some O
      else option_map S (findIndexByName tableName rest)
  end.

(** [if (!t.key) { t.key = []; } t.key.push(entry)] *)
Definition pushInto (key : string) (entry : JsValue) (t : Obj) : Result Obj :=
  let t1 := if truthy (objProp t key) then t else Json.set_prop key (JArr []) t in
  match objProp t1 key with
  | JArr l => Ok (Json.set_prop key (JArr (l ++ [entry])) t1)
  | _ => Throw TypeError
  end.

(** The same on the table at [index]. *)
Fixpoint pushIntoAt (index : nat) (key : string) (entry : JsValue) (tables : list Obj)
  : Result (list Obj) :=
  match tables, index with
  | [], _ => Throw TypeError
  | t :: rest, O =>
      match pushInto key entry t with
      | Ok t' => Ok (t' :: rest)
      | Throw e => Throw e
      end
  | t :: rest, S index' =>
      match pushIntoAt index' key entry rest with
      | Ok rest' => Ok (t :: rest')
      | Throw e => Throw e
      end
  end.

(** [optimization.key] once [optimization.type] has been read. *)
Definition optionOf (optimization : JsValue) (key : string) : JsValue :=
  match getProp optimization key with Ok v => v | Throw _ => JUndefined end.

Definition indexEntry (optimization : JsValue) : JsValue :=
  JObj [ ("name", optionOf optimization "indexName");
         ("fields", optionOf optimization "fields");
         ("unique", js_or (optionOf optimization "unique") (JBool false)) ].

Definition constraintEntry (optimization : JsValue) : JsValue :=
  JObj [ ("name", optionOf optimization "constraintName");
         ("type", optionOf optimization "constraintType");
         ("fields", optionOf optimization "fields");
         ("expression", optionOf optimization "expression") ].

(** What an optimization of a known type adds, and where. *)
Definition additionOf (type : JsValue) (optimization : JsValue)
  : option (string * JsValue) :=
  if strict_eq type (JStr "add_index") then Some ("indexes", indexEntry optimization)
  else if strict_eq type (JStr "add_constraint")
       then Some ("constraints", constraintEntry optimization)
       else None.

(** The callback of [optimizations.forEach]: the tables and the count it
    leaves, or the exception it throws. *)
Definition optimize (tables : list Obj) (changes : nat) (optimization : JsValue)
  : Result (list Obj * nat) :=
  match getProp optimization "type" with
  | Throw e => Throw e
  | Ok type =>
      match additionOf type optimization with
      | None => Ok (tables, changes)
      | Some (key, entry) =>
          match findIndexByName (optionOf optimization "tableName") tables with
          | None => Ok (tables, changes)
          | Some tableIndex =>
              match pushIntoAt tableIndex key entry tables with
              | Ok tables' => Ok (tables', S changes)
              | Throw e => Throw e
              end
          end
      end
  end.

(** The loop: the exception that ended it, if any, with the tables and
    the count as it left them. *)
Fixpoint optimizeAll (optimizations : list JsValue) (tables : list Obj) (changes : nat)
  : option JsError * list Obj * nat :=
  match optimizations with
  | [] => (None, tables, changes)
  | optimization :: rest =>
      match optimize tables changes optimization with
      | Throw e => (Some e, tables, changes)
      | Ok (tables', changes') => optimizeAll rest tables' changes'
      end
  end.

Section Optimizations.

Variable State : Type.

(** The callbacks of the second argument. *)
Variable setTables : list Obj -> State -> State.
Variable setUndoStack :
  (list OptimizationEntry -> list OptimizationEntry) -> State -> State.
Variable setRedoStack : list OptimizationEntry -> State -> State.
Variable t : string -> nat -> string.

(** The result, the tables as the call left them, and the state. *)
Definition applySchemaOptimization (optimizations : list JsValue) (tables : list Obj)
           (st : State) : OptimizationResult * list Obj * State :=
  match optimizeAll optimizations tables 0 with
  | (Some e, tables', _) => (OptFailure e, tables', st)
  | (None, tables', changesApplied) =>
      if (0 <? changesApplied)%nat then
        let st1 := setTables tables' st in
        let st2 :=
          setUndoStack
            (fun prev =>
               prev ++ [{| oe_action := EDIT; oe_element := TABLE;
                           oe_message := t "ai_applied_optimizations" changesApplied;
                           oe_data := optimizations |}])
            st1 in
        (OptSuccess changesApplied, tables', setRedoStack [] st2)
      else (OptSuccess changesApplied, tables', st)
  end.

End Optimizations.

(** A table as the chat panel adds it, and an optimization that gives
    it an index. *)
Definition usersObject : Obj :=
  [("id", JStr "id0"); ("name", JStr "users"); ("indices", JArr [])].

Definition usersIndex : JsValue :=
  JObj [ ("type", JStr "add_index"); ("tableName", JStr "users");
         ("indexName", JStr "users_name"); ("fields", JArr [JStr "name"]) ].

(* ================================================================== *)
(** * [generateFromDescription] and [applyBatchSuggestions] of
      [src/utils/aiActions.js] *)
(* ================================================================== *)

(** A line of the [errors] array of the results. *)
Inductive ActionError : Type :=
| TableNotCreated (name : JsValue) (error : JsError)
| RelationshipNotCreated (error : JsError)
| TableNotApplied (name : JsValue) (error : JsError)
| RelationshipNotApplied (error : JsError)
| OptimizationsNotApplied (error : JsError).

(** The results object: the tables and relationships of the successful
    calls, the [changesApplied] of a successful optimization call, and
    the errors. *)
Record ActionResults : Type := {
  a_tables : list ActionTable;
  a_relationships : list ActionRelationship;
  a_optimizations : list nat;
  a_errors : list ActionError
}.

Definition noResults : ActionResults :=
  {| a_tables := []; a_relationships := []; a_optimizations := []; a_errors := [] |}.

Definition withTableResult (table : ActionTable) (r : ActionResults) : ActionResults :=
  {| a_tables := a_tables r ++ [table]; a_relationships := a_relationships r;
     a_optimizations := a_optimizations r; a_errors := a_errors r |}.

Definition withRelationshipResult (rel : ActionRelationship) (r : ActionResults)
  : ActionResults :=
  {| a_tables := a_tables r; a_relationships := a_relationships r ++ [rel];
     a_optimizations := a_optimizations r; a_errors := a_errors r |}.

Definition withOptimizationResult (changesApplied : nat) (r : ActionResults)
  : ActionResults :=
  {| a_tables := a_tables r; a_relationships := a_relationships r;
     a_optimizations := a_optimizations r ++ [changesApplied]; a_errors := a_errors r |}.

Definition withActionError (e : ActionError) (r : ActionResults) : ActionResults :=
  {| a_tables := a_tables r; a_relationships := a_relationships r;
     a_optimizations := a_optimizations r; a_errors := a_errors r ++ [e] |}.

(** How many calls a results object accounts for. *)
Definition accountedFor (r : ActionResults) : nat :=
  (List.length (a_tables r) + List.length (a_relationships r)
   + List.length (a_optimizations r) + List.length (a_errors r))%nat.

(** The table data [generateFromDescription] makes of an entity. *)
Definition tableDataOf (description : string) (entity : JsValue) : JsValue :=
  JObj [ ("name", optionOf entity "name");
         ("fields", js_or (optionOf entity "fields") (JArr baseFields));
         ("comment", JStr ("Generated from: " ^^ description)) ].

Section ActionCalls.

Variable State : Type.

(** The callbacks of the context.  The one [setUndoStack], the one
    [setRedoStack] and the one [t] of the source are taken at the type of
    each of the three kinds of entry. *)
Variable addTableCb : ActionTable -> State -> State.
Variable setUndoStackT : (list ActionEntry -> list ActionEntry) -> State -> State.
Variable setRedoStackT : list ActionEntry -> State -> State.
Variable tT : string -> JsValue -> string.

Variable addRelationshipCb : ActionRelationship -> State -> State.
Variable setUndoStackR :
  (list RelationshipEntry -> list RelationshipEntry) -> State -> State.
Variable setRedoStackR : list RelationshipEntry -> State -> State.
Variable tR : string -> JsValue -> JsValue -> string.

Variable setTables : list Obj -> State -> State.
Variable setUndoStackO :
  (list OptimizationEntry -> list OptimizationEntry) -> State -> State.
Variable setRedoStackO : list OptimizationEntry -> State -> State.
Variable tO : string -> nat -> string.

(** The callback of [relationships.forEach], of both functions but for
    the error line. *)
Definition relationshipCall (line : JsError -> ActionError)
           (acc : ActionResults * State) (relData : JsValue) : ActionResults * State :=
  match applyRelationshipSuggestion addRelationshipCb setUndoStackR setRedoStackR tR
                                    relData (snd acc) with
  | (RelSuccess rel, st') => (withRelationshipResult rel (fst acc), st')
  | (RelFailure e, st') => (withActionError (line e) (fst acc), st')
  end.

(** ** [generateFromDescription] *)

(** The callback of [entities.forEach]: the results and the state it
    leaves, and the exception it throws, if any, when it reads
    [entity.name]. *)
Definition entityCall (description : string) (acc : ActionResults * State)
           (entity : JsValue) : option JsError * (ActionResults * State) :=
  match getProp entity "name" with
  | Throw e => (Some e, acc)
  | Ok _ =>
      match applyTableSuggestion addTableCb setUndoStackT setRedoStackT tT
                                 (tableDataOf description entity) (snd acc) with
      | (Success table, st') => (None, (withTableResult table (fst acc), st'))
      | (Failure e, st') =>
          (None,
           (withActionError (TableNotCreated (optionOf entity "name") e) (fst acc), st'))
      end
  end.

Fixpoint entityCalls (description : string) (entities : list JsValue)
         (acc : ActionResults * State) : option JsError * (ActionResults * State) :=
  match entities with
  | [] => (None, acc)
  | entity :: rest =>
      match entityCall description acc entity with
      | (Some e, acc') => (Some e, acc')
      | (None, acc') => entityCalls description rest acc'
      end
  end.

(** The results, or the error of the outer [catch]; and the state. *)
Definition generateFromDescription (description : string) (st : State)
  : Result ActionResults * State :=
  let entities := extractEntities description in
  let relationships := extractRelationships description entities in
  match entityCalls description entities (noResults, st) with
  | (Some e, acc) => (Throw e, snd acc)
  | (None, acc) =>
      let acc' := fold_left (relationshipCall RelationshipNotCreated) relationships acc in
      (Ok (fst acc'), snd acc')
  end.

(** ** [applyBatchSuggestions] *)

(** The callback of [suggestions.tables.forEach]: the results and the
    state it leaves, and the exception it throws, if any, when it reads
    [tableData.name] for the error line. *)
Definition tableCall (acc : ActionResults * State) (tableData : JsValue)
  : option JsError * (ActionResults * State) :=
  match applyTableSuggestion addTableCb setUndoStackT setRedoStackT tT
                             tableData (snd acc) with
  | (Success table, st') => (None, (withTableResult table (fst acc), st'))
  | (Failure e, st') =>
      match getProp tableData "name" with
      | Throw e' => (Some e', (fst acc, st'))
      | Ok name => (None, (withActionError (TableNotApplied name e) (fst acc), st'))
      end
  end.

Fixpoint tableCalls (tableSuggestions : list JsValue) (acc : ActionResults * State)
  : option JsError * (ActionResults * State) :=
  match tableSuggestions with
  | [] => (None, acc)
  | tableData :: rest =>
      match tableCall acc tableData with
      | (Some e, acc') => (Some e, acc')
      | (None, acc') => tableCalls rest acc'
      end
  end.

(** The results, or the exception that ended the call; the tables of the
    context as the call left them; and the state. *)
Definition applyBatchSuggestions (suggestions : Suggestions) (contextTables : list Obj)
           (st : State) : Result ActionResults * list Obj * State :=
  match tableCalls (tables suggestions) (noResults, st) with
  | (Some e, acc) => (Throw e, contextTables, snd acc)
  | (None, acc) =>
      let acc1 :=
        fold_left (relationshipCall RelationshipNotApplied) (relationships suggestions)
                  acc in
      match optimizations suggestions with
      | [] => (Ok (fst acc1), contextTables, snd acc1)
      | _ :: _ =>
          match applySchemaOptimization setTables setUndoStackO setRedoStackO tO
                                        (optimizations suggestions) contextTables
                                        (snd acc1) with
          | (OptSuccess changesApplied, tables', st') =>
              (Ok (withOptimizationResult changesApplied (fst acc1)), tables', st')
          | (OptFailure e, tables', st') =>
              (Ok (withActionError (OptimizationsNotApplied e) (fst acc1)), tables', st')
          end
      end
  end.

End ActionCalls.

(** A context that only records which of its callbacks were called. *)
Definition CallLog : Type := list string.

Definition logged {A : Type} (name : string) (_ : A) (log : CallLog) : CallLog :=
  log ++ [name].

(** Suggestions whose one table suggestion is [null], and suggestions of
    one table, one relationship and one optimization. *)
Definition nullTableSuggestions : Suggestions :=
  {| tables := [JNull]; relationships := []; notes := []; optimizations := [];
     sqlQueries := []; general := [] |}.


(* ================================================================== *)
(** * The matcher against [Lang] *)
(* ================================================================== *)

Section MatcherFacts.

Variable ic : bool.

Lemma advance_app (c : cursor) (u v rest : list ascii) :
  advance (advance c u (v ++ rest)) v rest = advance c (u ++ v) rest.
Proof.
  unfold advance. simpl. now rewrite rev_app_distr, app_assoc.
Qed.

Lemma star_loop_sound (g : bool) (r : regex) :
  (forall k c e, rmatch ic r k c = Some e ->
     exists u rest, after c = u ++ rest /\ Lang ic r u /\ k (advance c u rest) = Some e) ->
  forall n k c e, star_loop g (rmatch ic r) k n c = Some e ->
    exists u rest, after c = u ++ rest /\ Lang ic (Star g r) u
                   /\ k (advance c u rest) = Some e.
Proof.
  intros IHr n.
  assert (Hstop : forall (k : cont) c e, k c = Some e ->
            exists u rest, after c = u ++ rest /\ Lang ic (Star g r) u
                           /\ k (advance c u rest) = Some e).
  { intros k c e Hk. exists [], (after c). repeat split.
    - constructor.
    - destruct c; exact Hk. }
  assert (Hiter : forall n' (k : cont) c e,
            (forall k c e, star_loop g (rmatch ic r) k n' c = Some e ->
               exists u rest, after c = u ++ rest /\ Lang ic (Star g r) u
                              /\ k (advance c u rest) = Some e) ->
            rmatch ic r
              (fun c' => if (remaining c' <? remaining c)%nat
                         then star_loop g (rmatch ic r) k n' c' else None) c = Some e ->
            exists u rest, after c = u ++ rest /\ Lang ic (Star g r) u
                           /\ k (advance c u rest) = Some e).
  { intros n' k c e IHn Hm.
    apply IHr in Hm. destruct Hm as (u1 & rest1 & Hc & Hu1 & Hagain).
    destruct (remaining (advance c u1 rest1) <? remaining c)%nat; [|discriminate].
    apply IHn in Hagain. destruct Hagain as (u2 & rest2 & Hc2 & Hu2 & Hk).
    simpl in Hc2. subst rest1.
    exists (u1 ++ u2), rest2. repeat split.
    - rewrite Hc. now rewrite app_assoc.
    - now constructor.
    - now rewrite <- advance_app. }
  induction n as [|n' IHn]; intros k c e H; simpl in H.
  - now apply Hstop.
  - destruct g.
    + destruct (rmatch ic r _ c) eqn:Hm.
      * inversion H; subst. eapply Hiter; eauto.
      * now apply Hstop.
    + destruct (k c) eqn:Hk.
      * inversion H; subst. now apply Hstop.
      * eapply Hiter; eauto.
Qed.

Lemma step_char_sound (ok : ascii -> bool) (k : cont) (c e : cursor) :
  step_char ok k c = Some e ->
  exists x rest, after c = x :: rest /\ ok x = true /\ k (advance c [x] rest) = Some e.
Proof.
  unfold step_char. destruct (after c) as [|x rest]; [discriminate|].
  destruct (ok x) eqn:Hok; [|discriminate].
  intros H. now exists x, rest.
Qed.

(** Soundness: a successful run passed over a text of the pattern and
    then ran its continuation. *)
Lemma rmatch_sound (r : regex) :
  boundary_free r = true ->
  forall k c e, rmatch ic r k c = Some e ->
    exists u rest, after c = u ++ rest /\ Lang ic r u /\ k (advance c u rest) = Some e.
Proof.
  induction r as [|a|neg rs|r1 IH1 r2 IH2|r1 IH1 r2 IH2|g r1 IH1|];
    simpl; intros Hbf k c e H.
  - exists [], (after c). repeat split; [constructor|]. destruct c; exact H.
  - apply step_char_sound in H. destruct H as (x & rest & Hc & Hok & Hk).
    exists [x], rest. repeat split; auto. now constructor.
  - apply step_char_sound in H. destruct H as (x & rest & Hc & Hok & Hk).
    exists [x], rest. repeat split; auto. now constructor.
  - apply andb_prop in Hbf. destruct Hbf as [Hb1 Hb2].
    apply (IH1 Hb1) in H. destruct H as (u1 & rest1 & Hc & Hu1 & H).
    apply (IH2 Hb2) in H. destruct H as (u2 & rest2 & Hc2 & Hu2 & Hk).
    simpl in Hc2. subst rest1.
    exists (u1 ++ u2), rest2. repeat split.
    + rewrite Hc. now rewrite app_assoc.
    + now constructor.
    + now rewrite <- advance_app.
  - apply andb_prop in Hbf. destruct Hbf as [Hb1 Hb2].
    destruct (rmatch ic r1 k c) eqn:H1.
    + inversion H; subst. apply (IH1 Hb1) in H1.
      destruct H1 as (u & rest & ? & ? & ?). exists u, rest. repeat split; auto.
      now apply Lang_AltL.
    + apply (IH2 Hb2) in H.
      destruct H as (u & rest & ? & ? & ?). exists u, rest. repeat split; auto.
      now apply Lang_AltR.
  - eapply star_loop_sound; eauto.
  - discriminate.
Qed.

Lemma remaining_advance (c : cursor) (u rest : list ascii) :
  after c = u ++ rest -> remaining c = (List.length u + remaining (advance c u rest))%nat.
Proof.
  intros H. unfold remaining. rewrite H. simpl. now rewrite length_app.
Qed.

Lemma star_loop_complete (g : bool) (r : regex) :
  (forall u, Lang ic r u -> forall (k : cont) c rest,
     after c = u ++ rest -> k (advance c u rest) <> None -> rmatch ic r k c <> None) ->
  forall v, Lang ic (Star g r) v -> forall n (k : cont) c rest,
    after c = v ++ rest -> (remaining c <= n)%nat ->
    k (advance c v rest) <> None ->
    star_loop g (rmatch ic r) k n c <> None.
Proof.
  intros IHr v Hv.
  remember (Star g r) as sr eqn:Hsr.
  induction Hv as [| | | | | |g' r'|g' r' u w Hu _ Hw IHw]; try discriminate;
    inversion Hsr; subst g' r'; clear Hsr; intros n k c rest Hc Hn Hk.
  - (* the star stops here *)
    assert (Hc' : advance c [] rest = c) by (destruct c; simpl in *; now subst).
    rewrite Hc' in Hk.
    destruct n as [|n']; simpl; [exact Hk|].
    destruct g.
    + destruct (rmatch ic r _ c); [discriminate|exact Hk].
    + destruct (k c); [discriminate|now elim Hk].
  - destruct u as [|x u'].
    + (* an iteration over nothing adds nothing *)
      simpl in *. now apply (IHw eq_refl n k c rest).
    + assert (Hlen := remaining_advance c (x :: u') (w ++ rest)).
      rewrite <- app_assoc in Hc. specialize (Hlen Hc). simpl in Hlen.
      destruct n as [|n']; [lia|]. simpl.
      assert (Hiter :
        rmatch ic r
          (fun c' => if (remaining c' <? remaining c)%nat
                     then star_loop g (rmatch ic r) k n' c' else None) c <> None).
      { apply (IHr (x :: u') Hu _ c (w ++ rest) Hc).
        destruct (Nat.ltb_spec (remaining (advance c (x :: u') (w ++ rest))) (remaining c));
          [|lia].
        apply (IHw eq_refl n' k _ rest); [reflexivity|lia|].
        now rewrite advance_app. }
      destruct g.
      * destruct (rmatch ic r _ c); [discriminate|now elim Hiter].
      * destruct (k c); [discriminate|exact Hiter].
Qed.

Lemma Lang_Eps_inv (u : list ascii) : Lang ic Eps u -> u = [].
Proof. intros H. now inversion H. Qed.

Lemma Lang_Chr_inv (a : ascii) (u : list ascii) :
  Lang ic (Chr a) u -> exists x, u = [x] /\ chr_match ic a x = true.
Proof. intros H. inversion H; subst. eauto. Qed.

Lemma Lang_Cls_inv (neg : bool) (rs : list (N * N)) (u : list ascii) :
  Lang ic (Cls neg rs) u -> exists x, u = [x] /\ cls_match ic neg rs x = true.
Proof. intros H. inversion H; subst. eauto. Qed.

Lemma Lang_Seq_inv (r1 r2 : regex) (u : list ascii) :
  Lang ic (Seq r1 r2) u ->
  exists u1 u2, u = u1 ++ u2 /\ Lang ic r1 u1 /\ Lang ic r2 u2.
Proof. intros H. inversion H; subst. eauto. Qed.

Lemma Lang_Alt_inv (r1 r2 : regex) (u : list ascii) :
  Lang ic (Alt r1 r2) u -> Lang ic r1 u \/ Lang ic r2 u.
Proof. intros H. inversion H; subst; auto. Qed.

(** Completeness: when the text ahead starts with a text of the pattern
    after which the continuation succeeds, the run succeeds. *)
Lemma rmatch_complete (r : regex) :
  forall u, Lang ic r u -> forall (k : cont) c rest,
    after c = u ++ rest -> k (advance c u rest) <> None -> rmatch ic r k c <> None.
Proof.
  induction r as [|a|neg rs|r1 IH1 r2 IH2|r1 IH1 r2 IH2|g r1 IH1|];
    intros u Hu k c rest Hc Hk; simpl.
  - apply Lang_Eps_inv in Hu. subst u. destruct c; simpl in *; now subst.
  - apply Lang_Chr_inv in Hu. destruct Hu as (x & -> & Hx).
    unfold step_char. rewrite Hc. simpl. now rewrite Hx.
  - apply Lang_Cls_inv in Hu. destruct Hu as (x & -> & Hx).
    unfold step_char. rewrite Hc. simpl. now rewrite Hx.
  - apply Lang_Seq_inv in Hu. destruct Hu as (u1 & u2 & -> & Hu1 & Hu2).
    rewrite <- app_assoc in Hc.
    apply (IH1 _ Hu1 _ c _ Hc).
    apply (IH2 _ Hu2 _ _ rest); [reflexivity|].
    now rewrite advance_app.
  - apply Lang_Alt_inv in Hu.
    destruct (rmatch ic r1 k c) eqn:H1'; [discriminate|].
    destruct Hu as [Hu|Hu].
    + exfalso. now apply (IH1 _ Hu _ _ _ Hc Hk).
    + now apply (IH2 _ Hu _ _ _ Hc Hk).
  - eapply star_loop_complete; eauto.
  - inversion Hu.
Qed.

Lemma Lang_seqs_inv (r : regex) (rs : list regex) (u : list ascii) :
  Lang ic (seqs (r :: rs)) u ->
  exists u1 u2, u = u1 ++ u2 /\ Lang ic r u1 /\ Lang ic (seqs rs) u2.
Proof.
  destruct rs as [|r' rs']; intros H.
  - exists u, []. rewrite app_nil_r. repeat split; [exact H|constructor].
  - now apply Lang_Seq_inv in H.
Qed.

Lemma Lang_lit_length (l u : list ascii) :
  Lang ic (lit_chars l) u -> List.length u = List.length l.
Proof.
  revert u. induction l as [|a l' IH]; intros u H.
  - apply Lang_Eps_inv in H. now subst.
  - destruct l' as [|b l''].
    + apply Lang_Chr_inv in H. now destruct H as (x & -> & _).
    + change (lit_chars (a :: b :: l'')) with (Seq (Chr a) (lit_chars (b :: l''))) in H.
      apply Lang_Seq_inv in H. destruct H as (u1 & u2 & -> & H1 & H2).
      apply Lang_Chr_inv in H1. destruct H1 as (x & -> & _).
      simpl. f_equal. now apply IH.
Qed.

(** ** Searching and collecting matches *)

Lemma search_sound (r : regex) (aft bef : list ascii) (s e : cursor) :
  search ic r bef aft = Some (s, e) -> match_at ic r s = Some e.
Proof.
  revert bef. induction aft as [|x rest IH]; intros bef; simpl.
  - destruct (match_at ic r (Cursor bef [])) eqn:Hm; [|discriminate].
    intros H. inversion H; subst. exact Hm.
  - destruct (match_at ic r (Cursor bef (x :: rest))) eqn:Hm.
    + intros H. inversion H; subst. exact Hm.
    + apply IH.
Qed.

Lemma matched_advance (s : cursor) (u rest : list ascii) :
  after s = u ++ rest -> matched s (advance s u rest) = u.
Proof.
  intros H. unfold matched. rewrite (remaining_advance s u rest H).
  replace (List.length u + remaining (advance s u rest)
           - remaining (advance s u rest))%nat with (List.length u) by lia.
  rewrite H. rewrite firstn_app, firstn_all, Nat.sub_diag. simpl.
  now rewrite app_nil_r.
Qed.

Lemma match_at_sound (r : regex) (c e : cursor) :
  boundary_free r = true -> match_at ic r c = Some e ->
  exists u rest, after c = u ++ rest /\ Lang ic r u /\ e = advance c u rest.
Proof.
  intros Hbf H. apply (rmatch_sound r Hbf) in H.
  destruct H as (u & rest & Hc & Hu & He). exists u, rest. repeat split; auto.
  now inversion He.
Qed.

Lemma match_at_complete (r : regex) (c : cursor) (u rest : list ascii) :
  Lang ic r u -> after c = u ++ rest -> match_at ic r c <> None.
Proof.
  intros Hu Hc. apply (rmatch_complete Hu Some c rest Hc). discriminate.
Qed.

(** Every text [match] returns is a text of the pattern. *)
Lemma match_all_from_Lang (r : regex) :
  boundary_free r = true ->
  forall fuel c m, In m (match_all_from ic fuel r c) -> Lang ic r m.
Proof.
  intros Hbf. induction fuel as [|fuel IH]; intros c m; simpl; [tauto|].
  destruct (search ic r (before c) (after c)) as [[s e]|] eqn:Hs; [|simpl; tauto].
  apply search_sound in Hs. apply (match_at_sound _ _ Hbf) in Hs.
  destruct Hs as (u & rest & Hc & Hu & ->).
  rewrite (matched_advance s u rest Hc).
  intros [<-|Hin]; [exact Hu|].
  destruct (remaining (advance s u rest) <? remaining s)%nat.
  - now apply IH in Hin.
  - destruct (after (advance s u rest)); [destruct Hin|now apply IH in Hin].
Qed.

(** ** Splitting *)

Lemma split_loop_nonempty (r : regex) :
  forall n seg c, split_loop ic n r seg c <> [].
Proof.
  induction n as [|n IH]; intros seg [bef aft]; simpl;
    destruct aft as [|x rest]; try discriminate.
  destruct (match_at ic r (Cursor bef (x :: rest))); [|apply IH].
  destruct (remaining c <? remaining (Cursor bef (x :: rest)))%nat; [discriminate|].
  destruct seg; [apply IH|discriminate].
Qed.

(** A text that holds a separator splits into two parts at least. *)
Lemma split_loop_two (sep : regex) :
  boundary_free sep = true ->
  (forall x, Lang ic sep x -> x <> []) ->
  forall a n seg c w b,
    after c = a ++ w ++ b -> Lang ic sep w -> (remaining c <= n)%nat ->
    (2 <= List.length (split_loop ic n sep seg c))%nat.
Proof.
  intros Hbf Hne. induction a as [|y a IH]; intros n seg [bef aft] w b Hc Hw Hn;
    simpl in Hc; unfold remaining in Hn; simpl in Hn.
  - (* the separator is right here *)
    assert (Hm := match_at_complete (Cursor bef aft) b Hw Hc).
    destruct aft as [|x rest].
    { symmetry in Hc. apply app_eq_nil in Hc. destruct Hc as [Hc _].
      now elim (Hne w Hw). }
    destruct n as [|n]; [simpl in Hn; lia|]. simpl.
    destruct (match_at ic sep (Cursor bef (x :: rest))) as [e|] eqn:He; [|now elim Hm].
    apply (match_at_sound _ _ Hbf) in He. destruct He as (u & rest' & Hu & HLu & ->).
    assert (Hlen := remaining_advance (Cursor bef (x :: rest)) u rest' Hu).
    assert (List.length u <> 0)%nat.
    { intros H0. apply length_zero_iff_nil in H0. now elim (Hne u HLu). }
    destruct (Nat.ltb_spec (remaining (advance (Cursor bef (x :: rest)) u rest'))
                           (remaining (Cursor bef (x :: rest)))); [|lia].
    simpl. pose proof (split_loop_nonempty sep n [] (advance (Cursor bef (x :: rest)) u rest')).
    destruct (split_loop ic n sep [] _); [congruence|simpl; lia].
  - subst aft. destruct n as [|n]; [simpl in Hn; lia|]. simpl.
    destruct (match_at ic sep (Cursor bef (y :: a ++ w ++ b))) as [e|] eqn:He.
    + apply (match_at_sound _ _ Hbf) in He. destruct He as (u & rest' & Hu & HLu & ->).
      assert (Hlen := remaining_advance (Cursor bef (y :: a ++ w ++ b)) u rest' Hu).
      assert (List.length u <> 0)%nat.
      { intros H0. apply length_zero_iff_nil in H0. now elim (Hne u HLu). }
      destruct (Nat.ltb_spec
                  (remaining (advance (Cursor bef (y :: a ++ w ++ b)) u rest'))
                  (remaining (Cursor bef (y :: a ++ w ++ b)))); [|lia].
      simpl.
      pose proof (split_loop_nonempty sep n []
                    (advance (Cursor bef (y :: a ++ w ++ b)) u rest')).
      destruct (split_loop ic n sep [] _); [congruence|simpl; lia].
    + apply (IH n (y :: seg) (Cursor (y :: bef) (a ++ w ++ b)) w b);
        [reflexivity|exact Hw|].
      unfold remaining. simpl in *. lia.
Qed.

Lemma split_chars_two (sep : regex) (l a w b : list ascii) :
  boundary_free sep = true ->
  (forall x, Lang ic sep x -> x <> []) ->
  l = a ++ w ++ b -> Lang ic sep w ->
  (2 <= List.length (split_chars ic sep l))%nat.
Proof.
  intros Hbf Hne Hl Hw. unfold split_chars.
  destruct l as [|x l'].
  - symmetry in Hl. apply app_eq_nil in Hl. destruct Hl as [_ Hl].
    apply app_eq_nil in Hl. destruct Hl as [Hl _]. now elim (Hne w Hw).
  - apply split_loop_two with (a := a) (w := w) (b := b); auto.
Qed.

End MatcherFacts.

(* ================================================================== *)
(** * The parser returns *)
(* ================================================================== *)

Lemma chars_str (l : list ascii) : Js.chars (Js.str l) = l.
Proof. apply list_ascii_of_string_of_list_ascii. Qed.

Lemma match_all_Lang (ic : bool) (r : regex) (subject m : string) :
  boundary_free r = true -> In m (match_all ic r subject) -> Lang ic r (Js.chars m).
Proof.
  intros Hbf Hin. unfold match_all in Hin. apply in_map_iff in Hin.
  destruct Hin as (u & <- & Hu). rewrite chars_str.
  eapply match_all_from_Lang; eauto.
Qed.

Lemma linkWord_nonempty (w : list ascii) : Lang true linkWord w -> w <> [].
Proof.
  intros H Hw. subst w. unfold linkWord in H. simpl in H.
  repeat (apply Lang_Alt_inv in H; destruct H as [H|H]);
    apply Lang_lit_length in H; discriminate.
Qed.

Lemma linkWord_separates (w : list ascii) :
  Lang true linkWord w -> Lang true relSeparator w.
Proof.
  intros H. change relSeparator with (Seq (Many Space) (Seq linkWord (Many Space))).
  replace w with ([] ++ (w ++ [])) by (simpl; apply app_nil_r).
  apply Lang_Seq; [apply Lang_StarNil|].
  apply Lang_Seq; [exact H|apply Lang_StarNil].
Qed.

Lemma relSeparator_nonempty (x : list ascii) : Lang true relSeparator x -> x <> [].
Proof.
  change relSeparator with (Seq (Many Space) (Seq linkWord (Many Space))).
  intros H. apply Lang_Seq_inv in H. destruct H as (u1 & u2 & -> & _ & H).
  apply Lang_Seq_inv in H. destruct H as (w & u3 & -> & Hw & _).
  apply linkWord_nonempty in Hw. destruct w; [congruence|].
  destruct u1; discriminate.
Qed.

(** A sequence of patterns with the link word among them matches only
    texts that hold a link word. *)
Lemma seqs_has_link_word (pre post : list regex) (u : list ascii) :
  Lang true (seqs (pre ++ linkWord :: post)) u -> has_link_word u.
Proof.
  revert u. induction pre as [|r pre IH]; intros u H.
  - apply Lang_seqs_inv in H. destruct H as (w & b & -> & Hw & _).
    now exists [], w, b.
  - change ((r :: pre) ++ linkWord :: post) with (r :: (pre ++ linkWord :: post)) in H.
    apply Lang_seqs_inv in H. destruct H as (u1 & u2 & -> & _ & H).
    apply IH in H. destruct H as (a & w & b & -> & Hw).
    exists (u1 ++ a), w, b. split; [now rewrite app_assoc|exact Hw].
Qed.

Lemma relPatterns_link : Forall links relPatterns.
Proof.
  unfold relPatterns.
  repeat constructor; try reflexivity; intros u H.
  - exact (seqs_has_link_word
             [alts (Lit "relationship")
                   [Lit "foreign key"; Lit "FK"; Lit "connection"; Lit "link"];
              Many Space; longIdent; Many Space]
             [Many Space; longIdent] H).
  - exact (seqs_has_link_word
             [alts (Lit "suggest") [Lit "recommend"; Lit "consider"];
              Many Dot; Lit "relationship"; Many Dot; longIdent; Many Space]
             [Many Space; longIdent] H).
  - exact (seqs_has_link_word
             [alts (Lit "you should") [Lit "I recommend"; Lit "consider adding"];
              Many Dot; Lit "relationship"; Many Dot; longIdent; Many Space]
             [Many Space; longIdent] H).
Qed.

Lemma mapResult_total {A B : Type} (f : A -> Result B) (l : list A) :
  (forall a, In a l -> exists b, f a = Ok b) -> exists bs, mapResult f l = Ok bs.
Proof.
  induction l as [|a l IH]; intros H; simpl; [eauto|].
  destruct (H a (or_introl eq_refl)) as (b & ->).
  destruct IH as (bs & ->); [intros; apply H; now right|]. eauto.
Qed.

(** The callback of the relationship stage never finds [parts[1]]
    missing: its argument holds a link word, so it splits in two. *)
Lemma basicRel_total (m : string) :
  has_link_word (Js.chars m) -> exists v, basicRel m = Ok v.
Proof.
  intros (a & w & b & Hm & Hw).
  assert (Hlen : (2 <= List.length (split true relSeparator m))%nat).
  { unfold split. rewrite length_map.
    apply split_chars_two with (a := a) (w := w) (b := b); auto.
    - apply relSeparator_nonempty.
    - now apply linkWord_separates. }
  unfold basicRel.
  destruct (split true relSeparator m) as [|part0 [|part1 parts]];
    try (simpl in Hlen; lia).
  simpl.
  repeat match goal with
         | |- context [if ?b then _ else _] => destruct b
         end; eauto.
Qed.

Lemma push_relationships_nil (s : Suggestions) : push_relationships [] s = s.
Proof. destruct s. unfold push_relationships. simpl. now rewrite app_nil_r. Qed.

Lemma push_tables_nil (s : Suggestions) : push_tables [] s = s.
Proof. destruct s. unfold push_tables. simpl. now rewrite app_nil_r. Qed.

Lemma push_notes_nil (s : Suggestions) : push_notes [] s = s.
Proof. destruct s. unfold push_notes. simpl. now rewrite app_nil_r. Qed.

Lemma push_relationships_app (l1 l2 : list JsValue) (s : Suggestions) :
  push_relationships l2 (push_relationships l1 s) = push_relationships (l1 ++ l2) s.
Proof. unfold push_relationships. simpl. now rewrite app_assoc. Qed.

Lemma push_tables_app (l1 l2 : list JsValue) (s : Suggestions) :
  push_tables l2 (push_tables l1 s) = push_tables (l1 ++ l2) s.
Proof. unfold push_tables. simpl. now rewrite app_assoc. Qed.

Lemma push_notes_app (l1 l2 : list JsValue) (s : Suggestions) :
  push_notes l2 (push_notes l1 s) = push_notes (l1 ++ l2) s.
Proof. unfold push_notes. simpl. now rewrite app_assoc. Qed.

(** The relationship stage returns, and what it pushes does not depend on
    what was found before it. *)
Lemma relPatternsLoop_push (response : string) (patterns : list regex) :
  Forall links patterns ->
  exists rels, forall s,
    relPatternsLoop patterns response s = Ok (push_relationships rels s).
Proof.
  induction 1 as [|pattern patterns [Hbf Hlink] _ (rels' & IH)]; simpl.
  - exists []. intros s. now rewrite push_relationships_nil.
  - destruct (mapResult_total basicRel (match_all true pattern response)) as (rels & ->).
    { intros m Hm. apply basicRel_total. apply Hlink.
      now apply match_all_Lang with (subject := response). }
    exists (dropNull rels ++ rels'). intros s.
    now rewrite IH, push_relationships_app.
Qed.

Lemma relStage_push (response : string) :
  exists rels, forall s, relStage response s = Ok (push_relationships rels s).
Proof. apply relPatternsLoop_push, relPatterns_link. Qed.

Lemma relStage_total (response : string) (s : Suggestions) :
  exists s',
    relStage response s = Ok s'
    /\ tables s' = tables s /\ notes s' = notes s
    /\ optimizations s' = optimizations s /\ sqlQueries s' = sqlQueries s
    /\ general s' = general s.
Proof.
  destruct (relStage_push response) as (rels & H).
  exists (push_relationships rels s). rewrite H. repeat split.
Qed.

Lemma fold_push_tables {A : Type} (f : A -> list JsValue) (l : list A) :
  exists found, forall s,
    fold_left (fun s a => push_tables (f a) s) l s = push_tables found s.
Proof.
  induction l as [|a l (found & IH)]; simpl.
  - exists []. intros s. now rewrite push_tables_nil.
  - exists (f a ++ found). intros s. now rewrite IH, push_tables_app.
Qed.

Lemma fold_push_notes {A : Type} (f : A -> list JsValue) (l : list A) :
  exists found, forall s,
    fold_left (fun s a => push_notes (f a) s) l s = push_notes found s.
Proof.
  induction l as [|a l (found & IH)]; simpl.
  - exists []. intros s. now rewrite push_notes_nil.
  - exists (f a ++ found). intros s. now rewrite IH, push_notes_app.
Qed.

(** Stages 2 to 5 push the same items whatever they start from. *)
Lemma laterStages_push (response : string) :
  exists ts rs ns, forall s,
    laterStages response s
    = Ok (push_notes ns (push_relationships rs (push_tables ts (sqlStage response s))))
    /\ heuristicStages response
       = Ok (push_notes ns (push_relationships rs (push_tables ts noSuggestions))).
Proof.
  destruct (fold_push_tables
              (fun pattern => map basicTable (match_all true pattern response))
              tablePatterns) as (ts & Hts).
  destruct (relStage_push response) as (rs & Hrs).
  destruct (fold_push_notes
              (fun pattern => map noteSuggestion (match_all true pattern response))
              notePatterns) as (ns & Hns).
  exists ts, rs, ns. intros s.
  unfold laterStages, heuristicStages, tableStage, noteStage.
  now rewrite !Hts, !Hrs, !Hns.
Qed.

Lemma sqlStage_keeps (response : string) (s : Suggestions) :
  tables (sqlStage response s) = tables s
  /\ relationships (sqlStage response s) = relationships s
  /\ notes (sqlStage response s) = notes s.
Proof. unfold sqlStage. now destruct (match_all false sqlFence response). Qed.

Lemma length_app_is_zero {A : Type} (a b : list A) :
  (List.length (a ++ b) =? 0)%nat
  = (List.length a =? 0)%nat && (List.length b =? 0)%nat.
Proof. now destruct a, b. Qed.

Section ParserFacts.

Context {host : Host}.

Lemma beforeFallback_total (response : string) :
  exists s, beforeFallback response = Ok s.
Proof.
  unfold beforeFallback.
  destruct (relStage_total response
              (tableStage response
                 (sqlStage response (fst (jsonStage response noSuggestions)))))
    as (s' & -> & _).
  eauto.
Qed.

Lemma parseAIResponse_total (response : string) :
  exists s, result (parseAIResponse response) = Ok s.
Proof.
  unfold parseAIResponse. simpl.
  destruct (beforeFallback_total response) as (s & ->). eauto.
Qed.

(** ** Nothing writes [optimizations] *)

Lemma mergeJsonBlock_optimizations (block : string) (s : Suggestions) :
  optimizations (fst (mergeJsonBlock block s)) = optimizations s.
Proof.
  unfold mergeJsonBlock.
  destruct (JSON_parse _) as [parsed|]; [|reflexivity].
  destruct (getProp parsed "tables") as [t|]; [|reflexivity].
  destruct (getProp parsed "relationships") as [r|];
    [|destruct (isListed t); reflexivity].
  destruct (getProp parsed "notes") as [n|];
    destruct (isListed t), (isListed r); try destruct (isListed n); reflexivity.
Qed.

Lemma mergeJsonBlocks_optimizations (blocks : list string) :
  forall s log, optimizations (fst (mergeJsonBlocks blocks s log)) = optimizations s.
Proof.
  induction blocks as [|b bs IH]; intros s log; simpl; [reflexivity|].
  destruct (mergeJsonBlock b s) as [s' caught] eqn:Hb.
  rewrite IH. change s' with (fst (s', caught)). rewrite <- Hb.
  apply mergeJsonBlock_optimizations.
Qed.

Lemma sqlStage_optimizations (response : string) (s : Suggestions) :
  optimizations (sqlStage response s) = optimizations s.
Proof. unfold sqlStage. now destruct (match_all false sqlFence response). Qed.

Lemma fold_push_optimizations {A : Type} (f : Suggestions -> A -> Suggestions) (l : list A) :
  (forall s a, optimizations (f s a) = optimizations s) ->
  forall s, optimizations (fold_left f l s) = optimizations s.
Proof.
  intros Hf. induction l as [|a l IH]; intros s; simpl; [reflexivity|].
  now rewrite IH, Hf.
Qed.

Lemma withGeneral_optimizations (response : string) (s : Suggestions) :
  optimizations (withGeneral response s) = optimizations s.
Proof. unfold withGeneral. now destruct (nothingFound s). Qed.

Lemma beforeFallback_optimizations (response : string) (s : Suggestions) :
  beforeFallback response = Ok s -> optimizations s = [].
Proof.
  unfold beforeFallback. intros H.
  destruct (relStage_total response
              (tableStage response
                 (sqlStage response (fst (jsonStage response noSuggestions)))))
    as (s' & Hs' & _ & _ & Hopt & _).
  rewrite Hs' in H. inversion H; subst s. clear H.
  unfold noteStage. rewrite fold_push_optimizations by reflexivity.
  rewrite Hopt. unfold tableStage. rewrite fold_push_optimizations by reflexivity.
  rewrite sqlStage_optimizations. unfold jsonStage.
  now rewrite mergeJsonBlocks_optimizations.
Qed.

End ParserFacts.

(* ================================================================== *)
(** * The claims about the parser *)
(* ================================================================== *)

(** C2: for every input text, [parseAIResponse] returns and does not
    throw; on the empty text it returns the suggestions with every
    sequence empty. *)
Theorem parse_never_raises (host : Host) :
  (forall rawText : string, exists s, result (parseAIResponse rawText) = Ok s)
  /\ parseAIResponse "" = {| console := []; result := Ok noSuggestions |}.
Proof.
  split.
  - intros rawText. apply parseAIResponse_total.
  - reflexivity.
Qed.

(** C10: for every input text, [parseAIResponse] returns suggestions whose
    [optimizations] is empty. *)
Theorem optimizations_always_empty (host : Host) (response : string) :
  exists s, result (parseAIResponse response) = Ok s /\ optimizations s = [].
Proof.
  unfold parseAIResponse. simpl.
  destruct (beforeFallback_total response) as (s & Hs). rewrite Hs.
  exists (withGeneral response s). split; [reflexivity|].
  rewrite withGeneral_optimizations. eapply beforeFallback_optimizations; eauto.
Qed.

(** C8, at the text of the scenario: the one relationship suggestion the
    parser returns for "link posts to users" keeps the keyword in the
    name of the source table, and so in the name of its field. *)
Theorem link_posts_to_users_keeps_keyword (host : Host) :
  result (parseAIResponse "link posts to users")
  = Ok {| tables := [];
          relationships := [relObject "link posts" "users" "link posts_id"];
          notes := []; optimizations := []; sqlQueries := []; general := [] |}.
Proof. vm_compute. reflexivity. Qed.

Section ParserClaims.

Context {host : Host}.

Lemma beforeFallback_laterStages (response : string) :
  beforeFallback response = laterStages response (fst (jsonStage response noSuggestions)).
Proof. reflexivity. Qed.

Lemma fallbackRuns_spec (response : string) :
  fallbackRuns response
  = nothingFound (fst (jsonStage response noSuggestions)) && spec_fallbackTrigger response.
Proof.
  unfold fallbackRuns, spec_fallbackTrigger. rewrite beforeFallback_laterStages.
  destruct (laterStages_push response) as (ts & rs & ns & H).
  destruct (H (fst (jsonStage response noSuggestions))) as [-> ->].
  destruct (sqlStage_keeps response (fst (jsonStage response noSuggestions)))
    as (Ht & Hr & Hn).
  unfold nothingFound. simpl. rewrite Ht, Hr, Hn, !length_app_is_zero. simpl.
  repeat match goal with
         | |- context [(List.length ?l =? 0)%nat] =>
             destruct (List.length l =? 0)%nat
         end; reflexivity.
Qed.

Lemma getProp_not_nullish (parsed : JsValue) (key : string) :
  nullish parsed = false -> exists v, getProp parsed key = Ok v.
Proof. destruct parsed; simpl; try discriminate; eauto. Qed.

Lemma isListed_isArray (v : JsValue) : isListed v = isArray v.
Proof. destruct v; unfold isListed; simpl; try apply andb_false_r; reflexivity. Qed.

(** A block whose text parses to something other than [null] brings
    exactly its listed arrays, and nothing is caught. *)
Lemma mergeJsonBlock_good (block : string) (parsed : JsValue) :
  JSON_parse (jsonContent block) = Some parsed -> nullish parsed = false ->
  mergeJsonBlock block noSuggestions = (spec_contribution parsed, None).
Proof.
  intros Hparse Hnn. unfold mergeJsonBlock, spec_contribution, spec_listed.
  rewrite Hparse.
  destruct (getProp_not_nullish parsed "tables" Hnn) as (t & ->).
  destruct (getProp_not_nullish parsed "relationships" Hnn) as (r & ->).
  destruct (getProp_not_nullish parsed "notes" Hnn) as (n & ->).
  rewrite !isListed_isArray.
  destruct t, r, n; reflexivity.
Qed.

Lemma mergeJsonBlock_bad (block : string) (s : Suggestions) :
  JSON_parse (jsonContent block) = None ->
  mergeJsonBlock block s = (s, Some SyntaxError).
Proof. intros H. unfold mergeJsonBlock. now rewrite H. Qed.

End ParserClaims.

(** C3, as amended: when the fenced JSON blocks of a text are a malformed
    one followed by a well-formed one, the fenced-JSON stage brings
    exactly the table, relationship and note arrays of the well-formed
    block and one error is logged for the malformed one; the later stages
    then run over the whole text and add what they find, and the parser
    returns. *)
Theorem malformed_block_is_skipped
        (host : Host) (response bad good : string) (parsed : JsValue) :
  match_all false jsonFence response = [bad; good] ->
  JSON_parse (jsonContent bad) = None ->
  JSON_parse (jsonContent good) = Some parsed ->
  nullish parsed = false ->
  jsonStage response noSuggestions = (spec_contribution parsed, [SyntaxError])
  /\ console (parseAIResponse response) = [SyntaxError]
  /\ exists later,
       laterStages response (spec_contribution parsed) = Ok later
       /\ result (parseAIResponse response) = Ok (withGeneral response later).
Proof.
  intros Hblocks Hbad Hgood Hnn.
  assert (Hjson : jsonStage response noSuggestions
                  = (spec_contribution parsed, [SyntaxError])).
  { unfold jsonStage. rewrite Hblocks. simpl.
    rewrite (mergeJsonBlock_bad bad noSuggestions Hbad).
    now rewrite (mergeJsonBlock_good good Hgood Hnn). }
  split; [exact Hjson|]. split.
  - unfold parseAIResponse. simpl. now rewrite Hjson.
  - destruct (beforeFallback_total response) as (later & Hlater).
    exists later. unfold parseAIResponse. simpl.
    rewrite Hlater. rewrite beforeFallback_laterStages, Hjson in Hlater. now split.
Qed.

(** The amended C3 at a text of two blocks. *)
Lemma malformed_block_is_skipped_witness :
  jsonStage (host := scenarioHost) twoBlocksText noSuggestions
  = (spec_contribution (JObj [("tables", JArr [JObj [("name", JStr "foo")]])]),
     [SyntaxError])
  /\ console (parseAIResponse (host := scenarioHost) twoBlocksText) = [SyntaxError]
  /\ exists later,
       laterStages twoBlocksText
         (spec_contribution (JObj [("tables", JArr [JObj [("name", JStr "foo")]])]))
       = Ok later
       /\ result (parseAIResponse (host := scenarioHost) twoBlocksText)
          = Ok (withGeneral twoBlocksText later).
Proof.
  apply (@malformed_block_is_skipped scenarioHost twoBlocksText
           (fenced "add table users {") (fenced (dq "{'tables':[{'name':'foo'}]}"))
           (JObj [("tables", JArr [JObj [("name", JStr "foo")]])]));
    vm_compute; reflexivity.
Defined.

(** C3 as stated fails: the text of the malformed block is not skipped by
    the later stages, which take two table suggestions from it, so the
    parser returns more than the well-formed block brought. *)
Lemma malformed_block_counterexample :
  match_all false jsonFence twoBlocksText
  = [fenced "add table users {"; fenced (dq "{'tables':[{'name':'foo'}]}")]
  /\ Json.parse (jsonContent (fenced "add table users {")) = None
  /\ Json.parse (jsonContent (fenced (dq "{'tables':[{'name':'foo'}]}")))
     = Some (JObj [("tables", JArr [JObj [("name", JStr "foo")]])])
  /\ result (parseAIResponse (host := scenarioHost) twoBlocksText)
     <> Ok (spec_contribution (JObj [("tables", JArr [JObj [("name", JStr "foo")]])]))
  /\ (exists s, result (parseAIResponse (host := scenarioHost) twoBlocksText) = Ok s
                /\ tables s
                   = [ JObj [("name", JStr "foo")];
                       tableObject "users" "AI-suggested table: users";
                       tableObject "users" "AI-suggested table: users" ]).
Proof.
  repeat split; try (vm_compute; reflexivity).
  - vm_compute. discriminate.
  - eexists. split; vm_compute; reflexivity.
Qed.

(** C9, as amended: the fallback scan runs exactly when nothing has been
    found by the fenced-JSON stage and nothing by the heuristic stages 3
    to 5: the test is on all that was accumulated, the contribution of
    the fenced-JSON stage included.  When it runs its tables and
    relationships are added to the result, otherwise the result is what
    the stages before it found. *)
Theorem fallback_counts_the_json_stage (host : Host) (response : string) :
  fallbackRuns response
  = nothingFound (fst (jsonStage response noSuggestions)) && spec_fallbackTrigger response
  /\ exists s,
       beforeFallback response = Ok s
       /\ result (parseAIResponse response)
          = Ok (if fallbackRuns response
                then push_relationships
                       (g_relationships (extractGeneralSuggestions response))
                       (push_tables (g_tables (extractGeneralSuggestions response)) s)
                else s).
Proof.
  split; [apply fallbackRuns_spec|].
  destruct (beforeFallback_total response) as (s & Hs). exists s.
  split; [exact Hs|].
  unfold parseAIResponse, fallbackRuns, withGeneral. simpl. now rewrite Hs.
Qed.

(** C9 as stated fails: in this text stages 3 to 5 find nothing, yet the
    fallback does not run, because the fenced JSON block brought a
    table; the noun "users" of the text is not turned into a table. *)
Lemma fallback_trigger_counterexample :
  spec_fallbackTrigger blockAndNounText = true
  /\ fallbackRuns (host := scenarioHost) blockAndNounText = false
  /\ ~ (fallbackRuns (host := scenarioHost) blockAndNounText = true
        <-> spec_fallbackTrigger blockAndNounText = true)
  /\ (exists s, result (parseAIResponse (host := scenarioHost) blockAndNounText) = Ok s
                /\ tables s = [JObj [("name", JStr "foo")]]).
Proof.
  assert (H1 : spec_fallbackTrigger blockAndNounText = true) by (vm_compute; reflexivity).
  assert (H2 : fallbackRuns (host := scenarioHost) blockAndNounText = false)
    by (vm_compute; reflexivity).
  repeat split; auto.
  - intros [_ H]. rewrite H2 in H. specialize (H H1). discriminate.
  - eexists. split; vm_compute; reflexivity.
Qed.

(* ================================================================== *)
(** * The claims about the context builder *)
(* ================================================================== *)

Lemma tableNameOf_resolves (tables : list Table) (id : string) :
  resolves tables id (tableNameOf tables id).
Proof.
  unfold resolves, tableNameOf. split.
  - intros Hnone.
    destruct (find (fun t => String.eqb (t_id t) id) tables) as [t|] eqn:Hf;
      [|reflexivity].
    apply find_some in Hf. destruct Hf as [Hin Heq].
    apply String.eqb_eq in Heq. now elim (Hnone t Hin).
  - intros pre t post -> Hid Hpre.
    induction pre as [|t' pre IH]; simpl.
    + apply String.eqb_eq in Hid. now rewrite Hid.
    + destruct (String.eqb (t_id t') id) eqn:Heq.
      * apply String.eqb_eq in Heq. now elim (Hpre t' (or_introl eq_refl)).
      * apply IH. intros t'' Hin. apply Hpre. now right.
Qed.

(** C7, as amended: for every diagram state, one without tables
    included, [buildDiagramContext] returns a context; each relationship
    of the context carries for its two table references the name of the
    table (["unknown"] when no table has the identifier, or when the name
    found is empty), and for its two field references the field
    identifiers themselves, unresolved. *)
Theorem context_resolves_tables_only (diagramState : DiagramState) :
  Forall2
    (fun rel cr =>
       resolves (ds_tables diagramState) (r_startTableId rel) (cr_fromTable cr)
       /\ resolves (ds_tables diagramState) (r_endTableId rel) (cr_toTable cr)
       /\ cr_fromField cr = r_startFieldId rel
       /\ cr_toField cr = r_endFieldId rel)
    (ds_relationships diagramState)
    (dc_relationships (buildDiagramContext diagramState))
  /\ (ds_tables diagramState = [] ->
      Forall (fun cr => cr_fromTable cr = JStr "unknown" /\ cr_toTable cr = JStr "unknown")
             (dc_relationships (buildDiagramContext diagramState))).
Proof.
  unfold buildDiagramContext. simpl. split.
  - induction (ds_relationships diagramState) as [|rel rels IH]; simpl; constructor;
      [|exact IH].
    repeat split; try apply tableNameOf_resolves.
  - intros Hnil. rewrite Hnil. apply Forall_forall. intros cr Hin.
    apply in_map_iff in Hin. destruct Hin as (rel & <- & _). now split.
Qed.

(** The amended C7 at a diagram whose one relationship refers to two
    tables that exist. *)
Lemma context_resolves_tables_only_witness :
  Forall2
    (fun rel cr =>
       resolves (ds_tables blogDiagram) (r_startTableId rel) (cr_fromTable cr)
       /\ resolves (ds_tables blogDiagram) (r_endTableId rel) (cr_toTable cr)
       /\ cr_fromField cr = r_startFieldId rel
       /\ cr_toField cr = r_endFieldId rel)
    (ds_relationships blogDiagram)
    (dc_relationships (buildDiagramContext blogDiagram))
  /\ (ds_tables blogDiagram = [] ->
      Forall (fun cr => cr_fromTable cr = JStr "unknown" /\ cr_toTable cr = JStr "unknown")
             (dc_relationships (buildDiagramContext blogDiagram))).
Proof. exact (context_resolves_tables_only blogDiagram). Defined.

(** C7 as stated fails for the field references: the context of the blog
    diagram names the two tables of its relationship, but gives the
    identifiers [f2] and [f1] where the names of the fields are
    [user_id] and [id]. *)
Lemma field_reference_counterexample :
  map (fun cr => (cr_fromTable cr, cr_toTable cr))
      (dc_relationships (buildDiagramContext blogDiagram))
  = [(JStr "posts", JStr "users")]
  /\ map (fun cr => (JStr (cr_fromField cr), JStr (cr_toField cr)))
         (dc_relationships (buildDiagramContext blogDiagram))
     = [(JStr "f2", JStr "f1")]
  /\ map (fun rel =>
            (spec_fieldNameOf (ds_tables blogDiagram) (r_startTableId rel)
                              (r_startFieldId rel),
             spec_fieldNameOf (ds_tables blogDiagram) (r_endTableId rel)
                              (r_endFieldId rel)))
         (ds_relationships blogDiagram)
     = [(JStr "user_id", JStr "id")]
  /\ map (fun cr => (JStr (cr_fromField cr), JStr (cr_toField cr)))
         (dc_relationships (buildDiagramContext blogDiagram))
     <> map (fun rel =>
               (spec_fieldNameOf (ds_tables blogDiagram) (r_startTableId rel)
                                 (r_startFieldId rel),
                spec_fieldNameOf (ds_tables blogDiagram) (r_endTableId rel)
                                 (r_endFieldId rel)))
            (ds_relationships blogDiagram).
Proof. repeat split; try reflexivity. vm_compute. discriminate. Qed.

(* ================================================================== *)
(** * The claims about the suggestion applier *)
(* ================================================================== *)


(** [find] with a callback that reads a property of a value that has it. *)
Lemma findM_namedBy {A : Type} (name : A -> JsValue) (data : JsValue) (key : string)
      (v : JsValue) (l : list A) (p : Panel) :
  getProp data key = Ok v ->
  findM (namedBy name data key) l p = Done (find (fun t => strict_eq (name t) v) l) p.
Proof.
  intros Hv. induction l as [|a l IH]; simpl; [reflexivity|].
  assert (Ha : namedBy name data key a p = Done (strict_eq (name a) v) p).
  { unfold namedBy, bind, lift, ret. now rewrite Hv. }
  unfold bind at 1. rewrite Ha.
  destruct (strict_eq (name a) v); [reflexivity|exact IH].
Qed.



Section ApplierClaims.

Context {host : Host}.




End ApplierClaims.






(* ================================================================== *)
(** * The handler and the history stacks *)
(* ================================================================== *)

Create HintDb history.

Lemma keeps_ret {A : Type} (a : A) : keepsHistory (ret a).
Proof. intros p. reflexivity. Qed.

Lemma keeps_lift {A : Type} (r : Result A) : keepsHistory (lift r).
Proof. intros p. now destruct r. Qed.

Lemma keeps_gets {A : Type} (f : Panel -> A) : keepsHistory (gets f).
Proof. intros p. reflexivity. Qed.

Lemma keeps_pushError (line : ErrorLine) : keepsHistory (pushError line).
Proof. intros p. reflexivity. Qed.

Lemma keeps_pushAdded (table : Table) : keepsHistory (pushAdded table).
Proof. intros p. reflexivity. Qed.

Lemma keeps_countApplied : keepsHistory countApplied.
Proof. intros p. reflexivity. Qed.

Lemma keeps_freshId {host : Host} : keepsHistory freshId.
Proof. intros p. reflexivity. Qed.

Lemma keeps_onStore (f : Store -> Store) :
  (forall d, history (f d) = history d) -> keepsHistory (onStore f).
Proof. intros Hf p. simpl. apply Hf. Qed.

Lemma keeps_bind {A B : Type} (m : M A) (k : A -> M B) :
  keepsHistory m -> (forall a, keepsHistory (k a)) -> keepsHistory (bind m k).
Proof.
  intros Hm Hk p. unfold bind. specialize (Hm p).
  destruct (m p) as [a p'|e p']; simpl in *; [|exact Hm].
  now rewrite (Hk a p').
Qed.

Lemma keeps_tryCatch {A : Type} (m : M A) (handler : JsError -> M A) :
  keepsHistory m -> (forall e, keepsHistory (handler e)) ->
  keepsHistory (tryCatch m handler).
Proof.
  intros Hm Hh p. unfold tryCatch. specialize (Hm p).
  destruct (m p) as [a p'|e p']; simpl in *; [exact Hm|].
  now rewrite (Hh e p').
Qed.

#[local] Hint Resolve keeps_ret keeps_lift keeps_gets keeps_pushError keeps_pushAdded
  keeps_countApplied keeps_freshId keeps_onStore keeps_bind keeps_tryCatch : history.

Lemma keeps_forEach {A : Type} (body : A -> M unit) (l : list A) :
  (forall a, keepsHistory (body a)) -> keepsHistory (forEach body l).
Proof. intros Hb. induction l; simpl; auto with history. Qed.

Lemma keeps_mapM {A B : Type} (f : A -> M B) (l : list A) :
  (forall a, keepsHistory (f a)) -> keepsHistory (mapM f l).
Proof. intros Hf. induction l; simpl; auto 6 with history. Qed.

Lemma keeps_findM {A : Type} (test : A -> M bool) (l : list A) :
  (forall a, keepsHistory (test a)) -> keepsHistory (findM test l).
Proof.
  intros Ht. induction l as [|a l IH]; simpl; auto with history.
  apply keeps_bind; [apply Ht|]. intros [|]; auto with history.
Qed.

Lemma addTable_skipping (table : Table) (d : Store) :
  history (addTable table true d) = history d.
Proof. reflexivity. Qed.

Lemma addRelationship_skipping (rel : Relationship) (d : Store) :
  history (addRelationship rel true d) = history d.
Proof. reflexivity. Qed.

Lemma addNote_skipping (note : Note) (d : Store) :
  history (addNote note true d) = history d.
Proof. reflexivity. Qed.

Lemma addMessage_history (m : PanelMessage) (d : Store) :
  history (addMessage m d) = history d.
Proof. reflexivity. Qed.

Lemma setErrorState_history (e : string) (d : Store) :
  history (setErrorState e d) = history d.
Proof. reflexivity. Qed.

#[local] Hint Resolve keeps_forEach keeps_mapM keeps_findM addTable_skipping
  addRelationship_skipping addNote_skipping addMessage_history setErrorState_history
  : history.

#[local] Hint Extern 3 (keepsHistory (match ?x with _ => _ end)) => destruct x : history.

Section HandlerHistory.

Context {host : Host}.

Lemma keeps_namedBy {A : Type} (name : A -> JsValue) (data : JsValue) (key : string)
      (a : A) :
  keepsHistory (namedBy name data key a).
Proof. unfold namedBy. auto with history. Qed.

Lemma keeps_newField (field : JsValue) : keepsHistory (newField field).
Proof. unfold newField. auto 20 with history. Qed.

#[local] Hint Resolve keeps_namedBy keeps_newField : history.

Lemma keeps_tableItem (tables : list Table) (tableData : JsValue) :
  keepsHistory (tableItem tables tableData).
Proof. unfold tableItem, addSuggestedTable. auto 20 with history. Qed.

Lemma keeps_pickField (fields : list Field) (relData : JsValue) (key : string) :
  keepsHistory (pickField fields relData key).
Proof. unfold pickField. auto with history. Qed.

#[local] Hint Resolve keeps_pickField : history.

Lemma keeps_relationshipItem (tables : list Table) (relData : JsValue) :
  keepsHistory (relationshipItem tables relData).
Proof. unfold relationshipItem, addSuggestedRelationship. auto 20 with history. Qed.

Lemma keeps_coordinate (noteData : JsValue) (axis : string) (fallback : Z) :
  keepsHistory (coordinate noteData axis fallback).
Proof. unfold coordinate. auto with history. Qed.

#[local] Hint Resolve keeps_coordinate : history.

Lemma keeps_noteItem (noteData : JsValue) : keepsHistory (noteItem noteData).
Proof. unfold noteItem, addSuggestedNote. auto 20 with history. Qed.

Lemma keeps_showResults (content : string) : keepsHistory (showResults content).
Proof. unfold showResults. auto 20 with history. Qed.

#[local] Hint Resolve keeps_tableItem keeps_relationshipItem keeps_noteItem
  keeps_showResults : history.

(** X11: whatever the text and the diagram, a run of the handler leaves
    the undo stack and the redo stack of the store as they were: every
    change it makes goes through a call with [skipHistory] set, and it
    pushes no entry of its own. *)
Lemma handler_keeps_history (content : string) (d : Store) (idsUsed : nat) :
  history (store (handleApplySuggestion content d idsUsed)) = history d.
Proof.
  unfold handleApplySuggestion.
  assert (H : keepsHistory
                (tryCatch (applySuggestions (s_tables d) content)
                   (fun _ => onStore (setErrorState
                                        "Failed to apply suggestion. Please try again.")))).
  { unfold applySuggestions, applyAll. auto 20 with history. }
  specialize (H (enter d idsUsed)).
  destruct (tryCatch _ _ (enter d idsUsed)); exact H.
Qed.

End HandlerHistory.

(* ================================================================== *)
(** * [applyTableSuggestion] and the history stacks *)
(* ================================================================== *)

Section AiActionsFacts.

Variable State : Type.
Variable addTableCb : ActionTable -> State -> State.
Variable setUndoStack : (list ActionEntry -> list ActionEntry) -> State -> State.
Variable setRedoStack : list ActionEntry -> State -> State.
Variable t : string -> JsValue -> string.

(** The two stacks of the state, which the setters set. *)
Variable undo redo : State -> list ActionEntry.
Hypothesis undo_setUndoStack : forall f st, undo (setUndoStack f st) = f (undo st).
Hypothesis undo_setRedoStack : forall v st, undo (setRedoStack v st) = undo st.
Hypothesis redo_setRedoStack : forall v st, redo (setRedoStack v st) = v.

(** X22: on success [applyTableSuggestion] has pushed one entry on the
    undo stack its [addTable] call left, and emptied the redo stack. *)
Lemma applyTableSuggestion_pushes_one (tableData : JsValue) (st st' : State)
      (newTable : ActionTable) :
  applyTableSuggestion addTableCb setUndoStack setRedoStack t tableData st
  = (Success newTable, st') ->
  undo st'
  = undo (addTableCb newTable st)
    ++ [{| ae_action := ADD; ae_element := TABLE;
           ae_message := t "ai_applied_table_suggestion" (at_name newTable);
           ae_data := newTable |}]
  /\ redo st' = [].
Proof.
  unfold applyTableSuggestion.
  destruct (actionTable tableData) as [table|e]; [|discriminate].
  intros H. inversion H; subst. clear H.
  now rewrite undo_setRedoStack, undo_setUndoStack, redo_setRedoStack.
Qed.

End AiActionsFacts.

(* ================================================================== *)
(** * The stages of the parser, one by one *)
(* ================================================================== *)

Lemma NoDup_map_injective {A B : Type} (f : A -> B) (l : list A) :
  (forall x y, f x = f y -> x = y) -> NoDup l -> NoDup (map f l).
Proof.
  intros Hf. induction 1 as [|a l Ha Hl IH]; simpl; constructor; [|exact IH].
  intros Hin. apply in_map_iff in Hin. destruct Hin as (y & Hy & Hin).
  apply Hf in Hy. subst y. contradiction.
Qed.

Lemma getProp_nullish (v : JsValue) (key : string) :
  nullish v = true -> getProp v key = Throw TypeError.
Proof. now destruct v. Qed.

Section ParserStages.
Context {host : Host}.

Lemma nothingFound_true (s : Suggestions) :
  nothingFound s = true -> tables s = [] /\ relationships s = [] /\ notes s = [].
Proof.
  unfold nothingFound. intros H.
  apply andb_prop in H. destruct H as [H Hn]. apply andb_prop in H. destruct H as [Ht Hr].
  apply Nat.eqb_eq, length_zero_iff_nil in Ht, Hr, Hn. auto.
Qed.

(** X16: When the fallback runs, the parser returns the tables and the
    relationships of [extractGeneralSuggestions] and no note: the notes
    the fallback builds are dropped. *)
Theorem fallback_brings_no_notes (response : string) :
  fallbackRuns response = true ->
  exists s,
    result (parseAIResponse response) = Ok s
    /\ tables s = g_tables (extractGeneralSuggestions response)
    /\ relationships s = g_relationships (extractGeneralSuggestions response)
    /\ notes s = [].
Proof.
  unfold fallbackRuns, parseAIResponse. simpl.
  destruct (beforeFallback response) as [s|e]; [|discriminate].
  intros Hnothing. unfold withGeneral. rewrite Hnothing.
  apply nothingFound_true in Hnothing. destruct Hnothing as (Ht & Hr & Hn).
  eexists. split; [reflexivity|]. simpl. now rewrite Ht, Hr, Hn.
Qed.

(** ** The fenced JSON blocks *)

Lemma spec_listed_nullish (parsed : JsValue) (key : string) :
  nullish parsed = true -> spec_listed parsed key = [].
Proof. now destruct parsed. Qed.

Lemma mergeJsonBlock_adds (block : string) (s : Suggestions) :
  mergeJsonBlock block s
  = (push_notes (blockListed "notes" block)
       (push_relationships (blockListed "relationships" block)
          (push_tables (blockListed "tables" block) s)),
     hd_error (blockError block)).
Proof.
  unfold mergeJsonBlock, blockListed, blockError.
  destruct (JSON_parse (jsonContent block)) as [parsed|].
  - destruct (nullish parsed) eqn:Hnull.
    + rewrite !(spec_listed_nullish _ _ Hnull).
      rewrite (@getProp_nullish parsed "tables" Hnull). simpl.
      now rewrite push_tables_nil, push_relationships_nil, push_notes_nil.
    + destruct (getProp_not_nullish parsed "tables" Hnull) as (t & Ht).
      destruct (getProp_not_nullish parsed "relationships" Hnull) as (r & Hr).
      destruct (getProp_not_nullish parsed "notes" Hnull) as (n & Hn).
      unfold spec_listed. rewrite Ht, Hr, Hn, !isListed_isArray. simpl.
      destruct t, r, n; simpl;
        rewrite ?push_tables_nil, ?push_relationships_nil, ?push_notes_nil;
        reflexivity.
  - simpl. now rewrite push_tables_nil, push_relationships_nil, push_notes_nil.
Qed.

Lemma mergeJsonBlocks_adds (blocks : list string) :
  forall s log,
    tables (fst (mergeJsonBlocks blocks s log))
    = tables s ++ flat_map (blockListed "tables") blocks
    /\ relationships (fst (mergeJsonBlocks blocks s log))
       = relationships s ++ flat_map (blockListed "relationships") blocks
    /\ notes (fst (mergeJsonBlocks blocks s log))
       = notes s ++ flat_map (blockListed "notes") blocks
    /\ snd (mergeJsonBlocks blocks s log) = log ++ flat_map blockError blocks.
Proof.
  induction blocks as [|b bs IH]; intros s log; simpl.
  - now rewrite !app_nil_r.
  - rewrite mergeJsonBlock_adds.
    match goal with
    | |- context [mergeJsonBlocks bs ?s' ?log'] =>
        destruct (IH s' log') as (-> & -> & -> & ->)
    end.
    simpl. rewrite <- !app_assoc. repeat split.
    unfold blockError. destruct (JSON_parse (jsonContent b)) as [parsed|]; simpl;
      [destruct (nullish parsed); simpl|]; now rewrite <- ?app_assoc.
Qed.

(** X13: The fenced JSON blocks are merged one by one, in their order: after
    the JSON stage the tables, the relationships and the notes are the
    arrays of the blocks one after the other, a block that does not
    parse, parses to [null] or holds no array bringing nothing; and the
    console holds one entry for each block that does not parse or parses
    to [null]. *)
Theorem json_blocks_are_merged_one_by_one (response : string) :
  tables (fst (jsonStage response noSuggestions))
  = flat_map (blockListed "tables") (match_all false jsonFence response)
  /\ relationships (fst (jsonStage response noSuggestions))
     = flat_map (blockListed "relationships") (match_all false jsonFence response)
  /\ notes (fst (jsonStage response noSuggestions))
     = flat_map (blockListed "notes") (match_all false jsonFence response)
  /\ console (parseAIResponse response)
     = flat_map blockError (match_all false jsonFence response).
Proof.
  unfold parseAIResponse, jsonStage. simpl.
  destruct (mergeJsonBlocks_adds (match_all false jsonFence response) noSuggestions [])
    as (-> & -> & -> & ->).
  repeat split.
Qed.

(** ** The nouns of the fallback *)

Lemma hasName_nounTable (n m : string) : hasName m (nounTable n) = String.eqb n m.
Proof. reflexivity. Qed.

Lemma generalTables_fold (response : string) (l : list string) :
  NoDup l ->
  forall acc,
    (forall n, In n l -> existsb (hasName n) acc = false) ->
    fold_left
      (fun acc tableName =>
         if test true (wholeWord tableName) response then
           if existsb (hasName tableName) acc then acc
           else acc ++ [tableObject tableName
                          ("AI-suggested table based on analysis: " ^^ tableName)]
         else acc)
      l acc
    = acc ++ map nounTable (filter (fun n => test true (wholeWord n) response) l).
Proof.
  induction 1 as [|n l Hnotin Hnodup IH]; intros acc Hacc; simpl.
  - now rewrite app_nil_r.
  - destruct (test true (wholeWord n) response).
    + rewrite (Hacc n (or_introl eq_refl)). rewrite IH.
      * simpl. now rewrite <- app_assoc.
      * intros m Hm. rewrite existsb_app. rewrite (Hacc m (or_intror Hm)).
        change (hasName m (nounTable n) || false = false).
        rewrite hasName_nounTable, orb_false_r.
        apply String.eqb_neq. intros ->. contradiction.
    + apply IH. intros m Hm. apply Hacc. now right.
Qed.

Lemma commonTableNames_NoDup : NoDup commonTableNames.
Proof.
  replace commonTableNames with (nodup string_dec commonTableNames)
    by (vm_compute; reflexivity).
  apply NoDup_nodup.
Qed.

Lemma generalTables_vocabulary (response : string) :
  g_tables (extractGeneralSuggestions response)
  = map nounTable (filter (fun n => test true (wholeWord n) response) commonTableNames).
Proof.
  unfold extractGeneralSuggestions. cbn [g_tables]. unfold generalTables.
  pose proof (@generalTables_fold response commonTableNames commonTableNames_NoDup []
                (fun _ _ => eq_refl)) as Hfold.
  rewrite app_nil_l in Hfold. exact Hfold.
Qed.

(** X17: The tables of the fallback are one table for each noun of the
    vocabulary that stands in the response as a whole word, in the order
    of the vocabulary and not of the response, no table twice. *)
Theorem fallback_tables_follow_the_vocabulary (response : string) :
  g_tables (extractGeneralSuggestions response)
  = map nounTable (filter (fun n => test true (wholeWord n) response) commonTableNames)
  /\ NoDup (g_tables (extractGeneralSuggestions response)).
Proof.
  split; [apply generalTables_vocabulary|].
  rewrite generalTables_vocabulary.
  apply NoDup_map_injective.
  - intros a b Hab. unfold nounTable, tableObject in Hab. now inversion Hab.
  - apply NoDup_filter, commonTableNames_NoDup.
Qed.

(** ** The relationship heuristics *)

Lemma basicRel_plausible (m : string) (rel : JsValue) :
  basicRel m = Ok (Some rel) -> plausibleRelationship rel.
Proof.
  unfold basicRel.
  destruct (nth_error (split true relSeparator m) 0) as [part0|]; [|discriminate].
  destruct (Js.arr_includes excludeWords
              (Js.toLowerCase (Js.trim (replace true relPrefix part0 "")))) eqn:H1;
    [discriminate|].
  destruct (option_map Js.trim (nth_error (split true relSeparator m) 1)) as [toTable|];
    [|discriminate].
  destruct (Js.arr_includes excludeWords (Js.toLowerCase toTable)) eqn:H2; [discriminate|].
  destruct (_ || _) eqn:H3; [discriminate|].
  intros H. inversion H; subst rel. clear H.
  apply orb_false_elim in H3. destruct H3 as [H3 Hl2].
  apply orb_false_elim in H3. destruct H3 as [H3 Hl1].
  apply orb_false_elim in H3. destruct H3 as [Hf Ht].
  apply Nat.ltb_ge in Hf, Ht.
  apply negb_false_iff in Hl1, Hl2.
  eexists _, toTable. repeat split; eauto.
Qed.

Lemma mapResult_Forall {A B : Type} (Q : B -> Prop) (f : A -> Result (option B))
      (l : list A) :
  (forall a b, f a = Ok (Some b) -> Q b) ->
  forall bs, mapResult f l = Ok bs -> Forall Q (dropNull bs).
Proof.
  intros Hf. induction l as [|a l IH]; intros bs; simpl.
  - intros H. inversion H. constructor.
  - destruct (f a) as [[b|]|e] eqn:Ha; try discriminate;
      destruct (mapResult f l) as [bs'|e']; try discriminate;
      intros H; inversion H; subst bs; simpl; [constructor; eauto|eauto].
Qed.

Lemma relPatternsLoop_plausible (response : string) (patterns : list regex) :
  forall s s',
    relPatternsLoop patterns response s = Ok s' ->
    Forall plausibleRelationship (relationships s) ->
    Forall plausibleRelationship (relationships s').
Proof.
  induction patterns as [|pattern patterns IH]; intros s s'; simpl.
  - intros H. now inversion H.
  - destruct (mapResult basicRel (match_all true pattern response)) as [rels|e] eqn:Hm;
      [|discriminate].
    intros H Hs. apply (IH _ _ H). simpl. apply Forall_app. split; [exact Hs|].
    eapply mapResult_Forall; [|exact Hm]. intros a b. apply basicRel_plausible.
Qed.

(** X15: The relationship heuristics never raise, and every suggestion they
    make joins two names of at least two code units each, both holding a
    letter and neither a stop word, by the field named after the first
    table in lower case followed by [_id]. *)
Theorem heuristic_relationships_are_plausible (response : string) :
  exists s,
    relStage response noSuggestions = Ok s
    /\ Forall plausibleRelationship (relationships s).
Proof.
  destruct (relStage_total response noSuggestions) as (s & Hs & _).
  exists s. split; [exact Hs|].
  eapply relPatternsLoop_plausible; [exact Hs|constructor].
Qed.

End ParserStages.

Lemma fallback_brings_no_notes_witness :
  exists s,
    result (parseAIResponse (host := scenarioHost) customersText) = Ok s
    /\ tables s = g_tables (extractGeneralSuggestions customersText)
    /\ relationships s = g_relationships (extractGeneralSuggestions customersText)
    /\ notes s = [].
Proof.
  apply (@fallback_brings_no_notes scenarioHost customersText).
  vm_compute. reflexivity.
Defined.

(* ================================================================== *)
(** * What the heuristics need to find anything *)
(* ================================================================== *)

Section SearchFacts.

Variable ic : bool.

(** A literal matches letter by letter. *)
Lemma Lang_lit_Forall2 (l u : list ascii) :
  Lang ic (lit_chars l) u <-> Forall2 (fun a x => chr_match ic a x = true) l u.
Proof.
  revert u. induction l as [|a l' IH]; intros u.
  - split; intros H.
    + apply Lang_Eps_inv in H. subst. constructor.
    + inversion H. constructor.
  - destruct l' as [|b l''].
    + split; intros H.
      * apply Lang_Chr_inv in H. destruct H as (x & -> & Hx). repeat constructor. exact Hx.
      * inversion H as [|a' x l0 u0 Hx Hrest]; subst. inversion Hrest; subst.
        now constructor.
    + change (lit_chars (a :: b :: l'')) with (Seq (Chr a) (lit_chars (b :: l''))).
      split; intros H.
      * apply Lang_Seq_inv in H. destruct H as (u1 & u2 & -> & H1 & H2).
        apply Lang_Chr_inv in H1. destruct H1 as (x & -> & Hx).
        constructor; [exact Hx|]. now apply IH.
      * inversion H as [|a' x l0 u0 Hx Hrest]; subst.
        change (x :: u0) with ([x] ++ u0).
        apply Lang_Seq; [now constructor|]. now apply IH.
Qed.

Lemma search_subject (r : regex) (aft bef : list ascii) (s e : cursor) :
  search ic r bef aft = Some (s, e) -> subject_of s = rev bef ++ aft.
Proof.
  revert bef. induction aft as [|x rest IH]; intros bef; simpl.
  - destruct (match_at ic r (Cursor bef [])); [|discriminate].
    intros H. now inversion H.
  - destruct (match_at ic r (Cursor bef (x :: rest))).
    + intros H. now inversion H.
    + intros H. apply IH in H. rewrite H. simpl. now rewrite <- app_assoc.
Qed.

(** A text of the pattern somewhere ahead is found by [search]. *)
Lemma search_finds (r : regex) (a u b : list ascii) :
  Lang ic r u -> forall bef, search ic r bef (a ++ u ++ b) <> None.
Proof.
  intros Hu. induction a as [|x a IH]; intros bef.
  - simpl (_ ++ _).
    assert (Hm : match_at ic r (Cursor bef (u ++ b)) <> None)
      by (exact (@match_at_complete ic r (Cursor bef (u ++ b)) u b Hu eq_refl)).
    destruct (u ++ b); simpl; destruct (match_at ic r _); congruence.
  - simpl. destruct (match_at ic r (Cursor bef (x :: a ++ u ++ b))); [discriminate|].
    apply IH.
Qed.

Lemma advance_subject (c : cursor) (u rest : list ascii) :
  after c = u ++ rest -> subject_of (advance c u rest) = subject_of c.
Proof.
  unfold subject_of, advance. simpl. intros ->.
  now rewrite rev_app_distr, rev_involutive, <- app_assoc.
Qed.

(** Every text [match] returns is a part of the subject. *)
Lemma match_all_from_part (r : regex) :
  boundary_free r = true ->
  forall fuel c m, In m (match_all_from ic fuel r c) ->
                   exists a b, subject_of c = a ++ m ++ b.
Proof.
  intros Hbf. induction fuel as [|fuel IH]; intros c m; simpl; [tauto|].
  destruct (search ic r (before c) (after c)) as [[s e]|] eqn:Hs; [|simpl; tauto].
  pose proof (search_subject _ _ _ Hs) as Hsub.
  change (rev (before c) ++ after c) with (subject_of c) in Hsub.
  apply search_sound in Hs. apply (@match_at_sound ic r _ _ Hbf) in Hs.
  destruct Hs as (u & rest & Hc & Hu & ->).
  rewrite (matched_advance s u rest Hc).
  assert (Hnext : forall c', subject_of c' = subject_of c ->
                             In m (match_all_from ic fuel r c') ->
                             exists a b, subject_of c = a ++ m ++ b).
  { intros c' Hc' Hin. rewrite <- Hc'. now apply IH. }
  intros [<-|Hin].
  - exists (rev (before s)), rest. rewrite <- Hsub.
    unfold subject_of. now rewrite Hc.
  - pose proof (@advance_subject s u rest Hc) as Hadv.
    destruct (remaining (advance s u rest) <? remaining s)%nat.
    + apply (Hnext (advance s u rest)); [|exact Hin].
      now rewrite Hadv, Hsub.
    + simpl in Hin. destruct rest as [|x rest']; [destruct Hin|].
      apply (Hnext (Cursor (x :: rev u ++ before s) rest')); [|exact Hin].
      rewrite <- Hsub, <- Hadv. unfold subject_of, advance. simpl.
      now rewrite <- app_assoc.
Qed.

Lemma match_all_part (r : regex) (subject m : string) :
  boundary_free r = true -> In m (match_all ic r subject) ->
  exists a b, Js.chars subject = a ++ Js.chars m ++ b.
Proof.
  intros Hbf Hin. unfold match_all in Hin. apply in_map_iff in Hin.
  destruct Hin as (u & <- & Hu). rewrite chars_str.
  apply (@match_all_from_part r Hbf) in Hu. exact Hu.
Qed.

Lemma test_finds (r : regex) (subject : string) (a u b : list ascii) :
  Lang ic r u -> Js.chars subject = a ++ u ++ b -> test ic r subject = true.
Proof.
  intros Hu Hs. unfold test. rewrite Hs.
  pose proof (search_finds a b Hu []) as H.
  destruct (search ic r [] (a ++ u ++ b)); congruence.
Qed.

End SearchFacts.

Lemma Forall2_canon (l l' w : list ascii) :
  map Js.canon_char l = map Js.canon_char l' ->
  Forall2 (fun a x => chr_match true a x = true) l w ->
  Forall2 (fun a x => chr_match true a x = true) l' w.
Proof.
  intros Hmap H. revert l' Hmap.
  induction H as [|a x l w Hax Hlw IH]; intros [|a' l'] Hmap; try discriminate.
  - constructor.
  - simpl in Hmap. inversion Hmap as [[Ha Hl]]. constructor; [|now apply IH].
    unfold chr_match in *. now rewrite <- Ha.
Qed.

Lemma mentions_left (word : string) (u v : list ascii) :
  mentions word u -> mentions word (u ++ v).
Proof.
  intros (a & w & b & -> & Hw). exists a, w, (b ++ v).
  split; [now rewrite <- !app_assoc|exact Hw].
Qed.

Lemma mentions_right (word : string) (u v : list ascii) :
  mentions word v -> mentions word (u ++ v).
Proof.
  intros (a & w & b & -> & Hw). exists (u ++ a), w, b.
  split; [now rewrite <- !app_assoc|exact Hw].
Qed.

(** A literal that holds the word, in whatever case, matches only texts
    that mention it. *)
Lemma lit_mentions (word : string) (pre mid post u : list ascii) :
  map Js.canon_char mid = map Js.canon_char (Js.chars word) ->
  Lang true (lit_chars (pre ++ mid ++ post)) u -> mentions word u.
Proof.
  intros Hmid H. apply Lang_lit_Forall2 in H.
  apply Forall2_app_inv_l in H. destruct H as (u1 & u' & _ & H & ->).
  apply Forall2_app_inv_l in H. destruct H as (w & u2 & Hw & _ & ->).
  exists u1, w, u2. split; [reflexivity|].
  apply Lang_lit_Forall2. eapply Forall2_canon; eauto.
Qed.

(** A sequence of patterns with the word among them matches only texts
    that mention it. *)
Lemma seqs_mentions (word : string) (pre post : list regex) (u : list ascii) :
  Lang true (seqs (pre ++ Lit word :: post)) u -> mentions word u.
Proof.
  revert u. induction pre as [|r pre IH]; intros u H.
  - apply Lang_seqs_inv in H. destruct H as (w & b & -> & Hw & _).
    now exists [], w, b.
  - change ((r :: pre) ++ Lit word :: post) with (r :: (pre ++ Lit word :: post)) in H.
    apply Lang_seqs_inv in H. destruct H as (u1 & u2 & -> & _ & H).
    apply mentions_right. now apply IH.
Qed.

Lemma tablePatterns_mention_table :
  Forall (fun pattern => boundary_free pattern = true
                         /\ forall u, Lang true pattern u -> mentions "table" u)
         tablePatterns.
Proof.
  unfold tablePatterns. repeat constructor; try reflexivity; intros u H.
  - apply Lang_seqs_inv in H. destruct H as (u1 & u2 & -> & H & _).
    apply mentions_left. simpl alts in H.
    repeat (apply Lang_Alt_inv in H; destruct H as [H|H]).
    + exact (@lit_mentions "table" (Js.chars "CREATE ") (Js.chars "TABLE") [] u1
               eq_refl H).
    + exact (@lit_mentions "table" (Js.chars "Add ") (Js.chars "table") [] u1
               eq_refl H).
    + exact (@lit_mentions "table" [] (Js.chars "Table") (Js.chars ":") u1 eq_refl H).
    + exact (@seqs_mentions "table" [Lit "suggest"; Many Dot] [] u1 H).
    + exact (@seqs_mentions "table" [Lit "recommend"; Many Dot] [] u1 H).
    + exact (@seqs_mentions "table" [Lit "consider"; Many Dot] [] u1 H).
  - exact (@seqs_mentions "table"
             [alts (Lit "missing") [Lit "add"; Lit "create"; Lit "suggest"]; Many Dot]
             [Plus Space; ident] u H).
  - exact (@seqs_mentions "table"
             [alts (Lit "you should") [Lit "I recommend"; Lit "consider adding"];
              Many Dot]
             [Plus Space; ident] u H).
Qed.

(** A pattern all of whose matches hold a text of [inner] finds nothing
    in a response that holds no text of [inner]. *)
Lemma no_part_no_match (inner pattern : regex) (response : string) :
  boundary_free pattern = true ->
  (forall u, Lang true pattern u ->
             exists a w b, u = a ++ w ++ b /\ Lang true inner w) ->
  test true inner response = false ->
  match_all true pattern response = [].
Proof.
  intros Hbf Hpart Htest.
  destruct (match_all true pattern response) as [|m l] eqn:Hm; [reflexivity|].
  assert (Hin : In m (match_all true pattern response)) by (rewrite Hm; now left).
  destruct (@match_all_part true pattern response m Hbf Hin) as (a & b & Hsubject).
  apply (@match_all_Lang true pattern response m Hbf) in Hin. apply Hpart in Hin.
  destruct Hin as (a' & w & b' & Hu & Hw).
  rewrite Hu, <- !app_assoc, app_assoc in Hsubject.
  rewrite (@test_finds true inner response _ w _ Hw Hsubject) in Htest.
  discriminate.
Qed.

(** X14: The table heuristics find nothing in a response that does not hold
    the word [table], in whatever case. *)
Theorem no_table_word_no_table_heuristic (response : string) (s : Suggestions) :
  test true (Lit "table") response = false ->
  tableStage response s = s.
Proof.
  intros Htest. unfold tableStage.
  assert (H : forall patterns,
             Forall (fun pattern => boundary_free pattern = true
                                    /\ forall u, Lang true pattern u -> mentions "table" u)
                    patterns ->
             forall s0,
               fold_left
                 (fun s pattern =>
                    push_tables (map basicTable (match_all true pattern response)) s)
                 patterns s0 = s0).
  { induction 1 as [|pattern patterns [Hbf Hm] _ IH]; intros s0; simpl; [reflexivity|].
    rewrite (@no_part_no_match (Lit "table") pattern response Hbf Hm Htest). simpl.
    rewrite push_tables_nil. apply IH. }
  apply H, tablePatterns_mention_table.
Qed.

Lemma no_table_word_no_table_heuristic_witness :
  tableStage customersText noSuggestions = noSuggestions.
Proof.
  apply (@no_table_word_no_table_heuristic customersText noSuggestions).
  vm_compute. reflexivity.
Defined.

(* ================================================================== *)
(** * A run of the handler, step by step *)
(* ================================================================== *)

Lemma withIds_same (p : Panel) : withIds (nextId p) p = p.
Proof. now destruct p. Qed.

Lemma run_trans {host : Host} (tables : list Table) (p q r : Panel) :
  run tables p q -> run tables q r -> run tables p r.
Proof. induction 1; eauto using run_step. Qed.

Lemma run_one {host : Host} (tables : list Table) (p q : Panel) :
  step tables p q -> run tables p q.
Proof. intros H. eapply run_step; [exact H|apply run_stop]. Qed.

Section HandlerCases.
Context {host : Host}.

Lemma newField_cases (field : JsValue) (p : Panel) :
  (nullish field = true
   /\ newField field p = Raised TypeError (withIds (S (nextId p)) p))
  \/ (exists f, newField field p = Done f (withIds (S (nextId p)) p)
                /\ f_id f = nanoid (nextId p)).
Proof.
  destruct field; try (left; split; reflexivity);
    right; eexists; split; reflexivity.
Qed.

Lemma mapM_cons {A B : Type} (f : A -> M B) (a : A) (l : list A) (p : Panel) :
  mapM f (a :: l) p
  = match f a p with
    | Done b p' =>
        match mapM f l p' with
        | Done bs p'' => Done (b :: bs) p''
        | Raised e p'' => Raised e p''
        end
    | Raised e p' => Raised e p'
    end.
Proof. reflexivity. Qed.

Lemma mapM_newField (l : list JsValue) :
  forall p,
    (exists fs, mapM newField l p = Done fs (withIds (nextId p + List.length l) p)
                /\ map f_id fs = map nanoid (seq (nextId p) (List.length l)))
    \/ (exists n, mapM newField l p = Raised TypeError (withIds n p)
                  /\ (nextId p < n)%nat).
Proof.
  induction l as [|field l IH]; intros p.
  - left. exists []. simpl. rewrite Nat.add_0_r, withIds_same. now split.
  - rewrite mapM_cons.
    destruct (newField_cases field p) as [[_ ->]|(f & -> & Hf)].
    + right. exists (S (nextId p)). split; [reflexivity|lia].
    + destruct (IH (withIds (S (nextId p)) p)) as [(fs & -> & Hfs)|(n & -> & Hn)].
      * left. exists (f :: fs). simpl in *. split.
        -- f_equal. unfold withIds. simpl. f_equal. lia.
        -- now rewrite Hf, Hfs.
      * right. exists n. simpl in *. split; [reflexivity|lia].
Qed.

Lemma findM_namedBy_nullish {A : Type} (name : A -> JsValue) (data : JsValue)
      (key : string) (a : A) (l : list A) (p : Panel) :
  nullish data = true ->
  findM (namedBy name data key) (a :: l) p = Raised TypeError p.
Proof.
  intros H. simpl. unfold bind, namedBy, lift, bind. now rewrite (getProp_nullish _ _ H).
Qed.

Lemma tableItem_eq (tables : list Table) (tableData name fieldsValue comment : JsValue)
      (p : Panel) :
  getProp tableData "name" = Ok name ->
  getProp tableData "fields" = Ok fieldsValue ->
  getProp tableData "comment" = Ok comment ->
  tableItem tables tableData p
  = match find (fun t => strict_eq (t_name t) name) tables with
    | Some _ => Done tt p
    | None =>
        match asArray fieldsValue with
        | Throw e =>
            Done tt (withError (FailedToAddTable name e) (withIds (S (nextId p)) p))
        | Ok fieldList =>
            match mapM newField fieldList (withIds (S (nextId p)) p) with
            | Done fields q =>
                Done tt (withTable
                           (builtTable (nanoid (nextId p)) name (appliedCount p) fields
                                       comment) q)
            | Raised e q => Done tt (withError (FailedToAddTable name e) q)
            end
        end
    end.
Proof.
  intros Hname Hfields Hcomment.
  unfold tableItem, tryCatch, addSuggestedTable. unfold bind at 1.
  rewrite (findM_namedBy t_name tableData "name" tables p Hname).
  destruct (find (fun t => strict_eq (t_name t) name) tables); [reflexivity|].
  unfold bind, lift, gets, freshId. rewrite Hname, Hfields.
  destruct (asArray fieldsValue) as [fieldList|e]; [|reflexivity].
  change {| store := store p; nextId := S (nextId p); appliedCount := appliedCount p;
            errors := errors p; addedTables := addedTables p |}
    with (withIds (S (nextId p)) p).
  destruct (mapM newField fieldList (withIds (S (nextId p)) p)) as [fields q|e q].
  - rewrite Hcomment. reflexivity.
  - reflexivity.
Qed.

Lemma tableItem_cases (tables : list Table) (tableData : JsValue) (p : Panel) :
  (tableItem tables tableData p = Done tt p
   /\ exists name existing,
        getProp tableData "name" = Ok name /\ In existing tables
        /\ strict_eq (t_name existing) name = true)
  \/ (exists t,
        tableItem tables tableData p
        = Done tt (withTable t (withIds (S (nextId p) + List.length (t_fields t)) p))
        /\ newTableFor tables tableData p t)
  \/ (exists name e n,
        tableItem tables tableData p
        = Done tt (withError (FailedToAddTable name e) (withIds n p))
        /\ (nextId p < n)%nat /\ getProp tableData "name" = Ok name)
  \/ (exists n,
        tableItem tables tableData p = Raised TypeError (withIds n p)
        /\ (nextId p <= n)%nat /\ nullish tableData = true).
Proof.
  destruct (nullish tableData) eqn:Hnull.
  - (* null or undefined *)
    right. right. right.
    destruct tables as [|existing tables].
    + exists (S (nextId p)). split; [|split; [lia|reflexivity]].
      destruct tableData; try discriminate; reflexivity.
    + exists (nextId p). rewrite withIds_same. split; [|split; [lia|reflexivity]].
      unfold tableItem, tryCatch, addSuggestedTable. unfold bind at 1.
      rewrite (findM_namedBy_nullish _ _ _ _ _ _ Hnull).
      unfold bind, lift. now rewrite (getProp_nullish _ _ Hnull).
  - destruct (getProp_not_nullish tableData "name" Hnull) as (name & Hname).
    destruct (getProp_not_nullish tableData "fields" Hnull) as (fieldsValue & Hfields).
    destruct (getProp_not_nullish tableData "comment" Hnull) as (comment & Hcomment).
    rewrite (@tableItem_eq tables tableData name fieldsValue comment p Hname Hfields Hcomment).
    destruct (find (fun t => strict_eq (t_name t) name) tables) as [existing|] eqn:Hfind.
    + left. split; [reflexivity|].
      apply find_some in Hfind. destruct Hfind. now exists name, existing.
    + right. destruct (asArray fieldsValue) as [fieldList|e].
      * destruct (mapM_newField fieldList (withIds (S (nextId p)) p))
          as [(fs & Hm & Hids)|(n & Hm & Hn)]; rewrite Hm; simpl in *.
        -- left. exists (builtTable (nanoid (nextId p)) name (appliedCount p) fs comment).
           assert (Hlen : List.length fs = List.length fieldList).
           { apply (f_equal (@List.length _)) in Hids.
             now rewrite !length_map, length_seq in Hids. }
           split.
           ++ simpl. rewrite Hlen. reflexivity.
           ++ constructor; simpl; auto.
              ** intros existing Hin.
                 apply (find_none _ _ Hfind existing Hin).
              ** now rewrite Hlen.
        -- right. left. exists name, TypeError, n.
           split; [reflexivity|split; [lia|exact Hname]].
      * right. left. exists name, e, (S (nextId p)).
        split; [reflexivity|split; [lia|exact Hname]].
Qed.

Lemma chosenField_In (fields : list Field) (v : JsValue) (f : Field) :
  chosenField fields v = Some f -> In f fields.
Proof.
  unfold chosenField, orElse.
  destruct (find (fun f => strict_eq (f_name f) v) fields) eqn:H1.
  { intros H. inversion H; subst. now apply find_some in H1. }
  destruct (find (fun f => truthy (f_primary f)) fields) eqn:H2.
  { intros H. inversion H; subst. now apply find_some in H2. }
  destruct fields; simpl; [discriminate|]. intros H. inversion H. now left.
Qed.

Lemma pickField_eq (fields : list Field) (relData v : JsValue) (key : string) (p : Panel) :
  getProp relData key = Ok v ->
  pickField fields relData key p = Done (chosenField fields v) p.
Proof.
  intros Hv. unfold pickField. unfold bind at 1.
  now rewrite (findM_namedBy f_name relData key fields p Hv).
Qed.

Lemma relationshipItem_null (tables : list Table) (relData : JsValue) (p : Panel) :
  nullish relData = true -> relationshipItem tables relData p = Raised TypeError p.
Proof.
  intros Hnull.
  unfold relationshipItem, tryCatch, addSuggestedRelationship.
  unfold bind at 1. unfold gets at 1.
  destruct (tables ++ addedTables p) as [|t l] eqn:Hall.
  - simpl. unfold bind, lift, ret. rewrite (getProp_nullish _ _ Hnull). reflexivity.
  - unfold bind at 1.
    rewrite (findM_namedBy_nullish t_name relData "fromTable" t l p Hnull).
    unfold bind, lift. now rewrite (getProp_nullish _ _ Hnull).
Qed.

Lemma relationshipItem_eq (tables : list Table)
      (relData fromTable toTable fromField toField cardinality constraint : JsValue)
      (p : Panel) :
  getProp relData "fromTable" = Ok fromTable ->
  getProp relData "toTable" = Ok toTable ->
  getProp relData "fromField" = Ok fromField ->
  getProp relData "toField" = Ok toField ->
  getProp relData "cardinality" = Ok cardinality ->
  getProp relData "constraint" = Ok constraint ->
  relationshipItem tables relData p
  = match find (fun t => strict_eq (t_name t) fromTable) (tables ++ addedTables p),
          find (fun t => strict_eq (t_name t) toTable) (tables ++ addedTables p) with
    | Some sourceTable, Some targetTable =>
        match chosenField (t_fields sourceTable) fromField,
              chosenField (t_fields targetTable) toField with
        | Some sourceField, Some targetField =>
            Done tt (withRelationship
                       (builtRelationship (nanoid (nextId p)) sourceTable targetTable
                                          sourceField targetField cardinality constraint)
                       (withIds (S (nextId p)) p))
        | _, _ => Done tt (withError (FieldsNotFound fromTable toTable) p)
        end
    | _, _ => Done tt (withError (TablesNotFound fromTable toTable) p)
    end.
Proof.
  intros Hft Htt Hff Htf Hcard Hcons.
  unfold relationshipItem, tryCatch, addSuggestedRelationship.
  unfold bind at 1. unfold gets at 1.
  unfold bind at 1. rewrite (findM_namedBy t_name relData "fromTable" _ p Hft).
  unfold bind at 1. rewrite (findM_namedBy t_name relData "toTable" _ p Htt).
  destruct (find (fun t => strict_eq (t_name t) fromTable) (tables ++ addedTables p))
    as [sourceTable|];
    [destruct (find (fun t => strict_eq (t_name t) toTable) (tables ++ addedTables p))
       as [targetTable|]|];
    try (unfold bind, lift, pushError; rewrite Hft, Htt; reflexivity).
  unfold bind at 1. rewrite (@pickField_eq _ _ _ _ p Hff).
  unfold bind at 1. rewrite (@pickField_eq _ _ _ _ p Htf).
  destruct (chosenField (t_fields sourceTable) fromField) as [sourceField|];
    [destruct (chosenField (t_fields targetTable) toField) as [targetField|]|];
    try (unfold bind, lift, pushError; rewrite Hft, Htt; reflexivity).
  unfold bind, lift, freshId. rewrite Hcard, Hcons. reflexivity.
Qed.

Lemma getOptional_ok (position : JsValue) (axis : string) :
  getOptional position axis = Ok (optionalValue position axis).
Proof. unfold optionalValue. now destruct position. Qed.

Lemma noteItem_null (noteData : JsValue) (p : Panel) :
  nullish noteData = true ->
  noteItem noteData p
  = Done tt (withError (FailedToAddNote TypeError) (withIds (S (nextId p)) p)).
Proof. destruct noteData; try discriminate; reflexivity. Qed.

Lemma noteItem_eq (noteData content position : JsValue) (p : Panel) :
  getProp noteData "content" = Ok content ->
  getProp noteData "position" = Ok position ->
  noteItem noteData p
  = match asString content with
    | Ok _ =>
        Done tt (counted
                   (withNote (builtNote (nanoid (nextId p)) content position
                                        (appliedCount p))
                             (withIds (S (nextId p)) p)))
    | Throw e =>
        Done tt (withError (FailedToAddNote e)
                   (withNote (builtNote (nanoid (nextId p)) content position
                                        (appliedCount p))
                             (withIds (S (nextId p)) p)))
    end.
Proof.
  intros Hcontent Hposition.
  unfold noteItem, tryCatch, addSuggestedNote, coordinate.
  unfold bind, lift, freshId, gets. rewrite Hcontent, Hposition.
  rewrite !getOptional_ok.
  destruct (asString content); reflexivity.
Qed.

(** ** Every item is a run of steps *)

Lemma tableItem_run (tables : list Table) (tableData : JsValue) (p : Panel) :
  run tables p (panelOf (tableItem tables tableData p)).
Proof.
  destruct (tableItem_cases tables tableData p)
    as [[-> _]|[(t & -> & Ht)|[(name & e & n & -> & Hn & _)|(n & -> & Hn & _)]]]; simpl.
  - apply run_stop.
  - apply run_one. eapply step_table; eauto.
  - eapply run_step; [apply step_ids with (n := n); lia|].
    apply run_one. apply step_error.
  - apply run_one. now apply step_ids.
Qed.

Lemma relationshipItem_run (tables : list Table) (relData : JsValue) (p : Panel) :
  run tables p (panelOf (relationshipItem tables relData p)).
Proof.
  destruct (nullish relData) eqn:Hnull.
  - rewrite (relationshipItem_null tables relData p Hnull). apply run_stop.
  - destruct (getProp_not_nullish relData "fromTable" Hnull) as (fromTable & Hft).
    destruct (getProp_not_nullish relData "toTable" Hnull) as (toTable & Htt).
    destruct (getProp_not_nullish relData "fromField" Hnull) as (fromField & Hff).
    destruct (getProp_not_nullish relData "toField" Hnull) as (toField & Htf).
    destruct (getProp_not_nullish relData "cardinality" Hnull) as (cardinality & Hcard).
    destruct (getProp_not_nullish relData "constraint" Hnull) as (constraint & Hcons).
    rewrite (@relationshipItem_eq tables _ _ _ _ _ _ _ p Hft Htt Hff Htf Hcard Hcons).
    destruct (find (fun t => strict_eq (t_name t) fromTable) (tables ++ addedTables p))
      as [sourceTable|] eqn:Hs; [|apply run_one, step_error].
    destruct (find (fun t => strict_eq (t_name t) toTable) (tables ++ addedTables p))
      as [targetTable|] eqn:Ht; [|apply run_one, step_error].
    destruct (chosenField (t_fields sourceTable) fromField) as [sourceField|] eqn:Hsf;
      [|apply run_one, step_error].
    destruct (chosenField (t_fields targetTable) toField) as [targetField|] eqn:Htf';
      [|apply run_one, step_error].
    apply run_one. apply step_relationship with (relData := relData).
    apply find_some in Hs, Ht. destruct Hs, Ht.
    apply chosenField_In in Hsf, Htf'.
    constructor; [reflexivity|].
    exists sourceTable, targetTable, sourceField, targetField, fromTable, toTable.
    repeat split; auto.
Qed.

Lemma noteItem_run (tables : list Table) (noteData : JsValue) (p : Panel) :
  run tables p (panelOf (noteItem noteData p)).
Proof.
  destruct (nullish noteData) eqn:Hnull.
  - rewrite (noteItem_null noteData p Hnull). simpl.
    eapply run_step; [apply step_ids with (n := S (nextId p)); lia|].
    apply run_one, step_error.
  - destruct (getProp_not_nullish noteData "content" Hnull) as (content & Hc).
    destruct (getProp_not_nullish noteData "position" Hnull) as (position & Hp).
    rewrite (@noteItem_eq _ _ _ p Hc Hp).
    assert (Hnote : step tables p
                      (withNote (builtNote (nanoid (nextId p)) content position
                                           (appliedCount p))
                                (withIds (S (nextId p)) p))).
    { apply step_note with (noteData := noteData). now constructor. }
    destruct (asString content); simpl.
    + eapply run_step; [exact Hnote|]. apply run_one, step_counted.
    + eapply run_step; [exact Hnote|]. apply run_one, step_error.
Qed.

Lemma forEach_run {A : Type} (tables : list Table) (body : A -> M unit) (l : list A) :
  (forall a p, run tables p (panelOf (body a p))) ->
  forall p, run tables p (panelOf (forEach body l p)).
Proof.
  intros Hbody. induction l as [|a l IH]; intros p; simpl; [apply run_stop|].
  unfold bind. specialize (Hbody a p).
  destruct (body a p) as [[] q|e q]; simpl in *; [|exact Hbody].
  eapply run_trans; [exact Hbody|apply IH].
Qed.

Lemma applyAll_run (rendered : list Table) (suggestions : Suggestions) (p : Panel) :
  run rendered p (panelOf (applyAll rendered suggestions p)).
Proof.
  unfold applyAll, bind.
  pose proof (@forEach_run _ rendered (tableItem rendered) (tables suggestions)
                           (tableItem_run rendered) p) as H1.
  destruct (forEach (tableItem rendered) _ p) as [[] p1|e p1]; simpl in *; [|exact H1].
  pose proof (@forEach_run _ rendered (relationshipItem rendered)
                           (relationships suggestions)
                           (relationshipItem_run rendered) p1) as H2.
  destruct (forEach (relationshipItem rendered) _ p1) as [[] p2|e p2]; simpl in *;
    [|eapply run_trans; eauto].
  eapply run_trans; [exact H1|]. eapply run_trans; [exact H2|].
  apply (@forEach_run _ rendered noteItem (notes suggestions) (noteItem_run rendered) p2).
Qed.

(** "Show results" always completes and only posts messages. *)
Lemma showResults_posts (content : string) (p : Panel) :
  exists posted,
    showResults content p
    = Done tt (withStore (fun d => fold_left (fun d m => addMessage m d) posted d) p)
    /\ posted <> [].
Proof.
  unfold showResults, bind, gets, onStore, ret.
  destruct (appliedCount p) as [|count]; destruct (errors p) as [|line lines] eqn:He;
    simpl.
  - exists [if hasGeneralAdvice content then GeneralAdviceHint else NothingActionable].
    split; [reflexivity|discriminate].
  - exists [NotApplied (line :: lines)]. split; [reflexivity|discriminate].
  - exists [Applied (S count)]. split; [reflexivity|discriminate].
  - exists [Applied (S count); NotApplied (line :: lines)].
    split; [reflexivity|discriminate].
Qed.

(** A run of the handler: the items make steps, then either the results
    are shown or the outer [catch] sets the error state. *)
Lemma handler_run (content : string) (d : Store) (idsUsed : nat) :
  exists q,
    run (s_tables d) (enter d idsUsed) q
    /\ (handleApplySuggestion content d idsUsed = aborted q
        \/ exists posted,
             posted <> []
             /\ handleApplySuggestion content d idsUsed
                = withStore (fun d => fold_left (fun d m => addMessage m d) posted d) q).
Proof.
  unfold handleApplySuggestion, tryCatch, applySuggestions.
  unfold bind at 1. unfold lift.
  destruct (result (parseAIResponse content)) as [suggestions|e].
  - unfold bind.
    pose proof (applyAll_run (s_tables d) suggestions (enter d idsUsed)) as H1.
    destruct (applyAll (s_tables d) suggestions (enter d idsUsed)) as [[] p1|e p1];
      simpl in *.
    + exists p1. split; [exact H1|]. right.
      destruct (showResults_posts content p1) as (posted & -> & Hne).
      now exists posted.
    + exists p1. split; [exact H1|]. now left.
  - exists (enter d idsUsed). split; [apply run_stop|]. now left.
Qed.


Lemma run_invariant (tables : list Table) (I : Panel -> Prop) :
  (forall p q, step tables p q -> I p -> I q) ->
  forall p q, run tables p q -> I p -> I q.
Proof. intros Hstep p q Hrun. induction Hrun; eauto. Qed.

(** The final panel differs from the panel the items left only in the
    messages and the error state of the store. *)
Lemma handler_final (content : string) (d : Store) (idsUsed : nat) :
  exists q,
    run (s_tables d) (enter d idsUsed) q
    /\ s_tables (store (handleApplySuggestion content d idsUsed)) = s_tables (store q)
    /\ s_relationships (store (handleApplySuggestion content d idsUsed))
       = s_relationships (store q)
    /\ s_notes (store (handleApplySuggestion content d idsUsed)) = s_notes (store q)
    /\ appliedCount (handleApplySuggestion content d idsUsed) = appliedCount q
    /\ errors (handleApplySuggestion content d idsUsed) = errors q
    /\ addedTables (handleApplySuggestion content d idsUsed) = addedTables q
    /\ nextId (handleApplySuggestion content d idsUsed) = nextId q.
Proof.
  destruct (handler_run content d idsUsed) as (q & Hrun & [->|(posted & _ & ->)]);
    exists q; (split; [exact Hrun|]).
  - repeat split.
  - assert (H : forall d0,
               s_tables (fold_left (fun d m => addMessage m d) posted d0) = s_tables d0
               /\ s_relationships (fold_left (fun d m => addMessage m d) posted d0)
                  = s_relationships d0
               /\ s_notes (fold_left (fun d m => addMessage m d) posted d0) = s_notes d0).
    { induction posted as [|m posted IH]; intros d0; simpl; [repeat split|].
      destruct (IH (addMessage m d0)) as (-> & -> & ->). repeat split. }
    simpl. destruct (H (store q)) as (-> & -> & ->). repeat split.
Qed.

(** The tables of the store after a run are those before and those the
    run added. *)
Lemma handler_tables_appended (content : string) (d : Store) (idsUsed : nat) :
  s_tables (store (handleApplySuggestion content d idsUsed))
  = s_tables d ++ addedTables (handleApplySuggestion content d idsUsed).
Proof.
  destruct (handler_final content d idsUsed)
    as (q & Hrun & -> & _ & _ & _ & _ & -> & _).
  apply (run_invariant
           (fun p => s_tables (store p) = s_tables d ++ addedTables p)
           (tables := s_tables d)) with (p := enter d idsUsed); [|exact Hrun|].
  - intros p p' Hstep Ht. destruct Hstep; simpl; try assumption.
    now rewrite Ht, app_assoc.
  - simpl. now rewrite app_nil_r.
Qed.

(** X1: Whatever the text, a run of the handler only appends to the diagram:
    the tables of the store afterwards are the tables before followed by
    the tables the run added, and the relationships and the notes that
    were there before are still there, at the front and in their order. *)
Theorem handler_only_appends (content : string) (d : Store) (idsUsed : nat) :
  s_tables (store (handleApplySuggestion content d idsUsed))
  = s_tables d ++ addedTables (handleApplySuggestion content d idsUsed)
  /\ (exists rels,
        s_relationships (store (handleApplySuggestion content d idsUsed))
        = s_relationships d ++ rels)
  /\ (exists added,
        s_notes (store (handleApplySuggestion content d idsUsed)) = s_notes d ++ added).
Proof.
  destruct (handler_final content d idsUsed)
    as (q & Hrun & -> & -> & -> & _ & _ & -> & _).
  apply (run_invariant
           (fun p => s_tables (store p) = s_tables d ++ addedTables p
                     /\ (exists rels, s_relationships (store p) = s_relationships d ++ rels)
                     /\ (exists added, s_notes (store p) = s_notes d ++ added))
           (tables := s_tables d)) with (p := enter d idsUsed); [|exact Hrun|].
  - intros p p' Hstep (Ht & (rels & Hr) & (added & Hn)).
    destruct Hstep; simpl; try (now eauto).
    + rewrite Ht, app_assoc. eauto.
    + rewrite Hr, <- app_assoc. eauto.
    + rewrite Hn, <- app_assoc. eauto.
  - simpl. rewrite app_nil_r. split; [reflexivity|].
    split; exists []; now rewrite app_nil_r.
Qed.


(** X2: No table a run adds has the name of a table the panel was rendered
    with. *)
Theorem added_names_are_new (content : string) (d : Store) (idsUsed : nat) :
  Forall (fun added =>
            Forall (fun existing => strict_eq (t_name existing) (t_name added) = false)
                   (s_tables d))
         (addedTables (handleApplySuggestion content d idsUsed)).
Proof.
  apply Forall_forall. intros added Hadded. apply Forall_forall. intros existing.
  revert added Hadded existing.
  destruct (handler_final content d idsUsed) as (q & Hrun & _ & _ & _ & _ & _ & -> & _).
  intros added Hadded existing. revert added existing Hadded.
  apply (run_invariant
           (fun p => forall added existing,
                In added (addedTables p) -> In existing (s_tables d) ->
                strict_eq (t_name existing) (t_name added) = false)
           (tables := s_tables d)) with (p := enter d idsUsed); [|exact Hrun|].
  - intros p p' Hstep IH added existing.
    destruct Hstep; simpl; try (now apply IH).
    intros Hin Hex. apply in_app_or in Hin. destruct Hin as [Hin|[<-|[]]].
    + now apply IH.
    + now apply (nt_unseen H).
  - intros added existing [].
Qed.

(** X4: Every relationship of the store after a run was there before or
    joins a field of a table of the store to a field of a table of the
    store: the handler adds no relationship with a loose end. *)
Theorem added_relationships_resolve (content : string) (d : Store) (idsUsed : nat) :
  Forall (fun r =>
            In r (s_relationships d)
            \/ joinsFieldsOf
                 (s_tables (store (handleApplySuggestion content d idsUsed))) r)
         (s_relationships (store (handleApplySuggestion content d idsUsed))).
Proof.
  apply Forall_forall. unfold joinsFieldsOf.
  destruct (handler_final content d idsUsed) as (q & Hrun & -> & -> & _).
  assert (H : s_tables (store q) = s_tables d ++ addedTables q
              /\ forall r, In r (s_relationships (store q)) ->
                   In r (s_relationships d)
                   \/ exists sourceTable targetTable sourceField targetField,
                        In sourceTable (s_tables (store q))
                        /\ In targetTable (s_tables (store q))
                        /\ In sourceField (t_fields sourceTable)
                        /\ In targetField (t_fields targetTable)
                        /\ r_startTableId r = t_id sourceTable
                        /\ r_endTableId r = t_id targetTable
                        /\ r_startFieldId r = f_id sourceField
                        /\ r_endFieldId r = f_id targetField);
    [|exact (proj2 H)].
  apply (run_invariant
           (fun p => s_tables (store p) = s_tables d ++ addedTables p
                     /\ forall r, In r (s_relationships (store p)) ->
                          In r (s_relationships d)
                          \/ exists sourceTable targetTable sourceField targetField,
                               In sourceTable (s_tables (store p))
                               /\ In targetTable (s_tables (store p))
                               /\ In sourceField (t_fields sourceTable)
                               /\ In targetField (t_fields targetTable)
                               /\ r_startTableId r = t_id sourceTable
                               /\ r_endTableId r = t_id targetTable
                               /\ r_startFieldId r = f_id sourceField
                               /\ r_endFieldId r = f_id targetField)
           (tables := s_tables d)) with (p := enter d idsUsed); [|exact Hrun|].
  - intros p p' Hstep (Ht & IH).
    destruct Hstep; simpl; try (now split).
    + split; [now rewrite Ht, app_assoc|].
      intros r Hr. destruct (IH r Hr) as [Hold|(st & tt' & sf & tf & Hs & Htt & Hrest)];
        [now left|right].
      exists st, tt', sf, tf. repeat split; try tauto; apply in_or_app; now left.
    + split; [exact Ht|].
      intros r' Hr. apply in_app_or in Hr. destruct Hr as [Hr|[<-|[]]].
      * exact (IH r' Hr).
      * right. destruct (nr_ends H)
          as (st & tt' & sf & tf & ft & tot & Hs & Htt & _ & _ & _ & _ & Hrest).
        exists st, tt', sf, tf. rewrite Ht. tauto.
  - simpl. split; [now rewrite app_nil_r|]. intros r Hr. now left.
Qed.


Lemma forEach_invariant {A : Type} (I : Panel -> Prop) (body : A -> M unit) (l : list A) :
  (forall a p, I p -> I (panelOf (body a p))) ->
  forall p, I p -> I (panelOf (forEach body l p)).
Proof.
  intros Hbody. induction l as [|a l IH]; intros p Hp; simpl; [exact Hp|].
  unfold bind. specialize (Hbody a p Hp).
  destruct (body a p) as [[] q|e q]; simpl in *; [now apply IH|exact Hbody].
Qed.

(** The three loops one after the other: a property of the table loop
    that the two later loops carry on. *)
Lemma applyAll_invariant (I J : Panel -> Prop) (rendered : list Table)
      (suggestions : Suggestions) (p : Panel) :
  (forall a q, I q -> I (panelOf (tableItem rendered a q))) ->
  (forall q, I q -> J q) ->
  (forall a q, J q -> J (panelOf (relationshipItem rendered a q))) ->
  (forall a q, J q -> J (panelOf (noteItem a q))) ->
  I p -> J (panelOf (applyAll rendered suggestions p)).
Proof.
  intros Ht Hij Hr Hn Hp. unfold applyAll, bind.
  pose proof (@forEach_invariant _ I (tableItem rendered) (tables suggestions) Ht p Hp)
    as H1.
  destruct (forEach (tableItem rendered) _ p) as [[] p1|e p1]; simpl in *;
    [|now apply Hij].
  pose proof (@forEach_invariant _ J (relationshipItem rendered)
                (relationships suggestions) Hr p1 (Hij p1 H1)) as H2.
  destruct (forEach (relationshipItem rendered) _ p1) as [[] p2|e p2]; simpl in *;
    [|exact H2].
  exact (@forEach_invariant _ J noteItem (notes suggestions) Hn p2 H2).
Qed.

(** What the handler returns, in terms of the three loops. *)
Lemma handler_after_loops (content : string) (d : Store) (idsUsed : nat) :
  (exists e, result (parseAIResponse content) = Throw e
             /\ handleApplySuggestion content d idsUsed = aborted (enter d idsUsed))
  \/ exists suggestions,
       result (parseAIResponse content) = Ok suggestions
       /\ ((exists e q, applyAll (s_tables d) suggestions (enter d idsUsed) = Raised e q
                        /\ handleApplySuggestion content d idsUsed = aborted q)
           \/ (exists q posted,
                 applyAll (s_tables d) suggestions (enter d idsUsed) = Done tt q
                 /\ posted <> []
                 /\ handleApplySuggestion content d idsUsed
                    = withStore (fun d => fold_left (fun d m => addMessage m d) posted d)
                                q)).
Proof.
  unfold handleApplySuggestion, tryCatch, applySuggestions.
  unfold bind at 1. unfold lift.
  destruct (result (parseAIResponse content)) as [suggestions|e].
  - right. exists suggestions. split; [reflexivity|]. unfold bind.
    destruct (applyAll (s_tables d) suggestions (enter d idsUsed)) as [[] q|e q].
    + right. destruct (showResults_posts content q) as (posted & -> & Hne).
      now exists q, posted.
    + left. now exists e, q.
  - left. now exists e.
Qed.

(** ** Bookkeeping *)

Lemma tableItem_accounted (tables : list Table) (tableData : JsValue) (p : Panel) :
  (accounted (panelOf (tableItem tables tableData p)) <= accounted p + 1)%nat.
Proof.
  unfold accounted.
  destruct (tableItem_cases tables tableData p)
    as [[-> _]|[(t & -> & _)|[(name & e & n & -> & _)|(n & -> & _)]]]; simpl;
    rewrite ?length_app; simpl; lia.
Qed.

Lemma relationshipItem_accounted (tables : list Table) (relData : JsValue) (p : Panel) :
  (accounted (panelOf (relationshipItem tables relData p)) <= accounted p + 1)%nat.
Proof.
  unfold accounted.
  destruct (nullish relData) eqn:Hnull.
  - rewrite (relationshipItem_null tables relData p Hnull). simpl. lia.
  - destruct (getProp_not_nullish relData "fromTable" Hnull) as (fromTable & Hft).
    destruct (getProp_not_nullish relData "toTable" Hnull) as (toTable & Htt).
    destruct (getProp_not_nullish relData "fromField" Hnull) as (fromField & Hff).
    destruct (getProp_not_nullish relData "toField" Hnull) as (toField & Htf).
    destruct (getProp_not_nullish relData "cardinality" Hnull) as (cardinality & Hcard).
    destruct (getProp_not_nullish relData "constraint" Hnull) as (constraint & Hcons).
    rewrite (@relationshipItem_eq tables _ _ _ _ _ _ _ p Hft Htt Hff Htf Hcard Hcons).
    repeat match goal with
           | |- context [match ?x with Some _ => _ | None => _ end] => destruct x
           end; simpl; rewrite ?length_app; simpl; lia.
Qed.

(** A note suggestion always completes; a note joins the store unless
    the suggestion is null, and it is counted as applied only when its
    content is a string: otherwise it is an error. *)
Lemma noteItem_outcome (noteData : JsValue) (p : Panel) :
  exists q,
    noteItem noteData p = Done tt q
    /\ List.length (s_notes (store q))
       = (List.length (s_notes (store p)) + (if nullish noteData then 0 else 1))%nat
    /\ appliedCount q
       = (appliedCount p + (if hasStringContent noteData then 1 else 0))%nat
    /\ List.length (errors q)
       = (List.length (errors p) + (if hasStringContent noteData then 0 else 1))%nat.
Proof.
  destruct (nullish noteData) eqn:Hnull.
  - rewrite (noteItem_null noteData p Hnull). eexists. split; [reflexivity|].
    unfold hasStringContent. rewrite (getProp_nullish _ _ Hnull). simpl.
    rewrite length_app. simpl. lia.
  - destruct (getProp_not_nullish noteData "content" Hnull) as (content & Hc).
    destruct (getProp_not_nullish noteData "position" Hnull) as (position & Hp).
    rewrite (@noteItem_eq _ _ _ p Hc Hp). unfold hasStringContent. rewrite Hc.
    destruct content; simpl; eexists; (split; [reflexivity|]); simpl;
      rewrite ?length_app; simpl; lia.
Qed.

Lemma noteItem_accounted (noteData : JsValue) (p : Panel) :
  (accounted (panelOf (noteItem noteData p)) <= accounted p + 1)%nat.
Proof.
  unfold accounted. destruct (noteItem_outcome noteData p) as (q & -> & _ & Ha & He).
  simpl. rewrite Ha, He. destruct (hasStringContent noteData); lia.
Qed.

Lemma forEach_accounted {A : Type} (body : A -> M unit) (l : list A) :
  (forall a p, (accounted (panelOf (body a p)) <= accounted p + 1)%nat) ->
  forall p, (accounted (panelOf (forEach body l p)) <= accounted p + List.length l)%nat.
Proof.
  intros Hbody. induction l as [|a l IH]; intros p; simpl; [lia|].
  unfold bind. specialize (Hbody a p).
  destruct (body a p) as [[] q|e q]; simpl in *; [|lia].
  specialize (IH q). lia.
Qed.

Lemma applyAll_accounted (rendered : list Table) (suggestions : Suggestions) (p : Panel) :
  (accounted (panelOf (applyAll rendered suggestions p))
   <= accounted p + List.length (tables suggestions)
      + List.length (relationships suggestions) + List.length (notes suggestions))%nat.
Proof.
  unfold applyAll, bind.
  pose proof (@forEach_accounted _ (tableItem rendered) (tables suggestions)
                (tableItem_accounted rendered) p) as H1.
  destruct (forEach (tableItem rendered) _ p) as [[] p1|e p1]; simpl in *; [|lia].
  pose proof (@forEach_accounted _ (relationshipItem rendered) (relationships suggestions)
                (relationshipItem_accounted rendered) p1) as H2.
  destruct (forEach (relationshipItem rendered) _ p1) as [[] p2|e p2]; simpl in *; [|lia].
  pose proof (@forEach_accounted _ noteItem (notes suggestions) noteItem_accounted p2)
    as H3.
  lia.
Qed.

(** X7: The parser returns suggestions for every text, and after a run the
    count of applied suggestions and the number of error lines together
    are at most the number of table, relationship and note suggestions:
    no suggestion is counted or reported twice. *)
Theorem applied_and_errors_are_bounded (content : string) (d : Store) (idsUsed : nat) :
  exists suggestions,
    result (parseAIResponse content) = Ok suggestions
    /\ (appliedCount (handleApplySuggestion content d idsUsed)
        + List.length (errors (handleApplySuggestion content d idsUsed))
        <= List.length (tables suggestions) + List.length (relationships suggestions)
           + List.length (notes suggestions))%nat.
Proof.
  destruct (parseAIResponse_total content) as (s0 & Hs0).
  destruct (handler_after_loops content d idsUsed)
    as [(e & He & _)|(suggestions & Hs & Hcases)]; [congruence|].
  exists suggestions. split; [exact Hs|].
  pose proof (applyAll_accounted (s_tables d) suggestions (enter d idsUsed)) as Hb.
  unfold accounted in Hb.
  destruct Hcases as [(e & q & Hq & ->)|(q & posted & Hq & _ & ->)];
    rewrite Hq in Hb; simpl in *; lia.
Qed.

(** ** The notes loop *)

(** X8: The loop over the note suggestions always runs to its end.  It
    adds a note for every suggestion that is not [null] or [undefined],
    counts the suggestions whose content is a string, and records one
    error line for each of the others: a note whose content is not a
    string is added to the diagram and reported as failed. *)
Theorem every_note_is_accounted (noteSuggestions : list JsValue) (p : Panel) :
  exists q,
    forEach noteItem noteSuggestions p = Done tt q
    /\ List.length (s_notes (store q))
       = (List.length (s_notes (store p))
          + List.length (filter (fun v => negb (nullish v)) noteSuggestions))%nat
    /\ appliedCount q
       = (appliedCount p + List.length (filter hasStringContent noteSuggestions))%nat
    /\ List.length (errors q)
       = (List.length (errors p)
          + List.length (filter (fun v => negb (hasStringContent v)) noteSuggestions))%nat.
Proof.
  revert p. induction noteSuggestions as [|noteData l IH]; intros p; simpl.
  - exists p. repeat split; lia.
  - unfold bind. destruct (noteItem_outcome noteData p) as (q & -> & Hn & Ha & He).
    destruct (IH q) as (q' & -> & Hn' & Ha' & He'). exists q'.
    split; [reflexivity|].
    rewrite Hn', Ha', He', Hn, Ha, He.
    destruct (nullish noteData), (hasStringContent noteData); simpl; lia.
Qed.

(** ** The layout of the added tables *)

Lemma inARow_snoc (added : list Table) (t : Table) :
  inARow added ->
  t_x t = (100 + Z.of_nat (List.length added) * 300)%Z -> t_y t = 100%Z ->
  inARow (added ++ [t]).
Proof.
  intros Hrow Hx Hy i t' Hnth.
  destruct (Nat.lt_ge_cases i (List.length added)) as [Hlt|Hge].
  - rewrite nth_error_app1 in Hnth by exact Hlt. now apply Hrow.
  - rewrite nth_error_app2 in Hnth by exact Hge.
    destruct (i - List.length added)%nat as [|k] eqn:Hk; simpl in Hnth.
    + inversion Hnth; subst t'. replace i with (List.length added) by lia. now split.
    + now destruct k.
Qed.

Lemma tableItem_row (tables : list Table) (tableData : JsValue) (p : Panel) :
  appliedCount p = List.length (addedTables p) /\ inARow (addedTables p) ->
  appliedCount (panelOf (tableItem tables tableData p))
  = List.length (addedTables (panelOf (tableItem tables tableData p)))
  /\ inARow (addedTables (panelOf (tableItem tables tableData p))).
Proof.
  intros [Hcount Hrow].
  destruct (tableItem_cases tables tableData p)
    as [[-> _]|[(t & -> & Ht)|[(name & e & n & -> & _)|(n & -> & _)]]]; simpl; auto.
  split.
  - rewrite length_app. simpl. lia.
  - apply inARow_snoc; auto.
    + rewrite (nt_x Ht). now rewrite Hcount.
    + exact (nt_y Ht).
Qed.

Lemma relationshipItem_added (tables : list Table) (relData : JsValue) (p : Panel) :
  addedTables (panelOf (relationshipItem tables relData p)) = addedTables p.
Proof.
  destruct (nullish relData) eqn:Hnull.
  - now rewrite (relationshipItem_null tables relData p Hnull).
  - destruct (getProp_not_nullish relData "fromTable" Hnull) as (fromTable & Hft).
    destruct (getProp_not_nullish relData "toTable" Hnull) as (toTable & Htt).
    destruct (getProp_not_nullish relData "fromField" Hnull) as (fromField & Hff).
    destruct (getProp_not_nullish relData "toField" Hnull) as (toField & Htf).
    destruct (getProp_not_nullish relData "cardinality" Hnull) as (cardinality & Hcard).
    destruct (getProp_not_nullish relData "constraint" Hnull) as (constraint & Hcons).
    rewrite (@relationshipItem_eq tables _ _ _ _ _ _ _ p Hft Htt Hff Htf Hcard Hcons).
    repeat match goal with
           | |- context [match ?x with Some _ => _ | None => _ end] => destruct x
           end; reflexivity.
Qed.

Lemma noteItem_added (noteData : JsValue) (p : Panel) :
  addedTables (panelOf (noteItem noteData p)) = addedTables p.
Proof.
  destruct (nullish noteData) eqn:Hnull.
  - now rewrite (noteItem_null noteData p Hnull).
  - destruct (getProp_not_nullish noteData "content" Hnull) as (content & Hc).
    destruct (getProp_not_nullish noteData "position" Hnull) as (position & Hp).
    rewrite (@noteItem_eq _ _ _ p Hc Hp). now destruct (asString content).
Qed.

(** X5: The tables a run adds stand in a row: the [i]-th of them, counting
    from zero, at [x = 100 + 300 i] and [y = 100], whatever else the run
    added or failed to add. *)
Theorem added_tables_stand_in_a_row (content : string) (d : Store) (idsUsed : nat) :
  inARow (skipn (List.length (s_tables d))
                (s_tables (store (handleApplySuggestion content d idsUsed)))).
Proof.
  rewrite (handler_tables_appended content d idsUsed).
  rewrite skipn_app, skipn_all, Nat.sub_diag. simpl.
  destruct (handler_after_loops content d idsUsed)
    as [(e & _ & ->)|(suggestions & _ & Hcases)].
  { intros i t Hnth. now destruct i. }
  assert (H : inARow (addedTables
                        (panelOf (applyAll (s_tables d) suggestions (enter d idsUsed))))).
  { apply (@applyAll_invariant
             (fun q => appliedCount q = List.length (addedTables q)
                       /\ inARow (addedTables q))
             (fun q => inARow (addedTables q))).
    - intros a q. apply tableItem_row.
    - tauto.
    - intros a q. now rewrite relationshipItem_added.
    - intros a q. now rewrite noteItem_added.
    - split; [reflexivity|]. intros i t Hnth. now destruct i. }
  destruct Hcases as [(e & q & Hq & ->)|(q & posted & Hq & _ & ->)];
    rewrite Hq in H; exact H.
Qed.

(** ** Null suggestions *)

Lemma tableLoop_null (tables : list Table) (l : list JsValue) :
  (exists v, In v l /\ nullish v = true) ->
  forall p, exists e q, forEach (tableItem tables) l p = Raised e q.
Proof.
  induction l as [|a l IH]; intros (v & Hin & Hv) p; [destruct Hin|].
  simpl. unfold bind.
  destruct (nullish a) eqn:Ha.
  - destruct (tableItem_cases tables a p)
      as [[_ (name & ex & Hname & _)]|[(t & _ & Ht)
          |[(name & e & n & _ & _ & Hname)|(n & -> & _)]]].
    + rewrite (getProp_nullish _ _ Ha) in Hname. discriminate.
    + pose proof (nt_name Ht) as Hname.
      rewrite (getProp_nullish _ _ Ha) in Hname. discriminate.
    + rewrite (getProp_nullish _ _ Ha) in Hname. discriminate.
    + eauto.
  - destruct Hin as [->|Hin]; [congruence|].
    destruct (tableItem tables a p) as [[] q|e q]; [|eauto].
    apply IH. eauto.
Qed.

Lemma relationshipLoop_null (tables : list Table) (l : list JsValue) :
  (exists v, In v l /\ nullish v = true) ->
  forall p, exists e q, forEach (relationshipItem tables) l p = Raised e q.
Proof.
  induction l as [|a l IH]; intros (v & Hin & Hv) p; [destruct Hin|].
  simpl. unfold bind.
  destruct (nullish a) eqn:Ha.
  - rewrite (relationshipItem_null tables a p Ha). eauto.
  - destruct Hin as [->|Hin]; [congruence|].
    destruct (relationshipItem tables a p) as [[] q|e q]; [|eauto].
    apply IH. eauto.
Qed.

Lemma run_messages (tables : list Table) (p q : Panel) :
  run tables p q -> messages (store q) = messages (store p).
Proof.
  intros Hrun.
  apply (run_invariant (fun r => messages (store r) = messages (store p))
                       (tables := tables)) with (p := p); auto.
  intros r r' Hstep Hr. now destruct Hstep.
Qed.

(** X9: When the table or relationship suggestions of a text hold [null] or
    [undefined], the run ends in the outer [catch]: the error state is
    set and no message is posted, although suggestions before the null
    one may have been applied. *)
Theorem null_suggestion_aborts_the_batch
        (content : string) (d : Store) (idsUsed : nat)
        (suggestions : Suggestions) (v : JsValue) :
  result (parseAIResponse content) = Ok suggestions ->
  In v (tables suggestions ++ relationships suggestions) ->
  nullish v = true ->
  errorState (store (handleApplySuggestion content d idsUsed))
  = Some "Failed to apply suggestion. Please try again."
  /\ messages (store (handleApplySuggestion content d idsUsed)) = messages d.
Proof.
  intros Hs Hin Hv.
  assert (Hraised : exists e q,
             applyAll (s_tables d) suggestions (enter d idsUsed) = Raised e q).
  { unfold applyAll, bind. apply in_app_or in Hin. destruct Hin as [Hin|Hin].
    - destruct (@tableLoop_null (s_tables d) (tables suggestions)
                  (ex_intro _ v (conj Hin Hv)) (enter d idsUsed)) as (e & q & ->).
      eauto.
    - destruct (forEach (tableItem (s_tables d)) _ (enter d idsUsed)) as [[] p1|e p1];
        [|eauto].
      destruct (@relationshipLoop_null (s_tables d) (relationships suggestions)
                  (ex_intro _ v (conj Hin Hv)) p1) as (e & q & ->).
      eauto. }
  destruct Hraised as (e & q & Hq).
  pose proof (applyAll_run (s_tables d) suggestions (enter d idsUsed)) as Hrun.
  rewrite Hq in Hrun. simpl in Hrun. apply run_messages in Hrun.
  destruct (handler_after_loops content d idsUsed)
    as [(e' & He' & _)|(s' & Hs' & Hcases)]; [congruence|].
  assert (s' = suggestions) by congruence. subst s'.
  destruct Hcases as [(e' & q' & Hq' & ->)|(q' & posted & Hq' & _)]; [|congruence].
  assert (q' = q) by congruence. subst q'.
  simpl. split; [reflexivity|exact Hrun].
Qed.

End HandlerCases.

Lemma null_suggestion_aborts_the_batch_witness :
  errorState
    (store (handleApplySuggestion (host := scenarioHost) nullRelationshipText emptyStore 0))
  = Some "Failed to apply suggestion. Please try again."
  /\ messages
       (store (handleApplySuggestion (host := scenarioHost) nullRelationshipText
                                     emptyStore 0))
     = messages emptyStore.
Proof.
  apply (@null_suggestion_aborts_the_batch scenarioHost nullRelationshipText emptyStore 0
           {| tables := []; relationships := [JNull]; notes := []; optimizations := [];
              sqlQueries := []; general := [] |} JNull).
  - vm_compute. reflexivity.
  - simpl. left. reflexivity.
  - reflexivity.
Defined.

(* ================================================================== *)
(** * The identifiers of a run *)
(* ================================================================== *)

Lemma Permutation_app_swap {A : Type} (a t r : list A) :
  Permutation ((a ++ t) ++ r) ((a ++ r) ++ t).
Proof. rewrite <- !app_assoc. apply Permutation_app_head, Permutation_app_comm. Qed.

Lemma Permutation_app_inner {A : Type} (a r t n : list A) :
  Permutation (a ++ (r ++ t) ++ n) ((a ++ r ++ n) ++ t).
Proof.
  rewrite <- !app_assoc. do 2 apply Permutation_app_head. apply Permutation_app_comm.
Qed.

Section HandlerIds.
Context {host : Host}.

(** X6: When [nanoid] never returns the same identifier twice, the
    identifiers of what a run adds are pairwise distinct: those of the
    added tables, of their fields, of the added relationships and of the
    added notes. *)
Theorem added_ids_are_distinct (content : string) (d : Store) (idsUsed : nat) :
  (forall i j, nanoid i = nanoid j -> i = j) ->
  exists rels added,
    s_relationships (store (handleApplySuggestion content d idsUsed))
    = s_relationships d ++ rels
    /\ s_notes (store (handleApplySuggestion content d idsUsed)) = s_notes d ++ added
    /\ NoDup (flat_map tableIds (addedTables (handleApplySuggestion content d idsUsed))
              ++ map r_id rels ++ map n_id added).
Proof.
  intros Hinj.
  destruct (handler_final content d idsUsed)
    as (q & Hrun & _ & -> & -> & _ & _ & -> & _).
  assert (H : exists rels added ks,
             s_relationships (store q) = s_relationships d ++ rels
             /\ s_notes (store q) = s_notes d ++ added
             /\ Permutation (flat_map tableIds (addedTables q)
                             ++ map r_id rels ++ map n_id added)
                            (map nanoid ks)
             /\ NoDup ks
             /\ Forall (fun k => (k < nextId q)%nat) ks).
  { apply (run_invariant
             (fun p => exists rels added ks,
                  s_relationships (store p) = s_relationships d ++ rels
                  /\ s_notes (store p) = s_notes d ++ added
                  /\ Permutation (flat_map tableIds (addedTables p)
                                  ++ map r_id rels ++ map n_id added)
                                 (map nanoid ks)
                  /\ NoDup ks
                  /\ Forall (fun k => (k < nextId p)%nat) ks)
             (tables := s_tables d)) with (p := enter d idsUsed); [|exact Hrun|].
    - intros p p' Hstep (rels & added & ks & Hr & Hn & Hperm & Hnodup & Hlt).
      assert (Hfresh : forall new,
                 Forall (fun k => (nextId p <= k)%nat) new -> NoDup new ->
                 NoDup (ks ++ new)).
      { intros new Hnew Hnd. apply NoDup_app; [exact Hnodup|exact Hnd|].
        intros k Hk Hk'. rewrite Forall_forall in Hlt, Hnew.
        specialize (Hlt k Hk). specialize (Hnew k Hk'). lia. }
      destruct Hstep; simpl.
      + exists rels, added, ks. repeat split; auto.
        eapply Forall_impl; [|exact Hlt]. simpl. intros; lia.
      + exists rels, added, ks. repeat split; auto.
      + exists rels, added, (ks ++ seq (nextId p) (S (List.length (t_fields t)))).
        repeat split; auto.
        * rewrite flat_map_app. simpl. rewrite app_nil_r, map_app.
          rewrite (nt_id H), (nt_field_ids H).
          change (nanoid (nextId p)
                  :: map nanoid (seq (S (nextId p)) (List.length (t_fields t))))
            with (map nanoid (nextId p
                              :: seq (S (nextId p)) (List.length (t_fields t)))).
          etransitivity; [|apply Permutation_app; [exact Hperm|reflexivity]].
          apply Permutation_app_swap.
        * apply (Hfresh (seq (nextId p) (S (List.length (t_fields t)))));
            [|apply seq_NoDup].
          apply Forall_forall. intros k Hk. apply in_seq in Hk. lia.
        * apply Forall_app. split.
          -- eapply Forall_impl; [|exact Hlt]. simpl. intros; lia.
          -- apply Forall_forall. intros k Hk. apply in_seq in Hk. lia.
      + exists (rels ++ [r]), added, (ks ++ [nextId p]). repeat split; auto.
        * now rewrite Hr, <- app_assoc.
        * rewrite !map_app. simpl. rewrite (nr_id H).
          etransitivity; [|apply Permutation_app; [exact Hperm|reflexivity]].
          apply Permutation_app_inner.
        * apply Hfresh; [repeat constructor|repeat constructor; intros []].
        * apply Forall_app. split.
          -- eapply Forall_impl; [|exact Hlt]. simpl. intros; lia.
          -- repeat constructor.
      + exists rels, (added ++ [n]), (ks ++ [nextId p]). repeat split; auto.
        * now rewrite Hn, <- app_assoc.
        * rewrite !map_app. simpl. rewrite (nn_id H).
          etransitivity; [|apply Permutation_app; [exact Hperm|reflexivity]].
          rewrite !app_assoc. reflexivity.
        * apply Hfresh; [repeat constructor|repeat constructor; intros []].
        * apply Forall_app. split.
          -- eapply Forall_impl; [|exact Hlt]. simpl. intros; lia.
          -- repeat constructor.
      + exists rels, added, ks. repeat split; auto.
    - exists [], [], []. simpl. rewrite !app_nil_r. repeat split; constructor. }
  destruct H as (rels & added & ks & Hr & Hn & Hperm & Hnodup & _).
  exists rels, added. repeat split; auto.
  apply (Permutation_NoDup (Permutation_sym Hperm)).
  apply NoDup_map_injective; [exact Hinj|exact Hnodup].
Qed.

End HandlerIds.

Lemma decimal_injective (i j : nat) : decimal i = decimal j -> i = j.
Proof.
  unfold decimal. intros H. apply Unsigned.to_uint_inj.
  apply (f_equal NilEmpty.uint_of_string) in H.
  rewrite !NilEmpty.usu in H. now inversion H.
Qed.

Lemma scenario_ids_never_repeat (i j : nat) :
  nanoid (Host := scenarioHost) i = nanoid (Host := scenarioHost) j -> i = j.
Proof.
  simpl. intros H. apply decimal_injective.
  change ("id" ^^ decimal i) with (String "i" (String "d" (decimal i))) in H.
  change ("id" ^^ decimal j) with (String "i" (String "d" (decimal j))) in H.
  now inversion H.
Qed.

Lemma added_ids_are_distinct_witness :
  exists rels added,
    s_relationships (store (handleApplySuggestion (host := scenarioHost)
                              ordersText emptyStore 0))
    = s_relationships emptyStore ++ rels
    /\ s_notes (store (handleApplySuggestion (host := scenarioHost)
                         ordersText emptyStore 0))
       = s_notes emptyStore ++ added
    /\ NoDup (flat_map tableIds
                (addedTables (handleApplySuggestion (host := scenarioHost)
                                ordersText emptyStore 0))
              ++ map r_id rels ++ map n_id added).
Proof.
  apply (@added_ids_are_distinct scenarioHost ordersText emptyStore 0).
  exact scenario_ids_never_repeat.
Defined.

(* ================================================================== *)
(** * The answer of the handler *)
(* ================================================================== *)

Section HandlerAnswers.
Context {host : Host}.

Lemma showResults_eq (content : string) (p : Panel) :
  showResults content p
  = Done tt (withStore
               (fun d => fold_left (fun d m => addMessage m d)
                                   (resultMessages content (appliedCount p) (errors p)) d)
               p).
Proof.
  unfold showResults, resultMessages, bind, gets, onStore, ret, withStore.
  destruct p as [st ids count errs added]. simpl.
  destruct count as [|count]; destruct errs as [|line lines]; reflexivity.
Qed.

Lemma resultMessages_nonempty (content : string) (count : nat) (errs : list ErrorLine) :
  resultMessages content count errs <> [].
Proof.
  unfold resultMessages. destruct count as [|count]; destruct errs as [|line lines];
    simpl; discriminate.
Qed.

Lemma fold_addMessage (posted : list PanelMessage) :
  forall d,
    messages (fold_left (fun d m => addMessage m d) posted d) = messages d ++ posted
    /\ errorState (fold_left (fun d m => addMessage m d) posted d) = errorState d.
Proof.
  induction posted as [|m posted IH]; intros d; simpl.
  - now rewrite app_nil_r.
  - destruct (IH (addMessage m d)) as (-> & ->). simpl. now rewrite <- app_assoc.
Qed.

Lemma run_errorState (tables : list Table) (p q : Panel) :
  run tables p q -> errorState (store q) = errorState (store p).
Proof.
  intros Hrun.
  apply (run_invariant (fun r => errorState (store r) = errorState (store p))
                       (tables := tables)) with (p := p); auto.
  intros r r' Hstep Hr. now destruct Hstep.
Qed.

(** X10: A run never ends silently.  Either it was aborted: the error state
    is set and no message posted; or the error state is left as it was
    and the messages of "show results" are posted, of which there is at
    least one. *)
Theorem handler_always_answers (content : string) (d : Store) (idsUsed : nat) :
  (errorState (store (handleApplySuggestion content d idsUsed))
   = Some "Failed to apply suggestion. Please try again."
   /\ messages (store (handleApplySuggestion content d idsUsed)) = messages d)
  \/ (errorState (store (handleApplySuggestion content d idsUsed)) = errorState d
      /\ messages (store (handleApplySuggestion content d idsUsed))
         = messages d
           ++ resultMessages content
                (appliedCount (handleApplySuggestion content d idsUsed))
                (errors (handleApplySuggestion content d idsUsed))
      /\ resultMessages content
           (appliedCount (handleApplySuggestion content d idsUsed))
           (errors (handleApplySuggestion content d idsUsed)) <> []).
Proof.
  unfold handleApplySuggestion, tryCatch, applySuggestions.
  unfold bind at 1. unfold lift.
  destruct (result (parseAIResponse content)) as [suggestions|e];
    [|left; split; reflexivity].
  unfold bind.
  pose proof (applyAll_run (s_tables d) suggestions (enter d idsUsed)) as Hrun.
  destruct (applyAll (s_tables d) suggestions (enter d idsUsed)) as [[] q|e q];
    simpl in Hrun.
  - right. rewrite showResults_eq. simpl.
    destruct (fold_addMessage (resultMessages content (appliedCount q) (errors q))
                              (store q)) as (-> & ->).
    rewrite (run_messages Hrun), (run_errorState Hrun). simpl.
    repeat split. apply resultMessages_nonempty.
  - left. simpl. split; [reflexivity|]. now rewrite (run_messages Hrun).
Qed.

End HandlerAnswers.

(* ================================================================== *)
(** * [validateSchema] and the code that builds tables *)
(* ================================================================== *)

(** ** What [validateSchema] accepts *)

Lemma notAText_false (v : JsValue) :
  notAText v = false -> exists s, v = JStr s /\ s <> "".
Proof.
  unfold notAText.
  destruct v as [| |b|n|s|l|props]; simpl; rewrite ?orb_true_r; try discriminate.
  intros H. exists s. split; [reflexivity|].
  rewrite orb_false_r in H. apply negb_false_iff, negb_true_iff in H.
  now apply String.eqb_neq.
Qed.

Lemma notAText_text (s : string) : s <> "" -> notAText (JStr s) = false.
Proof. intros H. apply String.eqb_neq in H. unfold notAText. simpl. now rewrite H. Qed.

Lemma checkField_ok (errors errors' : list string) (index : nat) (field : JsValue) :
  checkField errors index field = Ok errors' ->
  nullish field = false
  /\ exists more, errors' = errors ++ more /\ (more = [] -> wellFormedField field).
Proof.
  unfold checkField.
  destruct (nullish field) eqn:Hnull.
  - now rewrite (getProp_nullish _ _ Hnull).
  - destruct (getProp_not_nullish field "name" Hnull) as (name & Hname).
    destruct (getProp_not_nullish field "type" Hnull) as (type & Htype).
    rewrite Hname, Htype. intros H. inversion H; subst errors'. clear H.
    split; [reflexivity|].
    destruct (notAText name) eqn:Hn, (notAText type) eqn:Ht.
    + eexists. rewrite <- app_assoc. split; [reflexivity|discriminate].
    + eexists. split; [reflexivity|discriminate].
    + eexists. split; [reflexivity|discriminate].
    + exists []. rewrite app_nil_r. split; [reflexivity|]. intros _.
      apply notAText_false in Hn, Ht.
      destruct Hn as (n & -> & Hn), Ht as (t & -> & Ht).
      now exists n, t.
Qed.

Lemma checkFields_ok (fields : list JsValue) :
  forall errors errors' index,
    checkFields errors index fields = Ok errors' ->
    Forall (fun field => nullish field = false) fields
    /\ exists more, errors' = errors ++ more
                    /\ (more = [] -> Forall wellFormedField fields).
Proof.
  induction fields as [|field rest IH]; intros errors errors' index; simpl.
  - intros H. inversion H. split; [constructor|].
    exists []. rewrite app_nil_r. split; [reflexivity|constructor].
  - destruct (checkField errors index field) as [errors1|e] eqn:Hfield; [|discriminate].
    intros H. apply IH in H. destruct H as (Hrest & more2 & -> & Hwf2).
    apply checkField_ok in Hfield. destruct Hfield as (Hnull & more1 & -> & Hwf1).
    split; [now constructor|].
    exists (more1 ++ more2). rewrite app_assoc. split; [reflexivity|].
    intros H. apply app_eq_nil in H. destruct H. constructor; auto.
Qed.

Lemma checkFields_wellFormed (fields : list JsValue) :
  Forall wellFormedField fields ->
  forall errors index, checkFields errors index fields = Ok errors.
Proof.
  induction 1 as [|field rest (name & type & Hn & Hne & Ht & Hte) _ IH];
    intros errors index; simpl; [reflexivity|].
  unfold checkField. rewrite Hn, Ht, (notAText_text Hne), (notAText_text Hte).
  apply IH.
Qed.

Lemma checkFields_raises (fields : list JsValue) :
  forall errors index,
    (exists e, checkFields errors index fields = Throw e)
    <-> existsb nullish fields = true.
Proof.
  induction fields as [|field rest IH]; intros errors index; simpl.
  - split; [intros (e & H); discriminate|discriminate].
  - destruct (nullish field) eqn:Hnull.
    + unfold checkField. rewrite (getProp_nullish _ _ Hnull). simpl.
      split; [reflexivity|intros _; now exists TypeError].
    + destruct (getProp_not_nullish field "name" Hnull) as (name & Hname).
      destruct (getProp_not_nullish field "type" Hnull) as (type & Htype).
      unfold checkField. rewrite Hname, Htype. simpl. apply IH.
Qed.

Lemma wellFormedField_not_nullish (field : JsValue) :
  wellFormedField field -> nullish field = false.
Proof. intros (name & type & H & _). now destruct field. Qed.

Lemma validates_inv (schema : JsValue) :
  validates schema ->
  exists name fields,
    getProp schema "name" = Ok (JStr name) /\ name <> ""
    /\ getProp schema "fields" = Ok (JArr fields)
    /\ Forall wellFormedField fields.
Proof.
  unfold validates, validateSchema.
  destruct (getProp schema "name") as [name|e]; [|discriminate].
  destruct (getProp schema "fields") as [fields|e]; [|discriminate].
  destruct (notAText name) eqn:Hname.
  - destruct (negb (truthy fields) || negb (isArray fields)).
    + intros H. inversion H.
    + destruct (checkFields _ 0 (elements fields)) as [errors|e] eqn:Hc; [|discriminate].
      apply checkFields_ok in Hc. destruct Hc as (_ & more & -> & _).
      intros H. inversion H.
  - destruct (negb (truthy fields) || negb (isArray fields)) eqn:Hf.
    + intros H. inversion H.
    + destruct (checkFields _ 0 (elements fields)) as [errors|e] eqn:Hc; [|discriminate].
      apply checkFields_ok in Hc. destruct Hc as (_ & more & -> & Hwf).
      intros H. inversion H as [[Hlen Hmore]]. simpl in Hmore.
      apply notAText_false in Hname. destruct Hname as (n & -> & Hn).
      apply orb_false_elim in Hf. destruct Hf as [_ Harr].
      destruct fields as [| |b|z|s|l|props]; try discriminate.
      exists n, l. repeat split; auto.
Qed.

Lemma validates_intro (schema : JsValue) (name : string) (fields : list JsValue) :
  getProp schema "name" = Ok (JStr name) -> name <> "" ->
  getProp schema "fields" = Ok (JArr fields) ->
  Forall wellFormedField fields ->
  validates schema.
Proof.
  intros Hname Hne Hfields Hwf. unfold validates, validateSchema.
  rewrite Hname, Hfields, (notAText_text Hne). simpl.
  now rewrite (checkFields_wellFormed Hwf).
Qed.

(** X19: [validateSchema] raises instead of reporting exactly when the
    schema, or an element of its array of fields, is [null] or
    [undefined]. *)
Theorem validateSchema_raises_on_null_only (schema : JsValue) :
  (exists e, validateSchema schema = Throw e)
  <-> nullish schema = true \/ existsb nullish (spec_listed schema "fields") = true.
Proof.
  unfold validateSchema, spec_listed.
  destruct (nullish schema) eqn:Hnull.
  - rewrite !(getProp_nullish _ _ Hnull). split; [now left|intros _; now exists TypeError].
  - destruct (getProp_not_nullish schema "name" Hnull) as (name & ->).
    destruct (getProp_not_nullish schema "fields" Hnull) as (fields & ->).
    destruct fields as [| |b|n|s|l|props]; simpl; rewrite ?orb_true_r;
      try (split; [intros (e & H); discriminate|intros [H|H]; discriminate]).
    destruct (checkFields (if notAText name then ["Table name is required"] else []) 0 l)
      as [errors|e] eqn:Hc.
    + split; [intros (e & H); discriminate|].
      intros [H|H]; [discriminate|].
      apply (checkFields_raises l
               (if notAText name then ["Table name is required"] else []) 0) in H.
      destruct H as (e & H). congruence.
    + split; [|intros _; now exists e].
      intros _. right.
      apply (checkFields_raises l
               (if notAText name then ["Table name is required"] else []) 0).
      now exists e.
Qed.

(** ** Valid schemas and [applyTableSuggestion] *)

Lemma actionField_ok (field : JsValue) :
  nullish field = false -> exists f, actionField field = Ok f.
Proof. destruct field; try discriminate; intros _; eexists; reflexivity. Qed.

Lemma mapResult_actionField (fields : list JsValue) :
  Forall (fun field => nullish field = false) fields ->
  exists fs, mapResult actionField fields = Ok fs
             /\ List.length fs = List.length fields.
Proof.
  induction 1 as [|field rest Hnull _ (fs & Hfs & Hlen)]; simpl.
  - now exists [].
  - destruct (actionField_ok _ Hnull) as (f & ->). rewrite Hfs.
    exists (f :: fs). simpl. now rewrite Hlen.
Qed.

(** A schema that validates is applied, whatever the callbacks do. *)
Lemma validates_is_applied
        (State : Type) (addTableCb : ActionTable -> State -> State)
        (setUndoStack : (list ActionEntry -> list ActionEntry) -> State -> State)
        (setRedoStack : list ActionEntry -> State -> State)
        (t : string -> JsValue -> string) (schema : JsValue) (st : State) :
  validates schema ->
  exists table,
    fst (applyTableSuggestion addTableCb setUndoStack setRedoStack t schema st)
    = Success table
    /\ getProp schema "name" = Ok (at_name table)
    /\ List.length (at_fields table) = List.length (spec_listed schema "fields").
Proof.
  intros H. apply validates_inv in H.
  destruct H as (name & fields & Hname & Hne & Hfields & Hwf).
  assert (Hnull : nullish schema = false) by (now destruct schema).
  destruct (getProp_not_nullish schema "comment" Hnull) as (comment & Hcomment).
  destruct (getProp_not_nullish schema "position" Hnull) as (position & Hposition).
  destruct (@mapResult_actionField fields) as (fs & Hfs & Hlen).
  { eapply Forall_impl; [|exact Hwf]. apply wellFormedField_not_nullish. }
  unfold applyTableSuggestion, actionTable, spec_listed.
  rewrite Hname, Hfields, Hcomment, Hposition. simpl.
  apply String.eqb_neq in Hne. rewrite Hne. simpl. rewrite Hfs.
  eexists. simpl. repeat split. exact Hlen.
Qed.


(** ** The tables the code builds itself *)

Lemma defaultFields_wellFormed : Forall wellFormedField (elements defaultFields).
Proof.
  repeat constructor; eexists _, _; repeat split; try reflexivity; discriminate.
Qed.

Lemma tableObject_validates (name comment : string) :
  name <> "" -> validates (tableObject name comment).
Proof.
  intros Hne.
  exact (@validates_intro (tableObject name comment) name (elements defaultFields)
           eq_refl Hne eq_refl defaultFields_wellFormed).
Qed.

(** X18: Every table the fallback suggests is accepted by [validateSchema]. *)
Theorem fallback_tables_validate {host : Host} (response : string) :
  Forall validates (g_tables (extractGeneralSuggestions response)).
Proof.
  rewrite (generalTables_vocabulary response).
  apply Forall_forall. intros t Ht. apply in_map_iff in Ht.
  destruct Ht as (n & <- & Hn). apply filter_In in Hn. destruct Hn as (Hn & _).
  apply tableObject_validates. intros ->.
  revert Hn. unfold commonTableNames. simpl. intuition discriminate.
Qed.

Lemma generateDefaultFields_wellFormed (entityName : string) :
  Forall wellFormedField (generateDefaultFields entityName).
Proof.
  unfold generateDefaultFields.
  destruct (_ || _); [|destruct (_ || _); [|destruct (Js.includes _ _)]];
    repeat constructor; eexists _, _; repeat split; try reflexivity; discriminate.
Qed.

Lemma validates_entity_table (entityName description : string) :
  entityName <> "" -> validates (entityTable entityName description).
Proof.
  intros Hne.
  exact (@validates_intro (entityTable entityName description) entityName
           (generateDefaultFields entityName) eq_refl Hne eq_refl
           (generateDefaultFields_wellFormed entityName)).
Qed.

(* ================================================================== *)
(** * Valid and repeated table suggestions *)
(* ================================================================== *)

Section HandlerTables.
Context {host : Host}.

Lemma mapM_newField_ok (l : list JsValue) :
  Forall (fun field => nullish field = false) l ->
  forall p,
    exists fs, mapM newField l p = Done fs (withIds (nextId p + List.length l) p)
               /\ map f_id fs = map nanoid (seq (nextId p) (List.length l)).
Proof.
  induction 1 as [|field l Hnull _ IH]; intros p.
  - exists []. simpl. rewrite Nat.add_0_r, withIds_same. now split.
  - rewrite mapM_cons.
    destruct (newField_cases field p) as [[Hn _]|(f & -> & Hf)]; [congruence|].
    destruct (IH (withIds (S (nextId p)) p)) as (fs & -> & Hfs).
    exists (f :: fs). simpl in *. split.
    + f_equal. unfold withIds. simpl. f_equal. lia.
    + now rewrite Hf, Hfs.
Qed.

Lemma mapM_newField_Done (l : list JsValue) :
  forall p fs q, mapM newField l p = Done fs q ->
                 Forall (fun field => nullish field = false) l.
Proof.
  induction l as [|field l IH]; intros p fs q; [constructor|].
  rewrite mapM_cons.
  destruct (nullish field) eqn:Hnull.
  - assert (H : newField field p = Raised TypeError (withIds (S (nextId p)) p))
      by (destruct field; try discriminate; reflexivity).
    rewrite H. discriminate.
  - destruct (newField_cases field p) as [[Hn _]|(f & -> & _)]; [congruence|].
    destruct (mapM newField l (withIds (S (nextId p)) p)) as [fs' q'|e q'] eqn:Hm;
      [|discriminate].
    intros _. constructor; [exact Hnull|eapply IH; exact Hm].
Qed.

(** The table the handler adds for a suggestion whose name is new and
    whose fields can all be read. *)
Lemma tableItem_adds (tables : list Table) (tableData name comment : JsValue)
      (fieldList : list JsValue) (p : Panel) :
  getProp tableData "name" = Ok name ->
  getProp tableData "fields" = Ok (JArr fieldList) ->
  getProp tableData "comment" = Ok comment ->
  find (fun t => strict_eq (t_name t) name) tables = None ->
  Forall (fun field => nullish field = false) fieldList ->
  exists fields,
    tableItem tables tableData p
    = Done tt (withTable (builtTable (nanoid (nextId p)) name (appliedCount p) fields
                                     comment)
                         (withIds (S (nextId p) + List.length fields) p))
    /\ List.length fields = List.length fieldList
    /\ map f_id fields = map nanoid (seq (S (nextId p)) (List.length fields)).
Proof.
  intros Hname Hfields Hcomment Hfind Hnull.
  rewrite (@tableItem_eq host tables tableData name (JArr fieldList) comment p
             Hname Hfields Hcomment).
  rewrite Hfind. simpl asArray. cbv iota.
  destruct (mapM_newField_ok Hnull (withIds (S (nextId p)) p)) as (fs & Hm & Hids).
  simpl in Hm, Hids. rewrite Hm.
  assert (Hlen : List.length fs = List.length fieldList).
  { apply (f_equal (@List.length _)) in Hids.
    now rewrite !length_map, length_seq in Hids. }
  exists fs. rewrite Hlen. repeat split; auto.
Qed.

(** X12: A table suggestion that [validateSchema] accepts and whose name none
    of the rendered tables bears is added by the handler: one table with
    that name and as many fields as the suggestion lists, counted as
    applied, and no error line. *)
Theorem valid_new_table_is_added (tables : list Table) (tableData name : JsValue)
        (p : Panel) :
  validates tableData ->
  getProp tableData "name" = Ok name ->
  Forall (fun existing => strict_eq (t_name existing) name = false) tables ->
  exists t,
    tableItem tables tableData p
    = Done tt (withTable t (withIds (S (nextId p) + List.length (t_fields t)) p))
    /\ t_name t = name
    /\ List.length (t_fields t) = List.length (spec_listed tableData "fields").
Proof.
  intros Hvalid Hname Hnew. apply validates_inv in Hvalid.
  destruct Hvalid as (n & fields & Hn & _ & Hfields & Hwf).
  assert (Hnull : nullish tableData = false) by (now destruct tableData).
  destruct (getProp_not_nullish tableData "comment" Hnull) as (comment & Hcomment).
  destruct (@tableItem_adds tables tableData name comment fields p Hname Hfields Hcomment)
    as (fs & Hitem & Hlen & _).
  - destruct (find (fun t => strict_eq (t_name t) name) tables) as [t|] eqn:Hfind;
      [|reflexivity].
    apply find_some in Hfind. destruct Hfind as [Hin Heq].
    rewrite Forall_forall in Hnew. rewrite (Hnew t Hin) in Heq. discriminate.
  - eapply Forall_impl; [|exact Hwf]. apply wellFormedField_not_nullish.
  - eexists. split; [exact Hitem|]. simpl. split; [reflexivity|].
    unfold spec_listed. now rewrite Hfields.
Qed.

(** X3: The check for an existing table looks at the rendered tables only:
    when a table suggestion has been added and counted, the same
    suggestion coming again in the same run is added and counted again,
    so that two added tables bear one name. *)
Theorem repeated_table_is_added_twice (tables : list Table) (tableData : JsValue)
        (p q : Panel) :
  tableItem tables tableData p = Done tt q ->
  appliedCount q = S (appliedCount p) ->
  exists t1 t2 q',
    tableItem tables tableData q = Done tt q'
    /\ addedTables q' = addedTables p ++ [t1; t2]
    /\ t_name t1 = t_name t2
    /\ appliedCount q' = S (S (appliedCount p)).
Proof.
  intros Hitem Hcount.
  destruct (nullish tableData) eqn:Hnull.
  { destruct (tableItem_cases tables tableData p)
      as [[H _]|[(t & H & Ht)|[(name & e & n & H & _)|(n & H & _)]]];
      rewrite H in Hitem; try discriminate.
    - inversion Hitem; subst q. lia.
    - destruct Ht as [Hname _ _ _ _ _]. rewrite (getProp_nullish _ _ Hnull) in Hname.
      discriminate.
    - inversion Hitem; subst q. simpl in Hcount. lia. }
  destruct (getProp_not_nullish tableData "name" Hnull) as (name & Hname).
  destruct (getProp_not_nullish tableData "fields" Hnull) as (fieldsValue & Hfields).
  destruct (getProp_not_nullish tableData "comment" Hnull) as (comment & Hcomment).
  rewrite (@tableItem_eq host tables tableData name fieldsValue comment p
             Hname Hfields Hcomment) in Hitem.
  destruct (find (fun t => strict_eq (t_name t) name) tables) eqn:Hfind.
  { inversion Hitem; subst q. lia. }
  destruct fieldsValue as [| |b|n|s|fieldList|props];
    try (simpl in Hitem; inversion Hitem; subst q; simpl in Hcount; lia).
  simpl asArray in Hitem. cbv iota in Hitem.
  destruct (mapM newField fieldList (withIds (S (nextId p)) p)) as [fs q0|e q0] eqn:Hm.
  2:{ destruct (mapM_newField fieldList (withIds (S (nextId p)) p))
        as [(fs & Hm' & _)|(n & Hm' & _)]; rewrite Hm' in Hm; [discriminate|].
      inversion Hm; subst. inversion Hitem; subst q. simpl in Hcount. lia. }
  pose proof (mapM_newField_Done _ _ Hm) as Hall.
  destruct (mapM_newField_ok Hall (withIds (S (nextId p)) p)) as (fs' & Hm' & _).
  rewrite Hm' in Hm. inversion Hm; subst fs' q0. clear Hm Hm'.
  inversion Hitem; subst q. clear Hitem.
  match goal with
  | |- context [tableItem tables tableData ?q1] =>
      destruct (@tableItem_adds tables tableData name comment fieldList q1
                  Hname Hfields Hcomment Hfind Hall) as (fs2 & Hitem2 & _)
  end.
  eexists _, _, _. split; [exact Hitem2|]. simpl.
  rewrite <- app_assoc. repeat split.
Qed.

End HandlerTables.

Lemma valid_new_table_is_added_witness :
  exists t,
    tableItem (host := scenarioHost) [] ordersSuggestion (enter emptyStore 0)
    = Done tt (withTable t (withIds (S (nextId (enter emptyStore 0))
                                     + List.length (t_fields t))
                                    (enter emptyStore 0)))
    /\ t_name t = JStr "orders"
    /\ List.length (t_fields t) = List.length (spec_listed ordersSuggestion "fields").
Proof.
  apply (@valid_new_table_is_added scenarioHost [] ordersSuggestion (JStr "orders")
           (enter emptyStore 0));
    [reflexivity|reflexivity|constructor].
Defined.

Lemma repeated_table_is_added_twice_witness :
  exists t1 t2 q',
    tableItem (host := scenarioHost) [] ordersSuggestion
              (panelOf (tableItem (host := scenarioHost) [] ordersSuggestion
                                  (enter emptyStore 0)))
    = Done tt q'
    /\ addedTables q' = addedTables (enter emptyStore 0) ++ [t1; t2]
    /\ t_name t1 = t_name t2
    /\ appliedCount q' = S (S (appliedCount (enter emptyStore 0))).
Proof.
  apply (@repeated_table_is_added_twice scenarioHost [] ordersSuggestion
           (enter emptyStore 0)
           (panelOf (tableItem (host := scenarioHost) [] ordersSuggestion
                               (enter emptyStore 0))));
    vm_compute; reflexivity.
Defined.

(* ================================================================== *)
(** * [parseNaturalLanguageDescription] *)
(* ================================================================== *)

(** ** Classes of code units *)

Lemma Lang_star_cls (ic g neg : bool) (rs : list (N * N)) (u : list ascii) :
  Lang ic (Star g (Cls neg rs)) u ->
  Forall (fun x => cls_match ic neg rs x = true) u.
Proof.
  intros H. remember (Star g (Cls neg rs)) as r eqn:Hr.
  induction H as [| | | | | | |g' r' u v Hu _ Hv IH]; try discriminate.
  - constructor.
  - inversion Hr; subst. apply Lang_Cls_inv in Hu. destruct Hu as (x & -> & Hx).
    constructor; [exact Hx|]. now apply IH.
Qed.


Lemma ident_unit_not_space (x : ascii) :
  cls_match true false [(97, 122); (65, 90); (48, 57); (95, 95)]%N x = true ->
  Js.is_space x = false.
Proof.
  destruct x as [[] [] [] [] [] [] [] []]; vm_compute; intros H;
    first [reflexivity|discriminate H].
Qed.

Lemma ident_start_is_ident_unit (x : ascii) :
  cls_match true false [(97, 122); (65, 90); (95, 95)]%N x = true ->
  cls_match true false [(97, 122); (65, 90); (48, 57); (95, 95)]%N x = true.
Proof.
  destruct x as [[] [] [] [] [] [] [] []]; vm_compute; intros H;
    first [reflexivity|discriminate H].
Qed.

(** An identifier is not empty and holds no white space. *)
Lemma Lang_ident_units (u : list ascii) :
  Lang true ident u ->
  u <> [] /\ Forall (fun x => Js.is_space x = false) u.
Proof.
  unfold ident. intros H. apply Lang_Seq_inv in H.
  destruct H as (u1 & u2 & -> & H1 & H2).
  apply Lang_Cls_inv in H1. destruct H1 as (x & -> & Hx).
  apply Lang_star_cls in H2. split; [discriminate|].
  constructor.
  - now apply ident_unit_not_space, ident_start_is_ident_unit.
  - eapply Forall_impl; [|exact H2]. apply ident_unit_not_space.
Qed.


(** ** Trimming *)




(** ** The key word and the white space of a match *)







(* ================================================================== *)
(** * Capture groups *)
(* ================================================================== *)

(** ** Capture groups *)

Section GroupFacts.

Variable ic : bool.

(** What a match returns, its continuation returned. *)
Lemma star_loop_output (g : bool) (m : cont -> cont) :
  (forall k c e, m k c = Some e -> exists c', k c' = Some e) ->
  forall n k c e, star_loop g m k n c = Some e -> exists c', k c' = Some e.
Proof.
  intros Hm. induction n as [|n IH]; intros k c e; simpl; [eauto|].
  destruct g.
  - destruct (m _ c) as [e'|] eqn:Hagain; [|eauto].
    intros H. inversion H; subst e'. clear H.
    apply Hm in Hagain. destruct Hagain as (c' & Hc').
    destruct (remaining c' <? remaining c)%nat; [|discriminate]. eauto.
  - destruct (k c) as [e'|] eqn:Hk; [intros H; inversion H; subst; eauto|].
    intros Hagain.
    apply Hm in Hagain. destruct Hagain as (c' & Hc').
    destruct (remaining c' <? remaining c)%nat; [|discriminate]. eauto.
Qed.

Lemma rmatch_output (r : regex) :
  forall k c e, rmatch ic r k c = Some e -> exists c', k c' = Some e.
Proof.
  induction r as [|a|neg rs|r1 IH1 r2 IH2|r1 IH1 r2 IH2|g r1 IH1|]; intros k c e; simpl.
  - eauto.
  - unfold step_char. destruct (after c) as [|x rest]; [discriminate|].
    destruct (chr_match ic a x); [eauto|discriminate].
  - unfold step_char. destruct (after c) as [|x rest]; [discriminate|].
    destruct (cls_match ic neg rs x); [eauto|discriminate].
  - intros H. apply IH1 in H. destruct H as (c' & H). now apply IH2 in H.
  - destruct (rmatch ic r1 k c) as [e'|] eqn:H1.
    + intros H. inversion H; subst e'. now apply IH1 in H1.
    + apply IH2.
  - apply star_loop_output. exact IH1.
  - destruct (xorb _ _); [eauto|discriminate].
Qed.

Lemma star_loop_factor (greedy : bool) (m : cont -> cont) :
  (forall k c e, m k c = Some e -> exists c', k c' = Some e) ->
  (forall (k h g : cont),
      (forall c, k c = andThen (h c) g) ->
      (forall c c1, h c = Some c1 -> g c1 <> None) ->
      forall c, m k c = andThen (m h c) g) ->
  forall (k h g : cont),
    (forall c, k c = andThen (h c) g) ->
    (forall c c1, h c = Some c1 -> g c1 <> None) ->
    forall n c, star_loop greedy m k n c = andThen (star_loop greedy m h n c) g.
Proof.
  intros Hout Hm k h g Hk Hg. induction n as [|n IH]; intros c; simpl; [apply Hk|].
  set (again_k := fun c' => if (remaining c' <? remaining c)%nat
                            then star_loop greedy m k n c' else None).
  set (again_h := fun c' => if (remaining c' <? remaining c)%nat
                            then star_loop greedy m h n c' else None).
  assert (Hagain : forall c', again_k c' = andThen (again_h c') g).
  { intros c'. unfold again_k, again_h.
    destruct (remaining c' <? remaining c)%nat; [apply IH|reflexivity]. }
  assert (Hagain_out : forall c' c1, again_h c' = Some c1 -> g c1 <> None).
  { intros c' c1. unfold again_h.
    destruct (remaining c' <? remaining c)%nat; [|discriminate].
    intros H. apply (@star_loop_output greedy m Hout) in H.
    destruct H as (c'' & H). now apply Hg in H. }
  pose proof (Hm again_k again_h g Hagain Hagain_out c) as Hstep.
  destruct greedy.
  - rewrite Hstep. destruct (m again_h c) as [c1|] eqn:Hh; unfold andThen.
    + destruct (g c1) as [e|] eqn:Hg1; [reflexivity|].
      exfalso. apply Hout in Hh. destruct Hh as (c' & Hc').
      now apply (Hagain_out c' c1 Hc').
    + apply Hk.
  - rewrite Hk. destruct (h c) as [c1|] eqn:Hh; unfold andThen.
    + destruct (g c1) as [e|] eqn:Hg1; [reflexivity|].
      exfalso. now apply (Hg c c1 Hh).
    + exact Hstep.
Qed.

(** A match with a continuation [k] that goes on from where [h] stops
    goes on from where the match with [h] stops. *)
Lemma rmatch_factor (r : regex) :
  forall (k h g : cont),
    (forall c, k c = andThen (h c) g) ->
    (forall c c1, h c = Some c1 -> g c1 <> None) ->
    forall c, rmatch ic r k c = andThen (rmatch ic r h c) g.
Proof.
  induction r as [|a|neg rs|r1 IH1 r2 IH2|r1 IH1 r2 IH2|greedy r1 IH1|];
    intros k h g Hk Hg c; simpl.
  - apply Hk.
  - unfold step_char. destruct (after c) as [|x rest]; [reflexivity|].
    destruct (chr_match ic a x); [apply Hk|reflexivity].
  - unfold step_char. destruct (after c) as [|x rest]; [reflexivity|].
    destruct (cls_match ic neg rs x); [apply Hk|reflexivity].
  - apply IH1.
    + intros c'. now apply IH2.
    + intros c' c1 H. apply rmatch_output in H. destruct H as (c'' & H).
      now apply Hg in H.
  - rewrite (IH1 k h g Hk Hg c).
    destruct (rmatch ic r1 h c) as [c1|] eqn:Hh; unfold andThen; fold (andThen (rmatch ic r2 h c) g).
    + destruct (g c1) as [e|] eqn:Hg1; [reflexivity|].
      exfalso. apply rmatch_output in Hh. destruct Hh as (c' & Hc').
      now apply (Hg c' c1 Hc').
    + now apply IH2.
  - apply star_loop_factor; auto. apply rmatch_output.
  - destruct (xorb _ _); [apply Hk|reflexivity].
Qed.

(** The first piece of a match ends where the rest of the pattern takes
    the match to its end. *)
Lemma first_piece_factor (first rest : regex) (c e : cursor) :
  match_at ic (Seq first rest) c = Some e ->
  exists c1, first_piece ic first rest c = Some c1 /\ match_at ic rest c1 = Some e.
Proof.
  unfold match_at, first_piece. simpl. intros H.
  rewrite (@rmatch_factor first (rmatch ic rest Some)
             (fun c1 => match rmatch ic rest Some c1 with
                        | Some _ => Some c1
                        | None => None
                        end)
             (rmatch ic rest Some)) in H.
  - unfold andThen in H.
    destruct (rmatch ic first _ c) as [c1|]; [|discriminate].
    exists c1. split; [reflexivity|exact H].
  - intros c'. unfold andThen. cbv beta.
    destruct (rmatch ic rest Some c') eqn:Hr; [now rewrite Hr|reflexivity].
  - intros c' c1 Hc'. destruct (rmatch ic rest Some c') eqn:Hr; [|discriminate].
    inversion Hc'; subst c1. congruence.
Qed.

Lemma first_piece_sound (first rest : regex) (c c1 : cursor) :
  boundary_free first = true ->
  first_piece ic first rest c = Some c1 ->
  exists u tail, after c = u ++ tail /\ Lang ic first u /\ c1 = advance c u tail.
Proof.
  intros Hbf H. unfold first_piece in H.
  apply (@rmatch_sound ic first Hbf) in H. destruct H as (u & tail & Hc & Hu & Hk).
  exists u, tail. repeat split; auto.
  destruct (match_at ic rest (advance c u tail)); now inversion Hk.
Qed.

Lemma first_piece_text (first rest : regex) (c c1 : cursor) :
  boundary_free first = true ->
  first_piece ic first rest c = Some c1 ->
  exists u, text_between c c1 = Js.str u /\ Lang ic first u.
Proof.
  intros Hbf H. apply (@first_piece_sound first rest c c1 Hbf) in H.
  destruct H as (u & tail & Hc & Hu & ->). exists u. split; [|exact Hu].
  unfold text_between. now rewrite (@matched_advance c u tail Hc).
Qed.

Lemma match_at_text (r : regex) (c e : cursor) :
  boundary_free r = true ->
  match_at ic r c = Some e ->
  exists u, text_between c e = Js.str u /\ Lang ic r u.
Proof.
  intros Hbf H. apply (@match_at_sound ic r c e Hbf) in H.
  destruct H as (u & tail & Hc & Hu & ->). exists u. split; [|exact Hu].
  unfold text_between. now rewrite (@matched_advance c u tail Hc).
Qed.

Lemma exec_from_match (fuel : nat) (r : regex) :
  forall c s e, In (s, e) (exec_from ic fuel r c) -> match_at ic r s = Some e.
Proof.
  induction fuel as [|fuel IH]; intros c s e; simpl; [tauto|].
  destruct (search ic r (before c) (after c)) as [[s0 e0]|] eqn:Hs; [|simpl; tauto].
  apply search_sound in Hs.
  intros [H|H].
  - inversion H; subst. exact Hs.
  - destruct (remaining e0 <? remaining s0)%nat; [|destruct H]. eapply IH; eauto.
Qed.

End GroupFacts.

(* ================================================================== *)
(** * [extractTableDefinitions] and [extractEntities] *)
(* ================================================================== *)

(** ** [extractTableDefinitions] *)

Lemma fieldOfLine_notPrimary (line : string) : Forall notPrimary (fieldOfLine line).
Proof.
  unfold fieldOfLine.
  destruct (String.eqb line ""); simpl; [constructor|].
  destruct (Js.includes line "PRIMARY KEY") eqn:Hkey; simpl; [constructor|].
  destruct (Js.includes line "FOREIGN KEY"); simpl; [constructor|].
  destruct (split false (Plus Space) line) as [|name [|type rest]];
    repeat constructor.
Qed.

(** X21: Every table [extractTableDefinitions] returns is named by an
    identifier, and none of its fields is a primary key: a line that
    declares one is left out altogether. *)
Theorem extracted_tables_have_no_primary_key (response : string) :
  Forall (fun t => namedByIdentifier t /\ Forall notPrimary (spec_listed t "fields"))
         (extractTableDefinitions response).
Proof.
  apply Forall_forall. intros t Ht. unfold extractTableDefinitions in Ht.
  apply in_flat_map in Ht. destruct Ht as (m & _ & Ht).
  unfold createTableGroups in Ht.
  destruct (first_piece true createTableHead _ (fst m)) as [c1|]; [|destruct Ht].
  destruct (first_piece true ident _ c1) as [c2|] eqn:Hname; [|destruct Ht].
  destruct (first_piece true createTableOpen _ c2) as [c3|]; [|destruct Ht].
  destruct (first_piece true (Lazy AnyUnit) _ c3) as [c4|]; [|destruct Ht].
  destruct Ht as [<-|[]].
  destruct (@first_piece_text true ident _ c1 c2 eq_refl Hname) as (u & Hu & Hid).
  split.
  - exists (text_between c1 c2). split; [reflexivity|]. now rewrite Hu, chars_str.
  - unfold spec_listed. simpl.
    unfold fieldsOfText. apply Forall_flat_map, Forall_forall.
    intros line _. apply fieldOfLine_notPrimary.
Qed.

(** ** [extractEntities] *)

Lemma exec_from_sound (ic : bool) (r : regex) :
  boundary_free r = true ->
  forall fuel c s e,
    In (s, e) (exec_from ic fuel r c) ->
    exists u rest, after s = u ++ rest /\ Lang ic r u /\ e = advance s u rest.
Proof.
  intros Hbf. induction fuel as [|fuel IH]; intros c s e; simpl; [tauto|].
  destruct (search ic r (before c) (after c)) as [[s0 e0]|] eqn:Hs; [|simpl; tauto].
  apply search_sound in Hs. apply (@match_at_sound ic r _ _ Hbf) in Hs.
  intros [H|H].
  - inversion H; subst. exact Hs.
  - destruct (remaining e0 <? remaining s0)%nat; [|destruct H]. eapply IH; eauto.
Qed.

Lemma exec_all_text (ic : bool) (r : regex) (subject : string) (s e : cursor) :
  boundary_free r = true ->
  In (s, e) (exec_all ic r subject) ->
  exists u, text_between s e = Js.str u /\ Lang ic r u.
Proof.
  intros Hbf Hin. unfold exec_all in Hin.
  apply (@exec_from_sound ic r Hbf) in Hin. destruct Hin as (u & rest & Hc & Hu & ->).
  exists u. split; [|exact Hu]. unfold text_between.
  now rewrite (@matched_advance s u rest Hc).
Qed.

Lemma str_nonempty (u : list ascii) : u <> [] -> Js.str u <> "".
Proof. destruct u; [congruence|discriminate]. Qed.

Lemma entityPatterns_nonempty :
  Forall (fun pattern => boundary_free (fst pattern) = true
                         /\ forall u, Lang true (fst pattern) u -> u <> [])
         entityPatterns.
Proof.
  unfold entityPatterns. repeat constructor; try reflexivity; simpl fst; intros u H.
  - apply Lang_Seq_inv in H. destruct H as (u1 & u2 & -> & _ & H).
    assert (Hid : Lang true ident u2) by exact H.
    destruct (@Lang_ident_units _ Hid) as (Hne & _).
    destruct u1, u2; simpl; congruence.
  - apply Lang_Seq_inv in H. destruct H as (u1 & u2 & -> & Hid & _).
    destruct (@Lang_ident_units _ Hid) as (Hne & _).
    destruct u1; simpl; congruence.
  - unfold entityNouns in H. simpl alts in H.
    repeat (apply Lang_Alt_inv in H; destruct H as [H|H]);
      apply Lang_lit_length in H; destruct u; discriminate.
Qed.

Lemma groupOrMatch_nonempty (group : option string) (whole : string) :
  whole <> "" -> groupOrMatch group whole <> "".
Proof.
  intros H. unfold groupOrMatch. destruct group as [g|]; [|exact H].
  destruct (String.eqb g "") eqn:Hg; [exact H|]. now apply String.eqb_neq.
Qed.

Lemma hasName_nameOf (n : string) (entities : list JsValue) :
  existsb (hasName n) entities = false -> ~ In (JStr n) (map nameOf entities).
Proof.
  intros Hnone Hin. apply in_map_iff in Hin. destruct Hin as (t & Ht & Hin).
  assert (Hhas : hasName n t = true).
  { unfold hasName. unfold nameOf in Ht.
    destruct (getProp t "name") as [v|e]; [|discriminate].
    subst v. simpl. apply String.eqb_refl. }
  assert (Hex : existsb (hasName n) entities = true)
    by (apply existsb_exists; now exists t).
  congruence.
Qed.

Lemma extractEntities_inOrder (description : string) :
  entitiesInOrder (extractEntities description).
Proof.
  unfold extractEntities.
  assert (Hinner : forall pattern,
             boundary_free (fst pattern) = true ->
             (forall u, Lang true (fst pattern) u -> u <> []) ->
             forall matches,
               (forall m, In m matches ->
                          In m (exec_all true (fst pattern) description)) ->
               forall entities,
                 entitiesInOrder entities ->
                 entitiesInOrder
                   (fold_left
                      (fun entities m =>
                         let entityName :=
                           groupOrMatch (snd pattern (fst m) (snd m))
                                        (text_between (fst m) (snd m)) in
                         if existsb (hasName entityName) entities then entities
                         else entities ++ [entityObject entityName])
                      matches entities)).
  { intros pattern Hbf Hne.
    induction matches as [|[s e] matches IH]; intros Hsub entities Hok;
      [exact Hok|].
    simpl fold_left. apply IH; [intros m Hm; apply Hsub; now right|].
    cbv zeta. simpl fst. simpl snd.
    destruct (existsb _ entities) eqn:Hseen; [exact Hok|].
    destruct Hok as (Hnodup & Hall).
    destruct (@exec_all_text true (fst pattern) description s e Hbf
                (Hsub (s, e) (or_introl eq_refl))) as (u & Htext & Hu).
    split.
    - rewrite map_app. simpl.
      apply NoDup_app; [exact Hnodup|repeat constructor; intros []|].
      intros v Hv [<-|[]]. revert Hv. now apply hasName_nameOf.
    - apply Forall_app. split; [exact Hall|]. repeat constructor.
      eexists. split; [reflexivity|].
      apply groupOrMatch_nonempty. rewrite Htext. apply str_nonempty. now apply Hne. }
  assert (Houter : forall patterns,
             Forall (fun pattern => boundary_free (fst pattern) = true
                                    /\ forall u, Lang true (fst pattern) u -> u <> [])
                    patterns ->
             forall entities,
               entitiesInOrder entities ->
               entitiesInOrder
                 (fold_left
                    (fun entities pattern =>
                       fold_left
                         (fun entities m =>
                            let entityName :=
                              groupOrMatch (snd pattern (fst m) (snd m))
                                           (text_between (fst m) (snd m)) in
                            if existsb (hasName entityName) entities then entities
                            else entities ++ [entityObject entityName])
                         (exec_all true (fst pattern) description) entities)
                    patterns entities)).
  { induction 1 as [|pattern patterns [Hbf Hne] _ IH]; intros entities Hok;
      [exact Hok|].
    simpl fold_left. apply IH. apply (Hinner pattern Hbf Hne); auto. }
  apply Houter; [apply entityPatterns_nonempty|].
  split; constructor.
Qed.

(** X23: The entities [extractEntities] finds in a description have pairwise
    distinct names, none of them empty, and the table data
    [generateFromDescription] makes of each, with the fields of
    [generateDefaultFields], is accepted by [validateSchema]. *)
Theorem entities_are_distinct_and_valid (description : string) :
  NoDup (map nameOf (extractEntities description))
  /\ Forall (fun entity =>
               exists entityName,
                 entity = entityObject entityName
                 /\ entityName <> ""
                 /\ validates (entityTable entityName description))
            (extractEntities description).
Proof.
  destruct (extractEntities_inOrder description) as (Hnodup & Hall).
  split; [exact Hnodup|].
  eapply Forall_impl; [|exact Hall].
  intros entity (entityName & -> & Hne). exists entityName.
  repeat split; [exact Hne|]. now apply validates_entity_table.
Qed.

(* ================================================================== *)
(** * [extractRelationships] and [applyRelationshipSuggestion] *)
(* ================================================================== *)

(** ** [extractRelationships] *)

Lemma cat_nonempty_r (a b : string) : b <> "" -> a ^^ b <> "".
Proof.
  intros Hb H. unfold cat in H. destruct a; simpl in H; [congruence|discriminate].
Qed.

Lemma relationObject_taken (fromTable toTable : string) :
  fromTable <> "" -> toTable <> "" ->
  exists relationship, actionRelationship (relationObject fromTable toTable)
                       = Ok relationship.
Proof.
  intros Hf Ht. unfold actionRelationship, relationObject. simpl.
  apply String.eqb_neq in Hf, Ht. rewrite Hf, Ht. simpl.
  assert (Hfield : (Js.toLowerCase fromTable ^^ "_id" =? "")%string = false)
    by (apply String.eqb_neq, cat_nonempty_r; discriminate).
  rewrite Hfield. simpl. eexists. reflexivity.
Qed.

(** The two groups of a match are the identifiers at its two ends. *)
Lemma relationGroups_texts (middle : regex) (s e : cursor) :
  boundary_free middle = true ->
  match_at true (seqs [ident; middle; ident]) s = Some e ->
  exists u1 u3,
    relationGroups middle s e = Some (Js.str u1, Js.str u3)
    /\ Lang true ident u1 /\ Lang true ident u3.
Proof.
  intros Hbf H.
  change (seqs [ident; middle; ident]) with (Seq ident (Seq middle ident)) in H.
  apply first_piece_factor in H. destruct H as (c1 & H1 & H).
  apply first_piece_factor in H. destruct H as (c2 & H2 & H3).
  unfold relationGroups.
  change (seqs [middle; ident]) with (Seq middle ident). rewrite H1, H2.
  destruct (@first_piece_text true ident (Seq middle ident) s c1 eq_refl H1)
    as (u1 & -> & Hu1).
  destruct (@match_at_text true ident c2 e eq_refl H3) as (u3 & -> & Hu3).
  now exists u1, u3.
Qed.

Lemma relationPatterns_boundary_free :
  Forall (fun middle => boundary_free middle = true) relationPatterns.
Proof. repeat constructor. Qed.

(** The relationships collected over the matches of one pattern, and
    over the patterns. *)
Lemma relationMatches_join (description : string) (entities : list JsValue)
      (middle : regex) :
  boundary_free middle = true ->
  forall matches,
    (forall m, In m matches ->
               In m (exec_all true (seqs [ident; middle; ident]) description)) ->
    forall relationships,
      Forall (joinsEntities entities) relationships ->
      Forall (joinsEntities entities)
        (fold_left
           (fun relationships m =>
              match relationGroups middle (fst m) (snd m) with
              | Some (fromTable, toTable) =>
                  if existsb (hasName fromTable) entities
                     && existsb (hasName toTable) entities
                  then relationships ++ [relationObject fromTable toTable]
                  else relationships
              | None => relationships
              end)
           matches relationships).
Proof.
  intros Hbf.
  induction matches as [|[s e] matches IH]; intros Hsub relationships Hok;
    [exact Hok|].
  simpl fold_left. apply IH; [intros m Hm; apply Hsub; now right|].
  pose proof (Hsub (s, e) (or_introl eq_refl)) as Hin.
  unfold exec_all in Hin. apply exec_from_match in Hin.
  destruct (@relationGroups_texts middle s e Hbf Hin) as (u1 & u3 & Hgroups & Hu1 & Hu3).
  simpl fst. simpl snd. rewrite Hgroups.
  destruct (existsb (hasName (Js.str u1)) entities) eqn:Hfrom; [|exact Hok].
  destruct (existsb (hasName (Js.str u3)) entities) eqn:Hto; [|exact Hok].
  simpl. apply Forall_app. split; [exact Hok|]. repeat constructor.
  exists (Js.str u1), (Js.str u3). repeat split; auto.
  apply relationObject_taken; apply str_nonempty.
  - now destruct (@Lang_ident_units _ Hu1).
  - now destruct (@Lang_ident_units _ Hu3).
Qed.

Lemma relationPatterns_join (description : string) (entities : list JsValue)
      (patterns : list regex) :
  Forall (fun middle => boundary_free middle = true) patterns ->
  forall relationships,
    Forall (joinsEntities entities) relationships ->
    Forall (joinsEntities entities)
      (fold_left
         (fun relationships middle =>
            fold_left
              (fun relationships m =>
                 match relationGroups middle (fst m) (snd m) with
                 | Some (fromTable, toTable) =>
                     if existsb (hasName fromTable) entities
                        && existsb (hasName toTable) entities
                     then relationships ++ [relationObject fromTable toTable]
                     else relationships
                 | None => relationships
                 end)
              (exec_all true (seqs [ident; middle; ident]) description)
              relationships)
         patterns relationships).
Proof.
  induction 1 as [|middle patterns Hbf _ IH]; intros relationships Hok;
    [exact Hok|].
  simpl fold_left. apply IH.
  apply (@relationMatches_join description entities middle Hbf); auto.
Qed.

(** X24: Every relationship [extractRelationships] finds in a description
    joins two of the entities [extractEntities] found there, by their
    names, and is one [applyRelationshipSuggestion] takes without
    raising. *)
Theorem extracted_relationships_are_taken (description : string) :
  Forall (joinsEntities (extractEntities description))
         (extractRelationships description (extractEntities description)).
Proof.
  unfold extractRelationships.
  apply relationPatterns_join; [apply relationPatterns_boundary_free|constructor].
Qed.

(* ================================================================== *)
(** * The chat message *)
(* ================================================================== *)

(** ** [hasActionableContent] *)

Lemma upper_units_capital (c : ascii) :
  forallb (fun x => negb (Js.in_range 97 122 x)) (upper_units c) = true.
Proof. destruct c as [[] [] [] [] [] [] [] []]; vm_compute; reflexivity. Qed.

Lemma upper_units_no_small_letter (c : ascii) :
  Forall (fun x => Js.in_range 97 122 x = false) (upper_units c).
Proof.
  apply Forall_forall. intros x Hx.
  pose proof (upper_units_capital c) as H. rewrite forallb_forall in H.
  apply negb_true_iff. now apply H.
Qed.

Lemma toUpperCase_no_small_letter (s : string) :
  Forall (fun x => Js.in_range 97 122 x = false) (Js.chars (toUpperCase s)).
Proof.
  unfold toUpperCase. rewrite chars_str. apply Forall_flat_map, Forall_forall.
  intros c _. apply upper_units_no_small_letter.
Qed.

Lemma starts_with_head (a : ascii) (p l : list ascii) :
  Js.starts_with (a :: p) l = true -> In a l.
Proof.
  destruct l as [|b l]; simpl; [discriminate|].
  intros H. apply andb_prop in H. destruct H as [H _].
  apply Ascii.eqb_eq in H. now left.
Qed.

Lemma index_from_head (a : ascii) (p l : list ascii) :
  forall i n, Js.index_from i (a :: p) l = Some n -> In a l.
Proof.
  induction l as [|b l IH]; intros i n.
  - simpl. discriminate.
  - cbn [Js.index_from].
    destruct (Js.starts_with (a :: p) (b :: l)) eqn:Hs.
    + intros _. exact (@starts_with_head a p (b :: l) Hs).
    + intros H. right. eapply IH; eauto.
Qed.

Lemma includes_small_letter (s p : string) (a : ascii) (rest : string) :
  p = String a rest -> Js.in_range 97 122 a = true ->
  Js.includes (toUpperCase s) p = false.
Proof.
  intros -> Ha. unfold Js.includes, Js.indexOf.
  destruct (Js.index_from 0 (Js.chars (String a rest)) (Js.chars (toUpperCase s)))
    as [n|] eqn:Hi; [|reflexivity].
  exfalso. simpl in Hi. apply index_from_head in Hi.
  pose proof (toUpperCase_no_small_letter s) as Hall.
  rewrite Forall_forall in Hall. specialize (Hall a Hi). congruence.
Qed.

(** X29: The keywords of [hasActionableContent] written in small letters
    never count: the content is searched in capitals, so the button is
    shown exactly when the content holds [CREATE TABLE], [ADD TABLE] or
    [FOREIGN KEY], in whatever case. *)
Theorem small_letter_keywords_never_count (content : string) :
  hasActionableContent content
  = Js.includes (toUpperCase content) "CREATE TABLE"
    || Js.includes (toUpperCase content) "ADD TABLE"
    || Js.includes (toUpperCase content) "FOREIGN KEY".
Proof.
  unfold hasActionableContent, actionKeywords. cbn [existsb].
  rewrite (@includes_small_letter content "suggest" "s" "uggest" eq_refl eq_refl).
  rewrite (@includes_small_letter content "recommend" "r" "ecommend" eq_refl eq_refl).
  rewrite (@includes_small_letter content "add" "a" "dd" eq_refl eq_refl).
  rewrite (@includes_small_letter content "create" "c" "reate" eq_refl eq_refl).
  now rewrite !orb_false_r, !orb_assoc.
Qed.

(** ** [extractCodeBlocks] *)

Lemma chars_cat (a b : string) : Js.chars (a ^^ b) = Js.chars a ++ Js.chars b.
Proof. induction a as [|x a IH]; simpl; [reflexivity|]. f_equal. exact IH. Qed.

Lemma str_app (a b : list ascii) : Js.str (a ++ b) = Js.str a ^^ Js.str b.
Proof. induction a as [|x a IH]; simpl; [reflexivity|]. f_equal. exact IH. Qed.

Lemma str_chars (s : string) : Js.str (Js.chars s) = s.
Proof. apply string_of_list_ascii_of_string. Qed.

Lemma chars_joined_app (pieces more : list string) :
  Js.chars (joined (pieces ++ more))
  = Js.chars (joined pieces) ++ Js.chars (joined more).
Proof.
  induction pieces as [|p pieces IH]; simpl; [reflexivity|].
  now rewrite !chars_cat, IH, app_assoc.
Qed.

(** Where a search finds its match: after a gap, which it passes over. *)
Lemma search_gap (ic : bool) (r : regex) (aft : list ascii) :
  forall bef s e,
    search ic r bef aft = Some (s, e) -> exists gap, aft = gap ++ after s.
Proof.
  induction aft as [|x rest IH]; intros bef s e; simpl.
  - destruct (match_at ic r (Cursor bef [])); [|discriminate].
    intros H. inversion H; subst. now exists [].
  - destruct (match_at ic r (Cursor bef (x :: rest))).
    + intros H. inversion H; subst. now exists [].
    + intros H. apply IH in H. destruct H as (gap & ->). now exists (x :: gap).
Qed.

(** Without the [i] flag a literal matches itself only. *)
Lemma Lang_lit_exact (l u : list ascii) : Lang false (lit_chars l) u -> u = l.
Proof.
  intros H. apply Lang_lit_Forall2 in H.
  induction H as [|a x l u Hax _ IH]; [reflexivity|].
  unfold chr_match in Hax. apply Ascii.eqb_eq in Hax. now subst.
Qed.

(** The groups of a match, and the text of the match in their terms. *)
Lemma codeGroups_texts (s e : cursor) :
  match_at false codeRegex s = Some e ->
  exists tag code,
    codeGroups s = Some (Js.str tag, Js.str code)
    /\ after s
       = Js.chars "```" ++ tag ++ Js.chars nl ++ code ++ Js.chars "```" ++ after e.
Proof.
  intros H.
  change codeRegex
    with (Seq (Lit "```")
              (Seq codeTag (Seq (Lit nl) (Seq (Lazy AnyUnit) (Lit "```"))))) in H.
  apply first_piece_factor in H. destruct H as (c1 & H1 & H).
  apply first_piece_factor in H. destruct H as (c2 & H2 & H).
  apply first_piece_factor in H. destruct H as (c3 & H3 & H).
  apply first_piece_factor in H. destruct H as (c4 & H4 & H5).
  unfold codeGroups.
  change (seqs [codeTag; Lit nl; Lazy AnyUnit; Lit "```"])
    with (Seq codeTag (Seq (Lit nl) (Seq (Lazy AnyUnit) (Lit "```")))).
  change (seqs [Lit nl; Lazy AnyUnit; Lit "```"])
    with (Seq (Lit nl) (Seq (Lazy AnyUnit) (Lit "```"))).
  change (seqs [Lazy AnyUnit; Lit "```"]) with (Seq (Lazy AnyUnit) (Lit "```")).
  rewrite H1, H2, H3, H4.
  apply (@first_piece_sound false (Lit "```") _ s c1 eq_refl) in H1.
  destruct H1 as (u0 & t0 & Hs & Hu0 & ->).
  apply (@first_piece_sound false codeTag _ _ c2 eq_refl) in H2.
  destruct H2 as (u1 & t1 & Hc1 & _ & ->). simpl in Hc1.
  apply (@first_piece_sound false (Lit nl) _ _ c3 eq_refl) in H3.
  destruct H3 as (u2 & t2 & Hc2 & Hu2 & ->). simpl in Hc2.
  apply (@first_piece_sound false (Lazy AnyUnit) _ _ c4 eq_refl) in H4.
  destruct H4 as (u3 & t3 & Hc3 & _ & ->). simpl in Hc3.
  apply (@match_at_sound false (Lit "```") _ e eq_refl) in H5.
  destruct H5 as (u4 & t4 & Hc4 & Hu4 & ->). simpl in Hc4.
  apply Lang_lit_exact in Hu0, Hu2, Hu4. subst u0 u2 u4 t0 t1 t2 t3.
  exists u1, u3. split; [|exact Hs].
  unfold text_between. now rewrite !matched_advance.
Qed.

Lemma partsCover_push (content : string) (parts : list Part) (last next : cursor)
      (part : Part) (piece : list ascii) :
  partsCover content (parts, last) ->
  after last = piece ++ after next ->
  shows part (Js.str piece) ->
  partsCover content (parts ++ [part], next).
Proof.
  intros (pieces & Hshows & Hcover) Hlast Hpart. simpl in *.
  exists (pieces ++ [Js.str piece]). split.
  - apply Forall2_app; [exact Hshows|]. now repeat constructor.
  - simpl. rewrite chars_joined_app. simpl. unfold joined. simpl.
    rewrite chars_cat, chars_str. simpl. rewrite app_nil_r, <- app_assoc, <- Hlast.
    exact Hcover.
Qed.

(** One turn of the loop keeps the parts covering the content. *)
Lemma codeStep_covers (content : string) (parts : list Part) (c s e : cursor)
      (gap : list ascii) :
  partsCover content (parts, c) ->
  after c = gap ++ after s ->
  match_at false codeRegex s = Some e ->
  partsCover content (codeStep (parts, c) (s, e)).
Proof.
  intros Hcover Hgap Hmatch.
  destruct (@codeGroups_texts s e Hmatch) as (tag & code & Hgroups & Hfence).
  unfold codeStep. simpl fst. simpl snd. rewrite Hgroups.
  assert (Hlen : remaining c = (List.length gap + remaining s)%nat).
  { unfold remaining. now rewrite Hgap, length_app. }
  assert (Hcode : forall parts1,
             partsCover content (parts1, s) ->
             partsCover content
               (parts1 ++ [CodePart (languageOf (Js.str tag)) (Js.str code)], e)).
  { intros parts1 H1.
    apply (@partsCover_push content parts1 s e _
             (Js.chars "```" ++ tag ++ Js.chars nl ++ code ++ Js.chars "```")).
    - exact H1.
    - rewrite Hfence. now rewrite <- !app_assoc.
    - exists (Js.str tag). split; [|reflexivity].
      now rewrite !str_app, !str_chars. }
  destruct gap as [|x gap].
  - simpl in Hlen. rewrite Hlen, Nat.ltb_irrefl. apply Hcode.
    destruct Hcover as (pieces & Hshows & Hc). exists pieces. simpl in *.
    split; [exact Hshows|]. now rewrite <- Hgap.
  - assert (Hlt : (remaining s <? remaining c)%nat = true)
      by (apply Nat.ltb_lt; simpl in Hlen; lia).
    rewrite Hlt. apply Hcode.
    apply (@partsCover_push content parts c s _ (x :: gap)); auto.
    unfold text_between, matched. rewrite Hlen.
    replace (List.length (x :: gap) + remaining s - remaining s)%nat
      with (List.length (x :: gap)) by lia.
    rewrite Hgap, firstn_app, firstn_all, Nat.sub_diag. simpl firstn.
    rewrite app_nil_r. split; [reflexivity|discriminate].
Qed.

Lemma exec_from_covers (content : string) :
  forall fuel c parts,
    partsCover content (parts, c) ->
    partsCover content (fold_left codeStep (exec_from false fuel codeRegex c) (parts, c)).
Proof.
  induction fuel as [|fuel IH]; intros c parts Hcover; cbn [exec_from];
    [exact Hcover|].
  destruct (search false codeRegex (before c) (after c)) as [[s e]|] eqn:Hs;
    [|exact Hcover].
  destruct (@search_gap false codeRegex (after c) (before c) s e Hs) as (gap & Hgap).
  apply search_sound in Hs.
  pose proof (@codeStep_covers content parts c s e gap Hcover Hgap Hs) as Hstep.
  cbn [fold_left].
  assert (Hsnd : codeStep (parts, c) (s, e) = (fst (codeStep (parts, c) (s, e)), e)).
  { unfold codeStep. simpl. now destruct (codeGroups s) as [[tag code]|]. }
  destruct (remaining e <? remaining s)%nat.
  - rewrite Hsnd. apply IH. now rewrite <- Hsnd.
  - exact Hstep.
Qed.

(** X30: Nothing of a message is lost when it is cut into parts: the parts
    [extractCodeBlocks] returns show, in order, pieces that put together
    are the content; a text part is never empty, and a code part shows a
    fenced block with the language of its tag, [text] when it has none. *)
Theorem code_blocks_cover_the_message (content : string) :
  exists pieces,
    Forall2 shows (extractCodeBlocks content) pieces
    /\ joined pieces = content.
Proof.
  unfold extractCodeBlocks, exec_all.
  pose proof (@exec_from_covers content (S (List.length (Js.chars content)))
                (Cursor [] (Js.chars content)) []) as H.
  destruct (fold_left codeStep _ ([], Cursor [] (Js.chars content))) as [parts last].
  destruct H as (pieces & Hshows & Hcover); [now exists []|]. simpl in *.
  destruct (after last) as [|x rest] eqn:Hlast.
  - unfold remaining. rewrite Hlast. simpl. exists pieces. split; [exact Hshows|].
    rewrite app_nil_r in Hcover. rewrite <- (str_chars (joined pieces)), Hcover.
    apply str_chars.
  - unfold remaining. rewrite Hlast. simpl.
    exists (pieces ++ [Js.str (x :: rest)]). split.
    + apply Forall2_app; [exact Hshows|]. repeat constructor. simpl. discriminate.
    + rewrite <- (str_chars (joined _)), chars_joined_app, <- (str_chars content).
      f_equal. rewrite <- Hcover. f_equal. unfold joined. simpl.
      now rewrite chars_cat, chars_str, app_nil_r.
Qed.

(* ================================================================== *)
(** * [applySchemaOptimization] *)
(* ================================================================== *)

(** ** [applySchemaOptimization] *)

Lemma objProp_set_other (key k : string) (v : JsValue) (t : Obj) :
  k <> key -> objProp (Json.set_prop key v t) k = objProp t k.
Proof.
  intros Hk. unfold objProp. induction t as [|[k' v'] t IH]; simpl.
  - destruct (String.eqb key k) eqn:H; [|reflexivity].
    apply String.eqb_eq in H. congruence.
  - destruct (String.eqb k' key) eqn:Hkey; simpl.
    + apply String.eqb_eq in Hkey. subst k'.
      destruct (String.eqb key k) eqn:H; [|reflexivity].
      apply String.eqb_eq in H. congruence.
    + destruct (String.eqb k' k); [reflexivity|exact IH].
Qed.

Lemma pushInto_other (key k : string) (entry : JsValue) (t t' : Obj) :
  k <> key -> pushInto key entry t = Ok t' -> objProp t' k = objProp t k.
Proof.
  intros Hk. unfold pushInto.
  destruct (truthy (objProp t key)).
  - destruct (objProp t key); try discriminate.
    intros H. inversion H. now apply objProp_set_other.
  - destruct (objProp (Json.set_prop key (JArr []) t) key); try discriminate.
    intros H. inversion H. now rewrite !objProp_set_other.
Qed.

Lemma pushIntoAt_other (key k : string) (entry : JsValue) (tables : list Obj) :
  k <> key ->
  forall index tables',
    pushIntoAt index key entry tables = Ok tables' ->
    map (fun t => objProp t k) tables' = map (fun t => objProp t k) tables.
Proof.
  intros Hk. induction tables as [|t rest IH]; intros index tables';
    cbn [pushIntoAt].
  - intros H. destruct index; discriminate H.
  - destruct index as [|index]; cbn [pushIntoAt].
    + destruct (pushInto key entry t) as [t'|e] eqn:Hp; [|intros H; discriminate H].
      intros H. inversion H. simpl. f_equal. eapply pushInto_other; eauto.
    + destruct (pushIntoAt index key entry rest) as [rest'|e] eqn:Hp;
        [|intros H; discriminate H].
      intros H. inversion H. simpl. f_equal. eapply IH; eauto.
Qed.

Lemma additionOf_key (type optimization : JsValue) (key : string) (entry : JsValue) :
  additionOf type optimization = Some (key, entry) ->
  key = "indexes" \/ key = "constraints".
Proof.
  unfold additionOf.
  destruct (strict_eq type (JStr "add_index")); [intros H; inversion H; now left|].
  destruct (strict_eq type (JStr "add_constraint")); [|discriminate].
  intros H. inversion H. now right.
Qed.

Lemma optimize_other (k : string) (tables tables' : list Obj) (changes changes' : nat)
      (optimization : JsValue) :
  k <> "indexes" -> k <> "constraints" ->
  optimize tables changes optimization = Ok (tables', changes') ->
  map (fun t => objProp t k) tables' = map (fun t => objProp t k) tables.
Proof.
  intros Hi Hc. unfold optimize.
  destruct (getProp optimization "type") as [type|e]; [|discriminate].
  destruct (additionOf type optimization) as [[key entry]|] eqn:Hadd.
  - destruct (findIndexByName _ tables) as [index|].
    + destruct (pushIntoAt index key entry tables) as [tables1|e] eqn:Hp; [|discriminate].
      intros H. inversion H; subst. eapply pushIntoAt_other; [|exact Hp].
      destruct (additionOf_key _ _ Hadd); congruence.
    + intros H. now inversion H.
  - intros H. now inversion H.
Qed.

Lemma optimizeAll_other (k : string) (optimizations : list JsValue) :
  k <> "indexes" -> k <> "constraints" ->
  forall tables changes,
    map (fun t => objProp t k) (snd (fst (optimizeAll optimizations tables changes)))
    = map (fun t => objProp t k) tables.
Proof.
  intros Hi Hc. induction optimizations as [|optimization rest IH];
    intros tables changes; simpl; [reflexivity|].
  destruct (optimize tables changes optimization) as [[tables' changes']|e] eqn:Ho;
    [|reflexivity].
  rewrite IH. eapply optimize_other; eauto.
Qed.

(** X26: Whatever the optimizations, and whether the call succeeds or not,
    [applySchemaOptimization] leaves every table in its place and every
    property of every table but [indexes] and [constraints] as it was:
    the [indices] a table of the chat panel carries are never touched. *)
Theorem optimizations_touch_two_properties
        (State : Type) (setTables : list Obj -> State -> State)
        (setUndoStack :
           (list OptimizationEntry -> list OptimizationEntry) -> State -> State)
        (setRedoStack : list OptimizationEntry -> State -> State)
        (t : string -> nat -> string)
        (optimizations : list JsValue) (tables : list Obj) (st : State) (k : string) :
  k <> "indexes" -> k <> "constraints" ->
  map (fun table => objProp table k)
      (snd (fst (applySchemaOptimization setTables setUndoStack setRedoStack t
                                         optimizations tables st)))
  = map (fun table => objProp table k) tables.
Proof.
  intros Hi Hc. unfold applySchemaOptimization.
  pose proof (@optimizeAll_other k optimizations Hi Hc tables 0) as H.
  destruct (optimizeAll optimizations tables 0) as [[[e|] tables'] changes];
    simpl in *; [exact H|].
  destruct (0 <? changes)%nat; exact H.
Qed.

Lemma optimizations_touch_two_properties_witness :
  map (fun table => objProp table "indices")
      (snd (fst (applySchemaOptimization
                   (fun _ (st : list OptimizationEntry) => st)
                   (fun f (st : list OptimizationEntry) => f st)
                   (fun _ (st : list OptimizationEntry) => st)
                   (fun key _ => key)
                   [usersIndex] [usersObject] [])))
  = map (fun table => objProp table "indices") [usersObject].
Proof.
  apply (@optimizations_touch_two_properties
           (list OptimizationEntry)
           (fun _ st => st) (fun f st => f st) (fun _ st => st) (fun key _ => key)
           [usersIndex] [usersObject] [] "indices");
    discriminate.
Defined.

(* ================================================================== *)
(** * [generateFromDescription] and [applyBatchSuggestions] *)
(* ================================================================== *)

Section ContextFacts.

Variable State : Type.
Variable addTableCb : ActionTable -> State -> State.
Variable setUndoStackT : (list ActionEntry -> list ActionEntry) -> State -> State.
Variable setRedoStackT : list ActionEntry -> State -> State.
Variable tT : string -> JsValue -> string.
Variable addRelationshipCb : ActionRelationship -> State -> State.
Variable setUndoStackR :
  (list RelationshipEntry -> list RelationshipEntry) -> State -> State.
Variable setRedoStackR : list RelationshipEntry -> State -> State.
Variable tR : string -> JsValue -> JsValue -> string.
Variable setTables : list Obj -> State -> State.
Variable setUndoStackO :
  (list OptimizationEntry -> list OptimizationEntry) -> State -> State.
Variable setRedoStackO : list OptimizationEntry -> State -> State.
Variable tO : string -> nat -> string.

(** ** [generateFromDescription] *)

Lemma tableDataOf_entity (description entityName : string) :
  tableDataOf description (entityObject entityName) = entityTable entityName description.
Proof. reflexivity. Qed.

Lemma relationshipCall_taken (line : JsError -> ActionError)
      (acc : ActionResults * State) (relData : JsValue) :
  (exists relationship, actionRelationship relData = Ok relationship) ->
  a_errors (fst (relationshipCall addRelationshipCb setUndoStackR setRedoStackR tR
                                  line acc relData))
  = a_errors (fst acc)
  /\ a_tables (fst (relationshipCall addRelationshipCb setUndoStackR setRedoStackR tR
                                     line acc relData))
     = a_tables (fst acc)
  /\ List.length
       (a_relationships
          (fst (relationshipCall addRelationshipCb setUndoStackR setRedoStackR tR
                                 line acc relData)))
     = S (List.length (a_relationships (fst acc))).
Proof.
  intros (relationship & Hrel). unfold relationshipCall, applyRelationshipSuggestion.
  rewrite Hrel. simpl. rewrite length_app. simpl. repeat split. lia.
Qed.

Lemma entityCalls_valid (description : string) (entities : list JsValue) :
  Forall (fun entity =>
            exists entityName,
              entity = entityObject entityName
              /\ entityName <> ""
              /\ validates (entityTable entityName description)) entities ->
  forall acc,
    exists acc',
      entityCalls addTableCb setUndoStackT setRedoStackT tT description entities acc
      = (None, acc')
      /\ a_errors (fst acc') = a_errors (fst acc)
      /\ a_relationships (fst acc') = a_relationships (fst acc)
      /\ List.length (a_tables (fst acc'))
         = (List.length (a_tables (fst acc)) + List.length entities)%nat.
Proof.
  induction 1 as [|entity rest (entityName & -> & _ & Hvalid) _ IH]; intros acc.
  - exists acc. simpl. repeat split. lia.
  - cbn [entityCalls]. unfold entityCall. simpl getProp. cbv iota.
    rewrite tableDataOf_entity.
    destruct (@validates_is_applied State addTableCb setUndoStackT setRedoStackT tT
                (entityTable entityName description) (snd acc) Hvalid)
      as (table & Htable & _).
    destruct (applyTableSuggestion addTableCb setUndoStackT setRedoStackT tT
                (entityTable entityName description) (snd acc)) as [result st'].
    simpl in Htable. subst result.
    destruct (IH (withTableResult table (fst acc), st'))
      as (acc' & -> & He & Hr & Hlen).
    exists acc'. split; [reflexivity|]. simpl in *.
    rewrite He, Hr, Hlen, length_app. simpl. repeat split. lia.
Qed.

Lemma relationshipCalls_taken (line : JsError -> ActionError)
      (relationships : list JsValue) :
  Forall (fun rel => exists relationship, actionRelationship rel = Ok relationship)
         relationships ->
  forall acc,
    a_errors (fst (fold_left (relationshipCall addRelationshipCb setUndoStackR
                                               setRedoStackR tR line)
                             relationships acc))
    = a_errors (fst acc)
    /\ a_tables (fst (fold_left (relationshipCall addRelationshipCb setUndoStackR
                                                  setRedoStackR tR line)
                                relationships acc))
       = a_tables (fst acc)
    /\ List.length
         (a_relationships
            (fst (fold_left (relationshipCall addRelationshipCb setUndoStackR
                                              setRedoStackR tR line)
                            relationships acc)))
       = (List.length (a_relationships (fst acc)) + List.length relationships)%nat.
Proof.
  induction 1 as [|rel rest Hrel _ IH]; intros acc; simpl.
  - repeat split. lia.
  - destruct (IH (relationshipCall addRelationshipCb setUndoStackR setRedoStackR tR
                                   line acc rel)) as (-> & -> & ->).
    destruct (@relationshipCall_taken line acc rel Hrel) as (-> & -> & ->).
    repeat split. lia.
Qed.

(** X25: Whatever the description and whatever the callbacks do,
    [generateFromDescription] returns results without an error line: one
    table for each entity it extracted and one relationship for each
    relationship it extracted. *)
Theorem generation_reports_no_error (description : string) (st : State) :
  exists results,
    fst (generateFromDescription addTableCb setUndoStackT setRedoStackT tT
                                 addRelationshipCb setUndoStackR setRedoStackR tR
                                 description st)
    = Ok results
    /\ a_errors results = []
    /\ List.length (a_tables results) = List.length (extractEntities description)
    /\ List.length (a_relationships results)
       = List.length (extractRelationships description (extractEntities description)).
Proof.
  unfold generateFromDescription.
  assert (Hentities : Forall (fun entity =>
                                exists entityName,
                                  entity = entityObject entityName
                                  /\ entityName <> ""
                                  /\ validates (entityTable entityName description))
                             (extractEntities description)).
  { eapply Forall_impl; [|exact (proj2 (extractEntities_inOrder description))].
    intros entity (entityName & -> & Hne). exists entityName.
    repeat split; [exact Hne|]. now apply validates_entity_table. }
  destruct (@entityCalls_valid description (extractEntities description)
              Hentities (noResults, st))
    as (acc & -> & He & Hr & Ht).
  assert (Hrels : Forall (fun rel => exists relationship,
                              actionRelationship rel = Ok relationship)
                         (extractRelationships description
                                               (extractEntities description))).
  { eapply Forall_impl;
      [|apply (@relationPatterns_join description (extractEntities description)
                 relationPatterns relationPatterns_boundary_free []); constructor].
    intros rel (f & t0 & _ & _ & _ & H). exact H. }
  destruct (@relationshipCalls_taken RelationshipNotCreated _ Hrels acc)
    as (He' & Ht' & Hr').
  eexists. split; [reflexivity|]. simpl in *.
  rewrite He', He, Ht', Ht, Hr', Hr. repeat split.
Qed.


(** ** [applyBatchSuggestions] *)

Lemma tableCall_null (acc : ActionResults * State) (tableData : JsValue) :
  nullish tableData = true ->
  tableCall addTableCb setUndoStackT setRedoStackT tT acc tableData
  = (Some TypeError, (fst acc, snd acc)).
Proof.
  intros Hnull. unfold tableCall, applyTableSuggestion, actionTable.
  now rewrite !(getProp_nullish _ _ Hnull).
Qed.

Lemma tableCall_not_null (acc : ActionResults * State) (tableData : JsValue) :
  nullish tableData = false ->
  exists acc',
    tableCall addTableCb setUndoStackT setRedoStackT tT acc tableData = (None, acc')
    /\ accountedFor (fst acc') = S (accountedFor (fst acc)).
Proof.
  intros Hnull. unfold tableCall.
  destruct (getProp_not_nullish tableData "name" Hnull) as (name & Hname).
  destruct (applyTableSuggestion addTableCb setUndoStackT setRedoStackT tT
                                 tableData (snd acc)) as [[table|e] st'].
  - eexists. split; [reflexivity|]. unfold accountedFor. simpl.
    rewrite length_app. simpl. lia.
  - rewrite Hname. eexists. split; [reflexivity|]. unfold accountedFor. simpl.
    rewrite length_app. simpl. lia.
Qed.

Lemma tableCalls_null (tableSuggestions : list JsValue) :
  (exists v, In v tableSuggestions /\ nullish v = true) ->
  forall acc,
    fst (tableCalls addTableCb setUndoStackT setRedoStackT tT tableSuggestions acc)
    = Some TypeError.
Proof.
  induction tableSuggestions as [|tableData rest IH]; intros (v & Hin & Hv) acc;
    [destruct Hin|].
  cbn [tableCalls]. destruct (nullish tableData) eqn:Hnull.
  - now rewrite (tableCall_null acc tableData Hnull).
  - destruct (tableCall_not_null acc tableData Hnull) as (acc' & -> & _).
    apply IH. destruct Hin as [->|Hin]; [congruence|]. now exists v.
Qed.



(** X27: When the table suggestions hold [null] or [undefined],
    [applyBatchSuggestions] raises a TypeError: [applyTableSuggestion]
    reports the failure, and the error line read from the suggestion
    raises outside any [try]. *)
Theorem null_table_makes_the_batch_raise (suggestions : Suggestions)
        (contextTables : list Obj) (st : State) (v : JsValue) :
  In v (tables suggestions) -> nullish v = true ->
  fst (fst (applyBatchSuggestions addTableCb setUndoStackT setRedoStackT tT
                                  addRelationshipCb setUndoStackR setRedoStackR tR
                                  setTables setUndoStackO setRedoStackO tO
                                  suggestions contextTables st))
  = Throw TypeError.
Proof.
  intros Hin Hv. unfold applyBatchSuggestions.
  pose proof (@tableCalls_null (tables suggestions) (ex_intro _ v (conj Hin Hv))
                (noResults, st)) as H.
  destruct (tableCalls addTableCb setUndoStackT setRedoStackT tT (tables suggestions)
                       (noResults, st)) as [[e|] acc]; simpl in H; [|discriminate].
  inversion H. reflexivity.
Qed.


End ContextFacts.

Lemma null_table_makes_the_batch_raise_witness :
  fst (fst (applyBatchSuggestions
              (logged "addTable") (logged "setUndoStack") (logged "setRedoStack")
              keyOnly
              (logged "addRelationship") (logged "setUndoStack") (logged "setRedoStack")
              (fun key _ _ => key)
              (logged "setTables") (logged "setUndoStack") (logged "setRedoStack")
              (fun key _ => key)
              nullTableSuggestions [usersObject] []))
  = Throw TypeError.
Proof.
  apply (@null_table_makes_the_batch_raise CallLog
           (logged "addTable") (logged "setUndoStack") (logged "setRedoStack") keyOnly
           (logged "addRelationship") (logged "setUndoStack") (logged "setRedoStack")
           (fun key _ _ => key)
           (logged "setTables") (logged "setUndoStack") (logged "setRedoStack")
           (fun key _ => key)
           nullTableSuggestions [usersObject] [] JNull);
    [now left|reflexivity].
Defined.


(* ================================================================== *)
(** * [applyTableSuggestion] on an editor state *)
(* ================================================================== *)

Lemma applyTableSuggestion_pushes_one_witness :
  e_undo (snd (applyTableSuggestion editorAddTable editorSetUndoStack editorSetRedoStack
                                    keyOnly ordersSuggestion emptyEditor))
  = e_undo (editorAddTable ordersActionTable emptyEditor)
    ++ [{| ae_action := ADD; ae_element := TABLE;
           ae_message := keyOnly "ai_applied_table_suggestion" (at_name ordersActionTable);
           ae_data := ordersActionTable |}]
  /\ e_redo (snd (applyTableSuggestion editorAddTable editorSetUndoStack
                                       editorSetRedoStack keyOnly ordersSuggestion
                                       emptyEditor))
     = [].
Proof.
  apply (@applyTableSuggestion_pushes_one Editor editorAddTable editorSetUndoStack
           editorSetRedoStack keyOnly e_undo e_redo
           (fun _ _ => eq_refl) (fun _ _ => eq_refl) (fun _ _ => eq_refl)
           ordersSuggestion emptyEditor
           (snd (applyTableSuggestion editorAddTable editorSetUndoStack
                                      editorSetRedoStack keyOnly ordersSuggestion
                                      emptyEditor))
           ordersActionTable).
  vm_compute. reflexivity.
Defined.
